(** * lcmgen: the LCM grammar parser and type fingerprints

    A shallow embedding of [lcmgen/lcmgen.c]: the rolling 64-bit hash
    ([hash_update], [hash_string_update], [lcm_struct_hash],
    [lcm_enum_hash]) and the recursive-descent parser ([parse_member],
    [parse_enum_value], [parse_struct], [parse_enum], [parse_entity],
    [lcmgen_handle_file]).

    Platform conventions.  C leaves to the implementation the signedness
    of [char], the result of [>>] on a negative signed value and the
    conversion of an out-of-range value to a signed type; signed overflow
    is undefined.  The embedding follows gcc and clang on x86-64 (LP64):
    [char] is a signed byte, [>>] on [int64_t] is the arithmetic shift,
    conversions to a signed type and signed arithmetic wrap around in two's
    complement, and [long] has 64 bits.

    C strings are modelled by [string]; tokens hold no NUL byte, so
    [strlen] is [String.length] and [!strcmp a b] is [String.eqb a b]. *)

From Stdlib Require Import ZArith List String Ascii Bool Lia.
Import ListNotations.

Local Open Scope string_scope.
Local Open Scope list_scope.
Local Open Scope Z_scope.

(** ** Machine integers *)

(** The value of [z] converted to a signed two's-complement integer of
    [bits] bits. *)
Definition wrap_signed (bits : Z) (z : Z) : Z :=
  (z + 2 ^ (bits - 1)) mod 2 ^ bits - 2 ^ (bits - 1).

Definition to_int64 (z : Z) : Z := wrap_signed 64 z.
Definition to_int32 (z : Z) : Z := wrap_signed 32 z.
Definition to_char (z : Z) : Z := wrap_signed 8 z.

Definition in_int64 (z : Z) : Prop := - 2 ^ 63 <= z < 2 ^ 63.
Definition in_char (z : Z) : Prop := - 128 <= z < 128.

(** The [char] stored in one byte of a C string. *)
Definition char_of_ascii (a : ascii) : Z := to_char (Z.of_N (N_of_ascii a)).

(** [t[0]] of a C string: the terminating NUL for the empty string. *)
Definition first_char (s : string) : ascii :=
  match s with
  | EmptyString => zero
  | String c _ => c
  end.

(** <ctype.h> in the C locale. *)
Definition isdigit (c : ascii) : bool :=
  let n := N_of_ascii c in ((48 <=? n) && (n <=? 57))%N.

Definition isalpha (c : ascii) : bool :=
  let n := N_of_ascii c in
  (((65 <=? n) && (n <=? 90)) || ((97 <=? n) && (n <=? 122)))%N.

Definition isspace (c : ascii) : bool :=
  let n := N_of_ascii c in ((n =? 32) || ((9 <=? n) && (n <=? 13)))%N.

(** ** Type classification *)

(* lcm's built-in types. Note that unsigned types are not present *)
Definition primitive_types : list string :=
  [ "int8_t"; "int16_t"; "int32_t"; "int64_t"; "byte"; "float"; "double";
    "string"; "boolean" ].

(* which types can be legally used as array dimensions? *)
Definition array_dimension_types : list string :=
  [ "int8_t"; "int16_t"; "int32_t"; "int64_t" ].

(* Given array of strings "ts", does "t" appear in it? *)
Fixpoint string_in_array (t : string) (ts : list string) : bool :=
  match ts with
  | [] => false
  | x :: ts' => if String.eqb x t then true else string_in_array t ts'
  end.

Definition lcm_is_primitive_type (t : string) : bool :=
  string_in_array t primitive_types.

Definition lcm_is_array_dimension_type (t : string) : bool :=
  string_in_array t array_dimension_types.

Definition lcm_is_legal_member_name (t : string) : bool :=
  isalpha (first_char t) || Ascii.eqb (first_char t) "_"%char.

(** ** The rolling hash *)

(* v = ((v<<8) ^ (v>>55)) + c;   with  int64_t v, char c *)
Definition hash_update (v : Z) (c : Z) : Z :=
  to_int64 (Z.lxor (to_int64 (Z.shiftl v 8)) (Z.shiftr v 55) + c).

(* for (; *s != 0; s++) v = hash_update(v, *s); *)
Fixpoint hash_string_loop (v : Z) (s : string) : Z :=
  match s with
  | EmptyString => v
  | String c s' => hash_string_loop (hash_update v (char_of_ascii c)) s'
  end.

(* v = hash_update(v, strlen(s));  the length is converted to char *)
Definition hash_string_update (v : Z) (s : string) : Z :=
  hash_string_loop (hash_update v (to_char (Z.of_nat (String.length s)))) s.

(** ** <stdlib.h>: [strtol (s, NULL, 0)] *)

Definition LONG_MAX : Z := 2 ^ 63 - 1.
Definition LONG_MIN : Z := - 2 ^ 63.

Definition digit_value (c : ascii) : option Z :=
  let n := Z.of_N (N_of_ascii c) in
  if (48 <=? n) && (n <=? 57) then Some (n - 48)
  else if (97 <=? n) && (n <=? 122) then Some (n - 97 + 10)
  else if (65 <=? n) && (n <=? 90) then Some (n - 65 + 10)
  else None.

Definition is_digit_in (base : Z) (c : ascii) : bool :=
  match digit_value c with
  | Some d => d <? base
  | None => false
  end.

(* the longest run of digits of the base, as a number *)
Fixpoint strtol_digits (base : Z) (acc : Z) (s : string) : Z :=
  match s with
  | EmptyString => acc
  | String c s' =>
      match digit_value c with
      | Some d => if d <? base then strtol_digits base (acc * base + d) s' else acc
      | None => acc
      end
  end.

Fixpoint skip_spaces (s : string) : string :=
  match s with
  | String c s' => if isspace c then skip_spaces s' else s
  | EmptyString => s
  end.

(* base 0: "0x" or "0X" before a hexadecimal digit selects base 16, another
   leading "0" base 8, anything else base 10; the result saturates at the
   limits of long *)
Definition strtol (s : string) : Z :=
  let s := skip_spaces s in
  let '(neg, s) :=
    match s with
    | String "-" s' => (true, s')
    | String "+" s' => (false, s')
    | _ => (false, s)
    end in
  let magnitude :=
    match s with
    | String "0" (String x (String h s')) =>
        if (Ascii.eqb x "x" || Ascii.eqb x "X") && is_digit_in 16 h
        then strtol_digits 16 0 (String h s')
        else strtol_digits 8 0 s
    | String "0" _ => strtol_digits 8 0 s
    | _ => strtol_digits 10 0 s
    end in
  let v := if neg then - magnitude else magnitude in
  Z.max LONG_MIN (Z.min LONG_MAX v).

(** ** The AST (lcmgen.h) *)

Inductive lcm_dimension_mode_t := LCM_CONST | LCM_VAR.

(** Modelled from the spec: lcmgen.h, which declares the enumeration, is
    not among the sources; the ordinals are Constant=0 and Variable=1. *)
Definition mode_ordinal (m : lcm_dimension_mode_t) : Z :=
  match m with
  | LCM_CONST => 0
  | LCM_VAR => 1
  end.

Record lcm_typename_t := {
  typename : string;   (* fully-qualified name *)
  package : string;
  shortname : string
}.

Record lcm_dimension_t := {
  mode : lcm_dimension_mode_t;
  size : string
}.

Record lcm_member_t := {
  type : lcm_typename_t;
  membername : string;
  dimensions : list lcm_dimension_t
}.

(* the fields lcmfile and hash exist in both lcm_struct_t and lcm_enum_t;
   the projections carry the record's name to keep them apart.  The lists
   of nested structs and enums of lcm_struct_t are never filled. *)
Record lcm_struct_t := {
  structname : lcm_typename_t;
  members : list lcm_member_t;
  struct_lcmfile : string;
  struct_hash : Z
}.

Record lcm_enum_value_t := {
  valuename : string;
  value : Z   (* int32_t *)
}.

Record lcm_enum_t := {
  enumname : lcm_typename_t;
  values : list lcm_enum_value_t;
  enum_lcmfile : string;
  enum_hash : Z
}.

Record lcmgen_t := {
  gopt : string -> bool;   (* getopt_get_bool (lcmgen->gopt, name) *)
  structs : list lcm_struct_t;
  enums : list lcm_enum_t
}.

(* strrchr (tmp, '.'): the text before and after the last '.' *)
Fixpoint split_last_dot (s : string) : option (string * string) :=
  match s with
  | EmptyString => None
  | String c s' =>
      match split_last_dot s' with
      | Some (p, sh) => Some (String c p, sh)
      | None => if Ascii.eqb c "." then Some (EmptyString, s') else None
      end
  end.

Definition lcm_typename_create (name : string) : lcm_typename_t :=
  match split_last_dot name with
  | None => {| typename := name; package := ""; shortname := name |}
  | Some (p, sh) => {| typename := name; package := p; shortname := sh |}
  end.

Definition lcm_struct_create (lcmfile structname : string) : lcm_struct_t :=
  {| structname := lcm_typename_create structname;
     members := [];
     struct_lcmfile := lcmfile;
     struct_hash := 0 |}.

Definition lcm_enum_create (lcmfile name : string) : lcm_enum_t :=
  {| enumname := lcm_typename_create name;
     values := [];
     enum_lcmfile := lcmfile;
     enum_hash := 0 |}.

Definition lcm_enum_value_create (name : string) : lcm_enum_value_t :=
  {| valuename := name; value := 0 |}.

Definition lcm_member_create : lcm_member_t :=
  {| type := lcm_typename_create ""; membername := ""; dimensions := [] |}.

Definition set_struct_hash (lr : lcm_struct_t) (h : Z) : lcm_struct_t :=
  {| structname := structname lr; members := members lr;
     struct_lcmfile := struct_lcmfile lr; struct_hash := h |}.

Definition set_members (lr : lcm_struct_t) (ms : list lcm_member_t) : lcm_struct_t :=
  {| structname := structname lr; members := ms;
     struct_lcmfile := struct_lcmfile lr; struct_hash := struct_hash lr |}.

Definition set_enum_hash (le : lcm_enum_t) (h : Z) : lcm_enum_t :=
  {| enumname := enumname le; values := values le;
     enum_lcmfile := enum_lcmfile le; enum_hash := h |}.

Definition set_values (le : lcm_enum_t) (vs : list lcm_enum_value_t) : lcm_enum_t :=
  {| enumname := enumname le; values := vs;
     enum_lcmfile := enum_lcmfile le; enum_hash := enum_hash le |}.

(** ** Fingerprints *)

(* for (i = 0; i < n; i++) body   over an accumulator *)
Fixpoint for_loop {S : Type} (n : nat) (i : nat) (body : nat -> S -> S) (s : S) : S :=
  match n with
  | O => s
  | Datatypes.S n' => for_loop n' (Datatypes.S i) body (body i s)
  end.

Definition g_ptr_array_index {A : Type} (d : A) (a : list A) (i : nat) : A :=
  nth i a d.

Definition g_ptr_array_size {A : Type} (a : list A) : nat := List.length a.

Definition no_dimension : lcm_dimension_t := {| mode := LCM_CONST; size := "" |}.

Definition lcm_struct_hash (lr : lcm_struct_t) : Z :=
  let v := 305419896 (* 0x12345678 *) in
  for_loop (g_ptr_array_size (members lr)) 0
    (fun i v =>
       let lm := g_ptr_array_index lcm_member_create (members lr) i in
       (* hash the member name *)
       let v := hash_string_update v (membername lm) in
       (* if the member is a primitive type, include the type signature *)
       let v :=
         if lcm_is_primitive_type (typename (type lm))
         then hash_string_update v (typename (type lm))
         else v in
       (* hash the dimensionality information *)
       let ndim := g_ptr_array_size (dimensions lm) in
       let v := hash_update v (to_char (Z.of_nat ndim)) in
       for_loop ndim 0
         (fun j v =>
            let dim := g_ptr_array_index no_dimension (dimensions lm) j in
            let v := hash_update v (to_char (mode_ordinal (mode dim))) in
            hash_string_update v (size dim))
         v)
    v.

Definition lcm_enum_hash (le : lcm_enum_t) : Z :=
  let v := 2271560481 (* 0x87654321 *) in
  hash_string_update v (typename (enumname le)).

(** ** The token source *)

(** Modelled from the spec: tokenize.c is not among the sources.  The token
    source is a one-token-lookahead stream: [tokenize_next] and
    [tokenize_peek] return the next lexical token, left in [token], or the
    end-of-input sentinel [EOF]; a peeked token stays in the stream.  The
    tokens still to come are [pending]. *)
Record tokenize_t := {
  token : string;
  pending : list string
}.

Definition EOF : Z := -1.

(** Modelled from the spec: [next()] of the token source (tokenize.c):
    takes the next token out of the stream, or returns [EOF]. *)
Definition tokenize_next (t : tokenize_t) : Z * tokenize_t :=
  match pending t with
  | [] => (EOF, t)
  | x :: rest => (0, {| token := x; pending := rest |})
  end.

(** Modelled from the spec: [peek()] of the token source (tokenize.c):
    shows the next token and leaves it in the stream, or returns [EOF]. *)
Definition tokenize_peek (t : tokenize_t) : Z * tokenize_t :=
  match pending t with
  | [] => (EOF, t)
  | x :: _ => (0, {| token := x; pending := pending t |})
  end.

(** Modelled from the spec: the token source (tokenize.c) opened on a
    file, given by the tokens it will deliver. *)
Definition tokenize_create (toks : list string) : tokenize_t :=
  {| token := ""; pending := toks |}.

(** ** The parser monad

    The parser works on the registry [lcmgen] and the token source [t],
    both reached through pointers; a fatal diagnostic ends the process
    ([_exit]) in the state it has reached. *)

Record pstate := {
  lcmgen : lcmgen_t;
  tok : tokenize_t
}.

Inductive fmt_arg := FStr (s : string) | FInt (z : Z).

Inductive diag :=
| ParseError (fmt : string) (args : list fmt_arg)
| SemanticError (fmt : string) (args : list fmt_arg).

Inductive result (A : Type) :=
| Ok (a : A) (s : pstate)
| Exit (d : diag) (s : pstate)
| OutOfFuel.

Arguments Ok {A} a s.
Arguments Exit {A} d s.
Arguments OutOfFuel {A}.

Definition M (A : Type) : Type := pstate -> result A.

Definition ret {A} (a : A) : M A := fun s => Ok a s.

Definition bind {A B} (m : M A) (f : A -> M B) : M B :=
  fun s =>
    match m s with
    | Ok a s' => f a s'
    | Exit d s' => Exit d s'
    | OutOfFuel => OutOfFuel
    end.

Notation "x <- m ;; k" := (bind m (fun x => k))
  (at level 61, m at next level, right associativity).
Notation "m ;; k" := (bind m (fun _ => k))
  (at level 61, right associativity).

Definition out_of_fuel {A} : M A := fun _ => OutOfFuel.

(* This function does not return. *)
Definition parse_error {A} (fmt : string) (args : list fmt_arg) : M A :=
  fun s => Exit (ParseError fmt args) s.

(* This function does not return. *)
Definition semantic_error {A} (fmt : string) (args : list fmt_arg) : M A :=
  fun s => Exit (SemanticError fmt args) s.

Definition when (b : bool) (m : M unit) : M unit := if b then m else ret tt.

Definition next : M Z :=
  fun s =>
    let '(res, t') := tokenize_next (tok s) in
    Ok res {| lcmgen := lcmgen s; tok := t' |}.

Definition peek : M Z :=
  fun s =>
    let '(res, t') := tokenize_peek (tok s) in
    Ok res {| lcmgen := lcmgen s; tok := t' |}.

Definition cur_token : M string := fun s => Ok (token (tok s)) s.

Definition remaining (s : pstate) : nat := List.length (pending (tok s)).

(* a loop runs on the fuel that the tokens still to come allow *)
Definition with_fuel {A} (loop : nat -> M A) : M A :=
  fun s => loop (S (remaining s)) s.

(* If the next token is "tok", consume it and return 1. Else, return 0 *)
Definition parse_try_consume (tk : string) : M bool :=
  res <- peek ;;
  when (res =? EOF) (parse_error "End of file while looking for %s." [FStr tk]) ;;
  tkn <- cur_token ;;
  let res := String.eqb tkn tk in
  (* consume if the token matched *)
  (if res then _ <- next ;; ret tt else ret tt) ;;
  ret res.

(* Consume the next token. If it's not "tok", an error is emitted and
   the program exits. *)
Definition parse_require (tk : string) : M unit :=
  res <- next ;;
  tkn <- cur_token ;;
  when ((res =? EOF) || negb (String.eqb tkn tk))
    (parse_error "expected token %s" [FStr tk]).

(* require that the next token exist (not EOF). *)
Definition require_next (description : string) : M unit :=
  res <- next ;;
  when (res =? EOF)
    (parse_error "End of file reached, expected %s." [FStr description]).

(** ** Members *)

(* Find and return the member whose name is name. *)
Definition lcm_find_member (lr : lcm_struct_t) (name : string) : option lcm_member_t :=
  find (fun lm => String.eqb (membername lm) name) (members lr).

Definition g_ptr_array_add {A : Type} (a : list A) (x : A) : list A := a ++ [x].

(* g_ptr_array_add (lm->dimensions, dim), where lm is the member stored at
   index [lmi] of lr->members: the array holds the pointer lm itself *)
Fixpoint add_dimension_at (ms : list lcm_member_t) (lmi : nat) (dim : lcm_dimension_t)
  : list lcm_member_t :=
  match ms, lmi with
  | [], _ => []
  | lm :: ms', O =>
      {| type := type lm; membername := membername lm;
         dimensions := g_ptr_array_add (dimensions lm) dim |} :: ms'
  | lm :: ms', S i => lm :: add_dimension_at ms' i dim
  end.

(* the search for the variable that sizes a dimension (the loop over
   lr->members, left by break at the first member of that name) *)
Fixpoint find_array_index (ms : list lcm_member_t) (tkn : string) : M bool :=
  match ms with
  | [] => ret false
  | thislm :: ms' =>
      if String.eqb (membername thislm) tkn then
        when (negb (g_ptr_array_size (dimensions thislm) =? 0)%nat)
          (semantic_error "Array dimension '%s' must be not be an array type." [FStr tkn]) ;;
        when (negb (lcm_is_array_dimension_type (typename (type thislm))))
          (semantic_error "Array dimension '%s' must be an integer type." [FStr tkn]) ;;
        ret true
      else find_array_index ms' tkn
  end.

(* the size of one dimension, from the token just read: a number or the
   name of a variable *)
Definition parse_dimension (lr : lcm_struct_t) : M lcm_dimension_t :=
  tkn <- cur_token ;;
  if isdigit (first_char tkn) then
    (* we have a constant size array declaration. *)
    let sz := to_int32 (strtol tkn) in
    when (sz <=? 0) (semantic_error "Constant array size must be > 0" []) ;;
    ret {| mode := LCM_CONST; size := tkn |}
  else
    (* we have a variable sized declaration. *)
    when (Ascii.eqb (first_char tkn) "]")
      (semantic_error "Array sizes must be declared either as a constant or variable." []) ;;
    when (negb (lcm_is_legal_member_name tkn))
      (semantic_error "Invalid array size variable name: must start with [a-zA-Z_]." []) ;;
    (* make sure the named variable is
       1) previously declared and
       2) an integer type *)
    okay <- find_array_index (members lr) tkn ;;
    when (negb okay)
      (semantic_error
         "Unknown variable array index '%s'. Index variables must be declared before the array."
         [FStr tkn]) ;;
    ret {| mode := LCM_VAR; size := tkn |}.

(* while (parse_try_consume(t, "[")) ... *)
Fixpoint parse_dimensions_loop (lmi : nat) (fuel : nat) (lr : lcm_struct_t)
  : M lcm_struct_t :=
  match fuel with
  | O => out_of_fuel
  | S fuel' =>
      more <- parse_try_consume "[" ;;
      if more then
        (* pull out the size of the dimension *)
        require_next "array size" ;;
        dim <- parse_dimension lr ;;
        parse_require "]" ;;
        (* increase the dimensionality of the array by one dimension. *)
        parse_dimensions_loop lmi fuel'
          (set_members lr (add_dimension_at (members lr) lmi dim))
      else ret lr
  end.

(* while (1) ... if (!parse_try_consume(t, ",")) break; *)
Fixpoint parse_member_names_loop (lt : lcm_typename_t) (fuel : nat) (lr : lcm_struct_t)
  : M lcm_struct_t :=
  match fuel with
  | O => out_of_fuel
  | S fuel' =>
      (* get the lcm type name *)
      require_next "name identifier" ;;
      tkn <- cur_token ;;
      when (negb (lcm_is_legal_member_name tkn))
        (parse_error "Invalid member name: must start with [a-zA-Z_]." []) ;;
      (* make sure this name isn't already taken. *)
      when (match lcm_find_member lr tkn with Some _ => true | None => false end)
        (semantic_error "Duplicate member name '%s'." [FStr tkn]) ;;
      (* create a new member *)
      let lm := {| type := lt; membername := tkn;
                   dimensions := dimensions lcm_member_create |} in
      let lmi := g_ptr_array_size (members lr) in
      let lr := set_members lr (g_ptr_array_add (members lr) lm) in
      (* (multi-dimensional) array declaration? *)
      lr <- with_fuel (fun fuel => parse_dimensions_loop lmi fuel lr) ;;
      more <- parse_try_consume "," ;;
      if more then parse_member_names_loop lt fuel' lr else ret lr
  end.

(* parse a member declaration.  The struct lr is updated in place; the
   embedding returns it. *)
Definition parse_member (lr : lcm_struct_t) : M lcm_struct_t :=
  (* inline type declaration? *)
  (is_struct <- parse_try_consume "struct" ;;
   if is_struct then parse_error "recursive structs not implemented." []
   else
     is_enum <- parse_try_consume "enum" ;;
     if is_enum then parse_error "recursive enums not implemented." []
     else
       is_union <- parse_try_consume "union" ;;
       when is_union (parse_error "recursive unions not implemented." [])) ;;
  (* standard declaration *)
  require_next "type identifier" ;;
  tkn <- cur_token ;;
  when (negb (isalpha (first_char tkn)) && negb (Ascii.eqb (first_char tkn) "_"))
    (parse_error "invalid type name" []) ;;
  let lt := lcm_typename_create tkn in
  lr <- with_fuel (fun fuel => parse_member_names_loop lt fuel lr) ;;
  parse_require ";" ;;
  ret lr.

(** ** Enums *)

(* the didn't specify the value, compute the next largest value *)
Definition enum_max (vs : list lcm_enum_value_t) : Z :=
  fold_left (fun max tmp => if value tmp >? max then value tmp else max) vs 0.

(* make sure there aren't any duplicate values *)
Fixpoint check_enum_duplicates (vs : list lcm_enum_value_t) (lev : lcm_enum_value_t)
  : M unit :=
  match vs with
  | [] => ret tt
  | tmp :: vs' =>
      when (value tmp =? value lev)
        (semantic_error "Enum values %s and %s have the same value %d!"
           [FStr (valuename tmp); FStr (valuename lev); FInt (value lev)]) ;;
      when (String.eqb (valuename tmp) (valuename lev))
        (semantic_error "Enum value %s declared twice!" [FStr (valuename tmp)]) ;;
      check_enum_duplicates vs' lev
  end.

Definition parse_enum_value (le : lcm_enum_t) : M lcm_enum_t :=
  require_next "enum name" ;;
  tkn <- cur_token ;;
  let lev := lcm_enum_value_create tkn in
  has_literal <- parse_try_consume "=" ;;
  v <- (if has_literal then
          require_next "enum value literal" ;;
          lit <- cur_token ;;
          ret (to_int32 (strtol lit))
        else
          let max := enum_max (values le) in
          ret (to_int32 (max + 1))) ;;
  let lev := {| valuename := valuename lev; value := v |} in
  check_enum_duplicates (values le) lev ;;
  ret (set_values le (g_ptr_array_add (values le) lev)).

(** ** Structs, enums and files *)

(* while (!parse_try_consume(t, "}")) parse_member(lcmgen, lr, t); *)
Fixpoint parse_struct_body_loop (fuel : nat) (lr : lcm_struct_t) : M lcm_struct_t :=
  match fuel with
  | O => out_of_fuel
  | S fuel' =>
      closed <- parse_try_consume "}" ;;
      if closed then ret lr
      else
        lr <- parse_member lr ;;
        parse_struct_body_loop fuel' lr
  end.

(* assume the "struct" token is already consumed *)
Definition parse_struct (lcmfile : string) : M lcm_struct_t :=
  require_next "struct name" ;;
  name <- cur_token ;;
  let lr := lcm_struct_create lcmfile name in
  parse_require "{" ;;
  lr <- with_fuel (fun fuel => parse_struct_body_loop fuel lr) ;;
  ret (set_struct_hash lr (lcm_struct_hash lr)).

Fixpoint parse_enum_body_loop (fuel : nat) (le : lcm_enum_t) : M lcm_enum_t :=
  match fuel with
  | O => out_of_fuel
  | S fuel' =>
      closed <- parse_try_consume "}" ;;
      if closed then ret le
      else
        le <- parse_enum_value le ;;
        _ <- parse_try_consume "," ;;
        _ <- parse_try_consume ";" ;;
        parse_enum_body_loop fuel' le
  end.

(* assumes the "enum" token is already consumed *)
Definition parse_enum (lcmfile : string) : M lcm_enum_t :=
  require_next "enum name" ;;
  name <- cur_token ;;
  let le := lcm_enum_create lcmfile name in
  parse_require "{" ;;
  le <- with_fuel (fun fuel => parse_enum_body_loop fuel le) ;;
  ret (set_enum_hash le (lcm_enum_hash le)).

Definition add_struct (lr : lcm_struct_t) : M unit :=
  fun s =>
    Ok tt {| lcmgen := {| gopt := gopt (lcmgen s);
                          structs := g_ptr_array_add (structs (lcmgen s)) lr;
                          enums := enums (lcmgen s) |};
             tok := tok s |}.

Definition add_enum (le : lcm_enum_t) : M unit :=
  fun s =>
    Ok tt {| lcmgen := {| gopt := gopt (lcmgen s);
                          structs := structs (lcmgen s);
                          enums := g_ptr_array_add (enums (lcmgen s)) le |};
             tok := tok s |}.

Definition newline : string := String (ascii_of_nat 10) EmptyString.

(* parse entity (top-level construct), return EOF if eof. *)
Definition parse_entity (lcmfile : string) : M Z :=
  res <- next ;;
  if res =? EOF then ret EOF
  else
    tkn <- cur_token ;;
    if String.eqb tkn "struct" then
      lr <- parse_struct lcmfile ;;
      add_struct lr ;;
      ret 0
    else if String.eqb tkn "enum" then
      le <- parse_enum lcmfile ;;
      add_enum le ;;
      ret 0
    else if String.eqb tkn "union" then
      parse_error (A := unit) ("unions not implemented" ++ newline)%string [] ;;
      ret 0
    else
      parse_error (A := unit) "Missing struct/enum/union token." [] ;;
      ret (-1).

(* do { res = parse_entity(lcmgen, path, t); } while (res != EOF); *)
Fixpoint handle_file_loop (path : string) (fuel : nat) : M unit :=
  match fuel with
  | O => out_of_fuel
  | S fuel' =>
      res <- parse_entity path ;;
      if negb (res =? EOF) then handle_file_loop path fuel' else ret tt
  end.

(* while (tokenize_next(t)!=EOF) printf (...); *)
Fixpoint dump_tokens_loop (fuel : nat) : M unit :=
  match fuel with
  | O => out_of_fuel
  | S fuel' =>
      res <- next ;;
      if negb (res =? EOF) then dump_tokens_loop fuel' else ret tt
  end.

(** The file at [path] is given by the tokens that [tokenize_create]
    delivers for it, or [None] when it cannot be opened. *)
Definition lcmgen_handle_file (lcmgen : lcmgen_t) (path : string)
    (file : option (list string)) : result Z :=
  match file with
  | None => Ok (-1) {| lcmgen := lcmgen; tok := tokenize_create [] |}
  | Some toks =>
      let s := {| lcmgen := lcmgen; tok := tokenize_create toks |} in
      if gopt lcmgen "tokenize" then
        (with_fuel dump_tokens_loop ;; ret 0) s
      else
        (with_fuel (handle_file_loop path) ;; ret 0) s
  end.

Definition lcmgen_create : lcmgen_t :=
  {| gopt := fun _ => false; structs := []; enums := [] |}.

(** ** Reference definitions, in the words of the specification *)

(** The character update with [v >>> 55], the unsigned (logical) right
    shift of the 64-bit pattern of [v]. *)
Definition hash_update_logical (v : Z) (c : Z) : Z :=
  to_int64 (Z.lxor (to_int64 (Z.shiftl v 8)) (Z.shiftr (v mod 2 ^ 64) 55) + c).

(** A rolling hash: the character updates of a feed, in order, from a seed. *)
Definition rolling_hash (seed : Z) (feed : list Z) : Z :=
  fold_left hash_update feed seed.

(** The characters of a string update: the length, then every byte. *)
Definition string_feed (s : string) : list Z :=
  to_char (Z.of_nat (String.length s)) :: map char_of_ascii (list_ascii_of_string s).

(** A dimension feeds its mode ordinal, then its size token. *)
Definition dimension_feed (d : lcm_dimension_t) : list Z :=
  mode_ordinal (mode d) :: string_feed (size d).

(** A member feeds its name, then its type name if and only if the type
    is primitive, then the number of dimensions, then every dimension. *)
Definition member_feed (m : lcm_member_t) : list Z :=
  string_feed (membername m)
  ++ (if lcm_is_primitive_type (typename (type m))
      then string_feed (typename (type m)) else [])
  ++ to_char (Z.of_nat (List.length (dimensions m)))
     :: flat_map dimension_feed (dimensions m).

(** A struct feeds its members in declaration order, and nothing else. *)
Definition struct_feed (ms : list lcm_member_t) : list Z :=
  flat_map member_feed ms.

(** The same feed written out without the helpers of the code.  An integer
    stored in a [char] is its residue modulo 256 in -128..127. *)
Definition char_residue (z : Z) : Z := (z + 128) mod 256 - 128.

(** The built-in primitive types, by name. *)
Definition builtin_primitive (t : string) : bool :=
  existsb (fun p => String.eqb p t)
    [ "int8_t"; "int16_t"; "int32_t"; "int64_t"; "byte"; "float"; "double";
      "string"; "boolean" ].

(** A string update feeds the byte length, then every byte. *)
Definition string_chars (s : string) : list Z :=
  char_residue (Z.of_nat (String.length s))
  :: map (fun a => char_residue (Z.of_N (N_of_ascii a))) (list_ascii_of_string s).

(** What a member feeds, for a given way [count_char] of turning the
    number of dimensions into the character that is fed. *)
Definition member_chars (count_char : nat -> Z) (m : lcm_member_t) : list Z :=
  string_chars (membername m)
  ++ (if builtin_primitive (typename (type m))
      then string_chars (typename (type m)) else [])
  ++ count_char (List.length (dimensions m))
     :: flat_map (fun d => mode_ordinal (mode d) :: string_chars (size d))
          (dimensions m).

Definition struct_chars (count_char : nat -> Z) (ms : list lcm_member_t) : list Z :=
  flat_map (member_chars count_char) ms.

(** The number of dimensions fed as the number it is, and fed as the
    [char] that receives it. *)
Definition count_as_stated (n : nat) : Z := Z.of_nat n.

Definition count_as_char (n : nat) : Z := char_residue (Z.of_nat n).

(** The maximum among the enum values parsed so far, taken as 0 when no
    value has been parsed yet. *)
Definition max_of_values (vs : list lcm_enum_value_t) : Z :=
  match map value vs with
  | [] => 0
  | v :: rest => fold_right Z.max v rest
  end.

(** The largest of 0 and the enum values parsed so far. *)
Definition running_max (vs : list lcm_enum_value_t) : Z :=
  fold_right Z.max 0 (map value vs).

(** No earlier value of the enum has the name or the number of [lev]. *)
Definition fresh_enum_value (le : lcm_enum_t) (lev : lcm_enum_value_t) : Prop :=
  forall tmp, In tmp (values le) ->
    value tmp <> value lev /\ valuename tmp <> valuename lev.

(** One member of a struct under another name, or with another type. *)
Definition rename_member (m : lcm_member_t) (name : string) : lcm_member_t :=
  {| type := type m; membername := name; dimensions := dimensions m |}.

Definition retype_member (m : lcm_member_t) (t : lcm_typename_t) : lcm_member_t :=
  {| type := t; membername := membername m; dimensions := dimensions m |}.

(** ** Notions for the proofs *)

(* (v<<8) ^ (v>>55) *)
Definition mix (v : Z) : Z := Z.lxor (to_int64 (Z.shiftl v 8)) (Z.shiftr v 55).

(** The state with registry [g] in which [tk] has just been read and
    [toks] are still to come. *)
Definition state_of (g : lcmgen_t) (tk : string) (toks : list string) : pstate :=
  {| lcmgen := g; tok := {| token := tk; pending := toks |} |}.

(** The same with the registry of [s], and with an empty registry. *)
Definition at_token (s : pstate) (tk : string) (toks : list string) : pstate :=
  {| lcmgen := lcmgen s; tok := {| token := tk; pending := toks |} |}.

Definition after (tk : string) (toks : list string) : pstate :=
  {| lcmgen := lcmgen_create; tok := {| token := tk; pending := toks |} |}.

(** [keeps strict m s]: run from [s], [m] ends (the fuel is enough) and
    leaves the registry as it found it, whether it returns or exits; when
    it returns it has consumed tokens (at least one if [strict]). *)
Definition keeps (strict : bool) {A} (m : M A) (s : pstate) : Prop :=
  match m s with
  | Ok _ s' =>
      lcmgen s' = lcmgen s
      /\ (if strict then remaining s' < remaining s
          else remaining s' <= remaining s)%nat
  | Exit _ s' => lcmgen s' = lcmgen s
  | OutOfFuel => False
  end.

(** [entities_parsed path s s0]: from [s], the loop of
    [lcmgen_handle_file] reaches [s0] by parsing whole entities. *)
Inductive entities_parsed (path : string) : pstate -> pstate -> Prop :=
| parsed_none s : entities_parsed path s s
| parsed_more s r s1 s2 :
    parse_entity path s = Ok r s1 -> r <> EOF ->
    entities_parsed path s1 s2 -> entities_parsed path s s2.

(** Two runs that end alike: the same state and, when they return, structs
    with the same members. *)
Definition same_outcome (r1 r2 : result lcm_struct_t) : Prop :=
  match r1, r2 with
  | Ok a s1, Ok b s2 => members a = members b /\ s1 = s2
  | Exit d1 s1, Exit d2 s2 => d1 = d2 /\ s1 = s2
  | OutOfFuel, OutOfFuel => True
  | _, _ => False
  end.

(** ** Sample sources *)

Definition plain_type (name : string) : lcm_typename_t :=
  {| typename := name; package := ""; shortname := name |}.

(* struct a { int32_t x; int32_t data[x]; } *)
Definition struct_a_tokens : list string :=
  [ "a"; "{"; "int32_t"; "x"; ";"; "int32_t"; "data"; "["; "x"; "]"; ";"; "}" ].

Definition struct_a : lcm_struct_t :=
  {| structname := plain_type "a";
     members :=
       [ {| type := plain_type "int32_t"; membername := "x"; dimensions := [] |};
         {| type := plain_type "int32_t"; membername := "data";
            dimensions := [ {| mode := LCM_VAR; size := "x" |} ] |} ];
     struct_lcmfile := "a.lcm";
     struct_hash := -5107919450537847107 |}.

(* struct b { int32_t n[0]; } *)
Definition struct_b_tokens : list string :=
  [ "b"; "{"; "int32_t"; "n"; "["; "0"; "]"; ";"; "}" ].

(* struct b { int32_t n[<size>]; } *)
Definition sized_array_tokens (size : string) : list string :=
  [ "b"; "{"; "int32_t"; "n"; "["; size; "]"; ";"; "}" ].

(* struct c { float f[2][3]; } *)
Definition struct_c_tokens : list string :=
  [ "c"; "{"; "float"; "f"; "["; "2"; "]"; "["; "3"; "]"; ";"; "}" ].

(* struct s { int32_t n[n]; } *)
Definition struct_self_sized_tokens : list string :=
  [ "s"; "{"; "int32_t"; "n"; "["; "n"; "]"; ";"; "}" ].

Definition struct_self_sized : lcm_struct_t :=
  {| structname := plain_type "s";
     members :=
       [ {| type := plain_type "int32_t"; membername := "n";
            dimensions := [ {| mode := LCM_VAR; size := "n" |} ] |} ];
     struct_lcmfile := "s.lcm";
     struct_hash := 2296164764003018420 |}.

(* struct s { float f[1][1]...[1]; }  with 200 dimensions *)
Definition many_dimensions_tokens : list string :=
  [ "s"; "{"; "float"; "f" ]
  ++ flat_map (fun _ => [ "["; "1"; "]" ]) (seq 0 200) ++ [ ";"; "}" ].

Definition many_dimensions_struct : lcm_struct_t :=
  {| structname := plain_type "s";
     members :=
       [ {| type := plain_type "float"; membername := "f";
            dimensions := repeat {| mode := LCM_CONST; size := "1" |} 200 |} ];
     struct_lcmfile := "s.lcm";
     struct_hash := 5335903157021138478 |}.

(* struct s { <type> <name>; } *)
Definition one_member_tokens (ty name : string) : list string :=
  [ "s"; "{"; ty; name; ";"; "}" ].

Definition one_member_struct (ty name : string) (h : Z) : lcm_struct_t :=
  {| structname := plain_type "s";
     members := [ {| type := plain_type ty; membername := name; dimensions := [] |} ];
     struct_lcmfile := "s.lcm";
     struct_hash := h |}.

(* enum <name> { <values> } *)
Definition enum_of (name : string) (vs : list lcm_enum_value_t) (h : Z) : lcm_enum_t :=
  {| enumname := plain_type name; values := vs; enum_lcmfile := "e.lcm"; enum_hash := h |}.

(* enum mode_type { }  and  enum node_typc { } *)
Definition enum_mode_type : lcm_enum_t := enum_of "mode_type" [] 8026976482347418431.

Definition enum_node_typc : lcm_enum_t := enum_of "node_typc" [] 8026976482347418431.

(* enum Color { RED, GREEN=5, BLUE } *)
Definition enum_Color_tokens : list string :=
  [ "Color"; "{"; "RED"; ","; "GREEN"; "="; "5"; ","; "BLUE"; "}" ].

(* enum E { A=-5, B }   and   enum E { A=0xFFFFFFFF, B } *)
Definition enum_negative_tokens : list string :=
  [ "E"; "{"; "A"; "="; "-5"; ","; "B"; "}" ].

Definition enum_wrapped_tokens : list string :=
  [ "E"; "{"; "A"; "="; "0xFFFFFFFF"; ","; "B"; "}" ].

(** ** Further functions of lcmgen.c *)

(* for (i = 0; i < ndim; i++) if (dim->mode == LCM_VAR) return 0; *)
Fixpoint constant_size_loop (dims : list lcm_dimension_t) : Z :=
  match dims with
  | [] => 1
  | dim :: dims' =>
      match mode dim with
      | LCM_VAR => 0
      | LCM_CONST => constant_size_loop dims'
      end
  end.

(* Is the member an array of constant size? *)
Definition lcm_is_constant_size_array (lm : lcm_member_t) : Z :=
  let ndim := g_ptr_array_size (dimensions lm) in
  if (ndim =? 0)%nat then 1 else constant_size_loop (dimensions lm).

(** ** Well-formed names, members and enum values *)

Definition in_int32 (z : Z) : Prop := - 2 ^ 31 <= z < 2 ^ 31.

(** Does the string hold a '.'? *)
Fixpoint has_dot (s : string) : bool :=
  match s with
  | EmptyString => false
  | String c s' => Ascii.eqb c "." || has_dot s'
  end.

(** The dimension is sized by a scalar integer member among [pre]. *)
Definition sized_by_earlier (pre : list lcm_member_t) (d : lcm_dimension_t) : Prop :=
  exists m', In m' pre /\ membername m' = size d /\ dimensions m' = []
             /\ lcm_is_array_dimension_type (typename (type m')) = true.

(** What a dimension of the member [m], declared after the members [pre],
    can be; [first] tells whether it is the first dimension of [m]. *)
Definition dimension_ok (pre : list lcm_member_t) (m : lcm_member_t) (first : bool)
    (d : lcm_dimension_t) : Prop :=
  match mode d with
  | LCM_CONST =>
      isdigit (first_char (size d)) = true /\ 0 < to_int32 (strtol (size d))
  | LCM_VAR =>
      lcm_is_legal_member_name (size d) = true
      /\ (sized_by_earlier pre d
          \/ (first = true /\ size d = membername m
              /\ lcm_is_array_dimension_type (typename (type m)) = true))
  end.

Definition dimensions_ok (pre : list lcm_member_t) (m : lcm_member_t)
    (ds : list lcm_dimension_t) : Prop :=
  match ds with
  | [] => True
  | d :: ds' => dimension_ok pre m true d /\ Forall (dimension_ok pre m false) ds'
  end.

(** What a member declared after the members [pre] is. *)
Definition member_ok (pre : list lcm_member_t) (m : lcm_member_t) : Prop :=
  lcm_is_legal_member_name (membername m) = true
  /\ lcm_is_legal_member_name (typename (type m)) = true
  /\ ~ In (membername m) (map membername pre)
  /\ dimensions_ok pre m (dimensions m).

Fixpoint members_ok (pre ms : list lcm_member_t) : Prop :=
  match ms with
  | [] => True
  | m :: ms' => member_ok pre m /\ members_ok (pre ++ [m]) ms'
  end.

(** The state with [extra] tokens behind those still to come. *)
Definition extend (s : pstate) (extra : list string) : pstate :=
  {| lcmgen := lcmgen s;
     tok := {| token := token (tok s); pending := pending (tok s) ++ extra |} |}.

(** What a run leaves to its caller: the value returned or the fatal
    diagnostic, and the registry. *)
Definition outcome (r : result Z) : option (Z + diag) * option lcmgen_t :=
  match r with
  | Ok z s => (Some (inl z), Some (lcmgen s))
  | Exit d s => (Some (inr d), Some (lcmgen s))
  | OutOfFuel => (None, None)
  end.

(** [registry_grows path g g']: the registry [g'] is [g] with structs and
    enums appended, each of them parsed from the file [path] and complete:
    it carries its hash, and the members of a struct are well formed. *)
Definition registry_grows (path : string) (g g' : lcmgen_t) : Prop :=
  gopt g' = gopt g
  /\ exists ss es,
       structs g' = structs g ++ ss /\ enums g' = enums g ++ es
       /\ Forall (fun lr => struct_lcmfile lr = path
                            /\ struct_hash lr = lcm_struct_hash lr
                            /\ members_ok [] (members lr)) ss
       /\ Forall (fun le => enum_lcmfile le = path
                            /\ enum_hash le = lcm_enum_hash le) es.

(** [carries m m']: when [m] returns, [m'] run with more tokens behind the
    same input returns the same value and leaves those tokens behind. *)
Definition carries {A} (m m' : M A) : Prop :=
  forall s a s' extra,
    m s = Ok a s' -> m' (extend s extra) = Ok a (extend s' extra).

(** [blind m]: [m] does not look at the registry: from two states with the
    same token source it ends alike, with the same value or diagnostic and
    the same token source. *)
Definition blind {A} (m : M A) : Prop :=
  forall s1 s2, tok s1 = tok s2 ->
    match m s1, m s2 with
    | Ok a s1', Ok b s2' => a = b /\ tok s1' = tok s2'
    | Exit d1 s1', Exit d2 s2' => d1 = d2 /\ tok s1' = tok s2'
    | OutOfFuel, OutOfFuel => True
    | _, _ => False
    end.

(** [same_growth g1 g1' g2 g2']: the registries [g1] and [g2] have grown
    into [g1'] and [g2'] by the same structs and enums. *)
Definition same_growth (g1 g1' g2 g2' : lcmgen_t) : Prop :=
  gopt g1' = gopt g1 /\ gopt g2' = gopt g2
  /\ exists ss es,
       structs g1' = structs g1 ++ ss /\ structs g2' = structs g2 ++ ss
       /\ enums g1' = enums g1 ++ es /\ enums g2' = enums g2 ++ es.

(** * Properties *)

(** ** Two's-complement facts *)

Lemma pow2_63 : 2 ^ 63 = 9223372036854775808.
Proof. reflexivity. Qed.

Lemma pow2_64 : 2 ^ 64 = 18446744073709551616.
Proof. reflexivity. Qed.

Lemma to_int32_range z : in_int32 (to_int32 z).
Proof.
  unfold in_int32, to_int32, wrap_signed.
  change (2 ^ (32 - 1)) with 2147483648. change (2 ^ 32) with 4294967296.
  change (2 ^ 31) with 2147483648.
  pose proof (Z.mod_pos_bound (z + 2147483648) 4294967296). lia.
Qed.

Lemma to_int32_small z : in_int32 z -> to_int32 z = z.
Proof.
  unfold in_int32, to_int32, wrap_signed.
  change (2 ^ (32 - 1)) with 2147483648. change (2 ^ 32) with 4294967296.
  change (2 ^ 31) with 2147483648.
  intros H. rewrite Z.mod_small by lia. lia.
Qed.

Lemma to_int64_eq z :
  to_int64 z = (z + 9223372036854775808) mod 18446744073709551616 - 9223372036854775808.
Proof. reflexivity. Qed.

Lemma to_int64_range z : in_int64 (to_int64 z).
Proof.
  unfold in_int64. rewrite to_int64_eq, pow2_63.
  pose proof (Z.mod_pos_bound (z + 9223372036854775808) 18446744073709551616).
  lia.
Qed.

Lemma to_int64_mod z : to_int64 z mod 2 ^ 64 = z mod 2 ^ 64.
Proof.
  rewrite to_int64_eq, pow2_64.
  Z.div_mod_to_equations. lia.
Qed.

Lemma mod_add_cancel a b c :
  (a + c) mod 2 ^ 64 = (b + c) mod 2 ^ 64 -> a mod 2 ^ 64 = b mod 2 ^ 64.
Proof.
  rewrite pow2_64. Z.div_mod_to_equations. lia.
Qed.

Lemma to_int64_cong a b : to_int64 a = to_int64 b -> a mod 2 ^ 64 = b mod 2 ^ 64.
Proof.
  intros H. rewrite <- (to_int64_mod a), <- (to_int64_mod b). now rewrite H.
Qed.

Lemma testbit_mod64 a b i :
  a mod 2 ^ 64 = b mod 2 ^ 64 -> 0 <= i < 64 -> Z.testbit a i = Z.testbit b i.
Proof.
  intros H Hi.
  rewrite <- (Z.mod_pow2_bits_low a 64 i), <- (Z.mod_pow2_bits_low b 64 i) by lia.
  now rewrite H.
Qed.

Lemma testbit_to_int64 z i : 0 <= i < 64 -> Z.testbit (to_int64 z) i = Z.testbit z i.
Proof. intros Hi. apply testbit_mod64; [apply to_int64_mod | exact Hi]. Qed.

Lemma testbit_below_pow2 a i : 0 <= i -> 0 <= a < 2 ^ i -> Z.testbit a i = false.
Proof.
  intros Hi Ha. apply Z.testbit_false; [exact Hi |].
  rewrite Z.div_small by exact Ha. reflexivity.
Qed.

(** Above bit 62 a 64-bit signed value repeats its sign. *)
Lemma testbit_sign v i : in_int64 v -> 63 <= i -> Z.testbit v i = (v <? 0).
Proof.
  unfold in_int64. intros Hv Hi.
  assert (Hp : 2 ^ 63 <= 2 ^ i) by (apply Z.pow_le_mono_r; lia).
  destruct (Z.ltb_spec v 0) as [Hneg | Hpos].
  - replace v with (- (- v)) by lia.
    rewrite Z.bits_opp by lia.
    rewrite testbit_below_pow2 by lia. reflexivity.
  - apply testbit_below_pow2; lia.
Qed.

(** ** The character update *)

Lemma hash_update_mix v c : hash_update v c = to_int64 (mix v + c).
Proof. reflexivity. Qed.

Lemma hash_update_range v c : in_int64 (hash_update v c).
Proof. apply to_int64_range. Qed.

Lemma mix_testbit v i :
  0 <= i < 64 ->
  Z.testbit (mix v) i = xorb (Z.testbit v (i - 8)) (Z.testbit v (i + 55)).
Proof.
  intros Hi. unfold mix.
  rewrite Z.lxor_spec, testbit_to_int64, Z.shiftl_spec, Z.shiftr_spec by lia.
  reflexivity.
Qed.

(** The state transformation of one update loses nothing: two states that
    agree after an update with the same character were equal. *)
Lemma hash_update_inj_state v1 v2 c :
  in_int64 v1 -> in_int64 v2 -> hash_update v1 c = hash_update v2 c -> v1 = v2.
Proof.
  intros H1 H2 Heq.
  rewrite !hash_update_mix in Heq.
  apply to_int64_cong, mod_add_cancel in Heq.
  assert (Hbit : forall i, 0 <= i < 64 ->
            xorb (Z.testbit v1 (i - 8)) (Z.testbit v1 (i + 55))
            = xorb (Z.testbit v2 (i - 8)) (Z.testbit v2 (i + 55))).
  { intros i Hi. rewrite <- !mix_testbit by exact Hi.
    now apply testbit_mod64. }
  (* bits 55..62 *)
  assert (Hhigh : forall n, 55 <= n < 63 -> Z.testbit v1 n = Z.testbit v2 n).
  { intros n Hn. specialize (Hbit (n - 55) ltac:(lia)).
    rewrite !(Z.testbit_neg_r _ (n - 55 - 8)) in Hbit by lia.
    replace (n - 55 + 55) with n in Hbit by lia. exact Hbit. }
  (* the sign *)
  assert (Hsign : (v1 <? 0) = (v2 <? 0)).
  { specialize (Hbit 63 ltac:(lia)).
    rewrite (testbit_sign v1 (63 + 55)), (testbit_sign v2 (63 + 55)) in Hbit
      by (assumption || lia).
    replace (63 - 8) with 55 in Hbit by lia.
    rewrite (Hhigh 55) in Hbit by lia.
    destruct (Z.testbit v2 55), (v1 <? 0), (v2 <? 0); simpl in Hbit; congruence. }
  (* bits 0..54 *)
  assert (Hlow : forall n, 0 <= n < 55 -> Z.testbit v1 n = Z.testbit v2 n).
  { intros n Hn. specialize (Hbit (n + 8) ltac:(lia)).
    rewrite (testbit_sign v1 (n + 8 + 55)), (testbit_sign v2 (n + 8 + 55)) in Hbit
      by (assumption || lia).
    replace (n + 8 - 8) with n in Hbit by lia.
    rewrite Hsign in Hbit.
    destruct (Z.testbit v1 n), (Z.testbit v2 n), (v2 <? 0); simpl in Hbit;
      congruence. }
  apply Z.bits_inj'. intros n Hn.
  destruct (Z_lt_le_dec n 55); [apply Hlow; lia |].
  destruct (Z_lt_le_dec n 63); [apply Hhigh; lia |].
  rewrite !testbit_sign by (assumption || lia). exact Hsign.
Qed.

Lemma mod64_of_testbit a b :
  (forall i, 0 <= i < 64 -> Z.testbit a i = Z.testbit b i) ->
  a mod 2 ^ 64 = b mod 2 ^ 64.
Proof.
  intros H. apply Z.bits_inj'. intros n Hn.
  destruct (Z_lt_le_dec n 64).
  - rewrite !Z.mod_pow2_bits_low by lia. apply H. lia.
  - rewrite !Z.mod_pow2_bits_high by lia. reflexivity.
Qed.

Lemma mod_add_compat a b c :
  a mod 2 ^ 64 = b mod 2 ^ 64 -> (a + c) mod 2 ^ 64 = (b + c) mod 2 ^ 64.
Proof.
  intros H. rewrite (Z.add_mod a), (Z.add_mod b), H by (rewrite pow2_64; lia).
  reflexivity.
Qed.

(** The update is the wrapped sum of the mixed state and the character,
    where the right shift is the division rounding down. *)
Lemma hash_update_mod v c :
  hash_update v c mod 2 ^ 64 = (Z.lxor (v * 2 ^ 8) (v / 2 ^ 55) + c) mod 2 ^ 64.
Proof.
  rewrite hash_update_mix, to_int64_mod.
  apply mod_add_compat, mod64_of_testbit. intros i Hi.
  rewrite mix_testbit by exact Hi.
  rewrite <- Z.shiftl_mul_pow2, <- Z.shiftr_div_pow2 by lia.
  rewrite Z.lxor_spec, Z.shiftl_spec, Z.shiftr_spec by lia.
  reflexivity.
Qed.

(** The logical shift gives the same update exactly on the states that
    are not negative. *)
Lemma hash_update_logical_iff v c :
  in_int64 v -> (hash_update v c = hash_update_logical v c <-> 0 <= v).
Proof.
  intros Hv. split.
  - intros Heq.
    destruct (Z_lt_le_dec v 0) as [Hneg | Hpos]; [exfalso | exact Hpos].
    unfold hash_update, hash_update_logical in Heq.
    apply to_int64_cong, mod_add_cancel in Heq.
    pose proof (testbit_mod64 _ _ 9 Heq ltac:(lia)) as Hbit.
    rewrite !Z.lxor_spec, !Z.shiftr_spec in Hbit by lia.
    rewrite (testbit_sign v (9 + 55)) in Hbit by (assumption || lia).
    rewrite Z.mod_pow2_bits_high in Hbit by lia.
    apply Z.ltb_lt in Hneg. rewrite Hneg in Hbit.
    destruct (Z.testbit (to_int64 (Z.shiftl v 8)) 9); discriminate.
  - intros Hpos. unfold hash_update, hash_update_logical.
    rewrite (Z.mod_small v) by (unfold in_int64 in Hv; lia).
    reflexivity.
Qed.

Lemma hash_string_loop_fold s : forall v,
  hash_string_loop v s = fold_left hash_update (map char_of_ascii (list_ascii_of_string s)) v.
Proof.
  induction s as [| c s IH]; intros v; simpl.
  - reflexivity.
  - apply IH.
Qed.

Lemma hash_string_update_feed v s :
  hash_string_update v s = rolling_hash v (string_feed s).
Proof.
  unfold hash_string_update, rolling_hash, string_feed. simpl.
  apply hash_string_loop_fold.
Qed.

(** C2 (as amended): for a signed 64-bit state [v], one character update
    yields ((v << 8) xor (v >> 55)) + c wrapped to 64 bits, where [>>] is the
    arithmetic (sign-propagating) right shift; the unsigned shift [>>>]
    gives the same value exactly when [v] is not negative.  One string
    update performs a character update with the byte length of the string
    (as a char) and then one with each byte, in order. *)
Theorem C2_hash_update_arithmetic_shift (v c : Z) (s : string) :
  in_int64 v -> in_char c ->
  in_int64 (hash_update v c)
  /\ hash_update v c mod 2 ^ 64 = (Z.lxor (v * 2 ^ 8) (v / 2 ^ 55) + c) mod 2 ^ 64
  /\ (hash_update v c = hash_update_logical v c <-> 0 <= v)
  /\ hash_string_update v s
     = fold_left hash_update (map char_of_ascii (list_ascii_of_string s))
         (hash_update v (to_char (Z.of_nat (String.length s)))).
Proof.
  intros Hv Hc. repeat split.
  - apply hash_update_range.
  - apply hash_update_range.
  - apply hash_update_mod.
  - apply hash_update_logical_iff; exact Hv.
  - apply hash_update_logical_iff; exact Hv.
  - apply hash_string_loop_fold.
Qed.

Lemma C2_hash_update_arithmetic_shift_witness :
  in_int64 (-8690466096840216723) /\ in_char 111
  /\ hash_update (-8690466096840216723) 111 mod 2 ^ 64
     = (Z.lxor (-8690466096840216723 * 2 ^ 8) (-8690466096840216723 / 2 ^ 55) + 111)
       mod 2 ^ 64.
Proof.
  assert (Hv : in_int64 (-8690466096840216723)) by (unfold in_int64; lia).
  assert (Hc : in_char 111) by (unfold in_char; lia).
  split; [exact Hv | split; [exact Hc |]].
  exact (proj1 (proj2 (C2_hash_update_arithmetic_shift _ _ "Color" Hv Hc))).
Defined.

(** C2 (as stated) fails: on the way through the name of [enum Color] the
    state is negative, and the next update differs from the one computed
    with the unsigned shift. *)
Lemma C2_counterexample :
  hash_string_loop (hash_update 2271560481 5) "Col" = -8690466096840216723
  /\ hash_update (-8690466096840216723) 111 = -7296712127760264579
  /\ hash_update_logical (-8690466096840216723) 111 = 7296712127760264317
  /\ hash_update (-8690466096840216723) 111
     <> hash_update_logical (-8690466096840216723) 111.
Proof. repeat split; try (vm_compute; reflexivity). vm_compute. discriminate. Qed.

(** ** The struct and enum fingerprints as rolling hashes *)

Lemma for_loop_fold {A S : Type} (d : A) (f : A -> S -> S) (l : list A) :
  forall (pre : list A) (v : S),
    for_loop (List.length l) (List.length pre)
      (fun i v => f (g_ptr_array_index d (pre ++ l) i) v) v
    = fold_left (fun v x => f x v) l v.
Proof.
  unfold g_ptr_array_index.
  induction l as [| x l IH]; intros pre v; simpl.
  - reflexivity.
  - rewrite nth_middle.
    specialize (IH (pre ++ [x]) (f x v)).
    rewrite length_app, Nat.add_comm in IH. simpl in IH.
    rewrite <- app_assoc in IH. simpl in IH.
    exact IH.
Qed.

Lemma for_loop_ext {S : Type} (body1 body2 : nat -> S -> S) :
  (forall i v, body1 i v = body2 i v) ->
  forall n i v, for_loop n i body1 v = for_loop n i body2 v.
Proof.
  intros Hext n. induction n as [| n IH]; intros i v; simpl.
  - reflexivity.
  - rewrite Hext. apply IH.
Qed.

Lemma for_loop_fold_0 {A S : Type} (d : A) (f : A -> S -> S) (l : list A) (v : S) :
  for_loop (List.length l) 0 (fun i v => f (g_ptr_array_index d l i) v) v
  = fold_left (fun v x => f x v) l v.
Proof. exact (for_loop_fold d f l [] v). Qed.

Lemma rolling_hash_app seed f1 f2 :
  rolling_hash seed (f1 ++ f2) = rolling_hash (rolling_hash seed f1) f2.
Proof. apply fold_left_app. Qed.

Lemma to_char_mode_ordinal m : to_char (mode_ordinal m) = mode_ordinal m.
Proof. destruct m; reflexivity. Qed.

Lemma dimensions_fold_feed ds : forall v,
  fold_left
    (fun v dim =>
       hash_string_update (hash_update v (to_char (mode_ordinal (mode dim)))) (size dim))
    ds v
  = rolling_hash v (flat_map dimension_feed ds).
Proof.
  induction ds as [| d ds IH]; intros v; simpl.
  - reflexivity.
  - rewrite IH, rolling_hash_app, hash_string_update_feed, to_char_mode_ordinal.
    reflexivity.
Qed.

Lemma member_fold_feed (lm : lcm_member_t) (v : Z) :
  (let v := hash_string_update v (membername lm) in
   let v :=
     if lcm_is_primitive_type (typename (type lm))
     then hash_string_update v (typename (type lm))
     else v in
   let ndim := g_ptr_array_size (dimensions lm) in
   let v := hash_update v (to_char (Z.of_nat ndim)) in
   for_loop ndim 0
     (fun j v =>
        let dim := g_ptr_array_index no_dimension (dimensions lm) j in
        let v := hash_update v (to_char (mode_ordinal (mode dim))) in
        hash_string_update v (size dim))
     v)
  = rolling_hash v (member_feed lm).
Proof.
  cbv zeta. unfold g_ptr_array_size.
  rewrite (for_loop_fold_0 no_dimension
             (fun dim v =>
                hash_string_update (hash_update v (to_char (mode_ordinal (mode dim))))
                  (size dim))).
  rewrite dimensions_fold_feed.
  unfold member_feed. rewrite !rolling_hash_app, !hash_string_update_feed.
  destruct (lcm_is_primitive_type (typename (type lm))); reflexivity.
Qed.

Lemma members_fold_feed ms : forall v,
  fold_left (fun v lm => rolling_hash v (member_feed lm)) ms v
  = rolling_hash v (struct_feed ms).
Proof.
  unfold struct_feed.
  induction ms as [| m ms IH]; intros v; cbn [fold_left flat_map].
  - reflexivity.
  - rewrite IH, rolling_hash_app. reflexivity.
Qed.

(** The index loops of [lcm_struct_hash] feed exactly [struct_feed]. *)
Lemma lcm_struct_hash_feed lr :
  lcm_struct_hash lr = rolling_hash 305419896 (struct_feed (members lr)).
Proof.
  unfold lcm_struct_hash. cbv zeta. unfold g_ptr_array_size at 1.
  rewrite <- members_fold_feed.
  rewrite <- (for_loop_fold_0 lcm_member_create
                (fun lm v => rolling_hash v (member_feed lm))).
  apply for_loop_ext. intros i v.
  exact (member_fold_feed (g_ptr_array_index lcm_member_create (members lr) i) v).
Qed.

(** ** Reasoning about the parser monad *)

Lemma bind_Ok {A B} (m : M A) (f : A -> M B) s b s2 :
  bind m f s = Ok b s2 -> exists a s1, m s = Ok a s1 /\ f a s1 = Ok b s2.
Proof.
  unfold bind. destruct (m s) as [a s1 | d s1 |]; intros H; try discriminate.
  exists a, s1. split; [reflexivity | exact H].
Qed.

Lemma bind_Exit {A B} (m : M A) (f : A -> M B) s d s2 :
  bind m f s = Exit d s2 ->
  m s = Exit d s2 \/ exists a s1, m s = Ok a s1 /\ f a s1 = Exit d s2.
Proof.
  unfold bind. destruct (m s) as [a s1 | d1 s1 |]; intros H; try discriminate.
  - right. exists a, s1. split; [reflexivity | exact H].
  - left. injection H as -> ->. reflexivity.
Qed.

Lemma bind_of_Ok {A B} (m : M A) (f : A -> M B) s a s1 :
  m s = Ok a s1 -> bind m f s = f a s1.
Proof. unfold bind. intros ->. reflexivity. Qed.

Lemma keeps_weaken {A} (m : M A) s : keeps true m s -> keeps false m s.
Proof.
  unfold keeps. destruct (m s); auto. intros [H1 H2]. split; [exact H1 | lia].
Qed.

Lemma keeps_ret {A} (a : A) s : keeps false (ret a) s.
Proof. unfold keeps, ret. split; [reflexivity | lia]. Qed.

Lemma keeps_parse_error {A} b fmt args s : keeps b (@parse_error A fmt args) s.
Proof. reflexivity. Qed.

Lemma keeps_semantic_error {A} b fmt args s : keeps b (@semantic_error A fmt args) s.
Proof. reflexivity. Qed.

Lemma keeps_bind_le {A B} b (m : M A) (f : A -> M B) s :
  keeps false m s ->
  (forall a s1, m s = Ok a s1 -> lcmgen s1 = lcmgen s ->
                (remaining s1 <= remaining s)%nat -> keeps b (f a) s1) ->
  keeps b (bind m f) s.
Proof.
  unfold keeps at 1 3, bind. destruct (m s) as [a s1 | d s1 |]; auto.
  intros [Hreg Hrem] Hf. specialize (Hf a s1 eq_refl Hreg Hrem).
  unfold keeps in Hf. destruct (f a s1) as [b' s2 | d s2 |]; auto.
  - destruct Hf as [Hreg2 Hrem2]. split; [congruence |].
    destruct b; lia.
  - congruence.
Qed.

Lemma keeps_bind_lt {A B} b (m : M A) (f : A -> M B) s :
  keeps true m s ->
  (forall a s1, m s = Ok a s1 -> lcmgen s1 = lcmgen s ->
                (remaining s1 < remaining s)%nat -> keeps false (f a) s1) ->
  keeps b (bind m f) s.
Proof.
  unfold keeps at 1 3, bind. destruct (m s) as [a s1 | d s1 |]; auto.
  intros [Hreg Hrem] Hf. specialize (Hf a s1 eq_refl Hreg Hrem).
  unfold keeps in Hf. destruct (f a s1) as [b' s2 | d s2 |]; auto.
  - destruct Hf as [Hreg2 Hrem2]. split; [congruence |].
    destruct b; lia.
  - congruence.
Qed.

Lemma keeps_when c (m : M unit) s :
  (c = true -> keeps false m s) -> keeps false (when c m) s.
Proof. destruct c; simpl; intros H; [auto | apply keeps_ret]. Qed.

Lemma keeps_with_fuel {A} b (loop : nat -> M A) s :
  keeps b (loop (S (remaining s))) s -> keeps b (with_fuel loop) s.
Proof. auto. Qed.

Lemma keeps_cur_token s : keeps false cur_token s.
Proof. unfold keeps, cur_token. split; [reflexivity | lia]. Qed.

Lemma keeps_next s : keeps false next s.
Proof.
  unfold keeps, next, tokenize_next, remaining.
  destruct (pending (tok s)) eqn:E; simpl; rewrite ?E; split;
    (reflexivity || simpl; lia).
Qed.

Lemma keeps_peek s : keeps false peek s.
Proof.
  unfold keeps, peek, tokenize_peek, remaining.
  destruct (pending (tok s)) eqn:E; simpl; rewrite ?E; split; (reflexivity || simpl; lia).
Qed.

Lemma keeps_require_next description s : keeps true (require_next description) s.
Proof.
  unfold keeps, require_next, bind, next, tokenize_next, remaining.
  destruct (pending (tok s)); simpl; [reflexivity |].
  split; [reflexivity | lia].
Qed.

Lemma keeps_parse_require tk s : keeps true (parse_require tk) s.
Proof.
  unfold keeps, parse_require, bind, next, cur_token, tokenize_next, remaining.
  destruct (pending (tok s)) as [| x rest]; simpl; [reflexivity |].
  destruct (String.eqb x tk); simpl; [| reflexivity].
  split; [reflexivity | lia].
Qed.

Lemma keeps_parse_try_consume tk s : keeps false (parse_try_consume tk) s.
Proof.
  unfold keeps, parse_try_consume, bind, peek, next, cur_token, tokenize_peek,
    tokenize_next, remaining.
  destruct (pending (tok s)) as [| x rest] eqn:E; simpl; [reflexivity |].
  destruct (String.eqb x tk); simpl; (split; [reflexivity | lia]).
Qed.

Create HintDb keeps.

#[local] Hint Resolve keeps_ret keeps_cur_token keeps_next keeps_peek
  keeps_require_next keeps_parse_require keeps_parse_try_consume
  keeps_parse_error keeps_semantic_error : keeps.

(* one step through a sequence of parser actions *)
Ltac keeps_step :=
  lazymatch goal with
  | |- keeps _ (bind (require_next _) _) _ =>
      apply keeps_bind_lt; [apply keeps_require_next | intros ? ? _ ? ?]
  | |- keeps _ (bind (parse_require _) _) _ =>
      apply keeps_bind_lt; [apply keeps_parse_require | intros ? ? _ ? ?]
  | |- keeps false (bind (when _ _) _) _ =>
      apply keeps_bind_le;
      [apply keeps_when; intros _; auto with keeps | intros ? ? _ ? ?]
  | |- keeps false (bind (with_fuel _) _) _ =>
      apply keeps_bind_le; [apply keeps_with_fuel | intros ? ? _ ? ?]
  | |- keeps false (bind _ _) _ =>
      apply keeps_bind_le; [| intros ? ? _ ? ?]
  | |- keeps false (when _ _) _ => apply keeps_when; intros _; auto with keeps
  | |- keeps false (if ?c then _ else _) _ => destruct c
  | |- keeps false (ret _) _ => apply keeps_ret
  | |- keeps _ (parse_error _ _) _ => apply keeps_parse_error
  | |- keeps _ (semantic_error _ _) _ => apply keeps_semantic_error
  | |- keeps false (parse_try_consume _) _ => apply keeps_parse_try_consume
  | |- keeps false cur_token _ => apply keeps_cur_token
  | |- keeps false _ _ => solve [auto with keeps]
  end.

(** ** The parser ends, consumes its input and leaves the registry alone *)

Lemma keeps_find_array_index ms tkn s : keeps false (find_array_index ms tkn) s.
Proof.
  induction ms as [| thislm ms IH]; simpl.
  - apply keeps_ret.
  - destruct (String.eqb (membername thislm) tkn); [| exact IH].
    repeat keeps_step.
Qed.

#[local] Hint Resolve keeps_find_array_index : keeps.

Lemma keeps_parse_dimension lr s : keeps false (parse_dimension lr) s.
Proof. unfold parse_dimension. repeat keeps_step. Qed.

#[local] Hint Resolve keeps_parse_dimension : keeps.

Lemma keeps_parse_dimensions_loop lmi fuel : forall lr s,
  (remaining s < fuel)%nat -> keeps false (parse_dimensions_loop lmi fuel lr) s.
Proof.
  induction fuel as [| fuel IH]; intros lr s Hfuel; [lia |].
  cbn [parse_dimensions_loop]. repeat keeps_step.
  apply IH. lia.
Qed.

Lemma keeps_parse_member_names_loop lt fuel : forall lr s,
  (remaining s < fuel)%nat -> keeps true (parse_member_names_loop lt fuel lr) s.
Proof.
  induction fuel as [| fuel IH]; intros lr s Hfuel; [lia |].
  cbn [parse_member_names_loop]. repeat keeps_step.
  - apply keeps_parse_dimensions_loop. lia.
  - apply keeps_weaken, IH. lia.
Qed.

Lemma keeps_parse_member lr s : keeps true (parse_member lr) s.
Proof.
  unfold parse_member.
  assert (Hinline : forall s,
    keeps false
      (is_struct <- parse_try_consume "struct" ;;
       if is_struct then parse_error "recursive structs not implemented." []
       else
         is_enum <- parse_try_consume "enum" ;;
         if is_enum then parse_error "recursive enums not implemented." []
         else
           is_union <- parse_try_consume "union" ;;
           when is_union (parse_error "recursive unions not implemented." [])) s).
  { intros s0. repeat keeps_step. }
  apply keeps_bind_le; [apply Hinline | intros ? ? _ ? ?].
  repeat keeps_step.
  apply keeps_weaken, keeps_parse_member_names_loop. lia.
Qed.

Lemma keeps_check_enum_duplicates vs lev s : keeps false (check_enum_duplicates vs lev) s.
Proof.
  revert s. induction vs as [| tmp vs IH]; intros s; simpl.
  - apply keeps_ret.
  - repeat keeps_step.
Qed.

#[local] Hint Resolve keeps_check_enum_duplicates : keeps.

Lemma keeps_parse_enum_value le s : keeps true (parse_enum_value le) s.
Proof. unfold parse_enum_value. repeat keeps_step. Qed.

Lemma keeps_parse_struct_body_loop fuel : forall lr s,
  (remaining s < fuel)%nat -> keeps false (parse_struct_body_loop fuel lr) s.
Proof.
  induction fuel as [| fuel IH]; intros lr s Hfuel; [lia |].
  cbn [parse_struct_body_loop].
  apply keeps_bind_le; [apply keeps_parse_try_consume | intros closed s1 _ _ Hrem].
  destruct closed; [apply keeps_ret |].
  apply keeps_bind_lt; [apply keeps_parse_member | intros lr' s2 _ _ Hrem2].
  apply IH. lia.
Qed.

Lemma keeps_parse_enum_body_loop fuel : forall le s,
  (remaining s < fuel)%nat -> keeps false (parse_enum_body_loop fuel le) s.
Proof.
  induction fuel as [| fuel IH]; intros le s Hfuel; [lia |].
  cbn [parse_enum_body_loop].
  apply keeps_bind_le; [apply keeps_parse_try_consume | intros closed s1 _ _ Hrem].
  destruct closed; [apply keeps_ret |].
  apply keeps_bind_lt; [apply keeps_parse_enum_value | intros le' s2 _ _ Hrem2].
  repeat keeps_step.
  apply IH. lia.
Qed.

Lemma keeps_parse_struct lcmfile s : keeps true (parse_struct lcmfile) s.
Proof.
  unfold parse_struct. repeat keeps_step.
  apply keeps_parse_struct_body_loop. lia.
Qed.

Lemma keeps_parse_enum lcmfile s : keeps true (parse_enum lcmfile) s.
Proof.
  unfold parse_enum. repeat keeps_step.
  apply keeps_parse_enum_body_loop. lia.
Qed.

(** ** A change of one fed character always shows in the hash *)

Lemma hash_update_inj_char v c1 c2 :
  in_char c1 -> in_char c2 -> hash_update v c1 = hash_update v c2 -> c1 = c2.
Proof.
  unfold in_char. intros H1 H2 Heq.
  rewrite !hash_update_mix in Heq. apply to_int64_cong in Heq.
  rewrite pow2_64 in Heq. revert Heq.
  Z.div_mod_to_equations. lia.
Qed.

Lemma rolling_hash_inj feed : forall v1 v2,
  in_int64 v1 -> in_int64 v2 ->
  rolling_hash v1 feed = rolling_hash v2 feed -> v1 = v2.
Proof.
  induction feed as [| c feed IH]; intros v1 v2 H1 H2 Heq; simpl in Heq.
  - exact Heq.
  - apply IH in Heq; try apply hash_update_range.
    now apply hash_update_inj_state in Heq.
Qed.

Lemma rolling_hash_range v feed : in_int64 v -> in_int64 (rolling_hash v feed).
Proof.
  revert v. induction feed as [| c feed IH]; intros v Hv; simpl.
  - exact Hv.
  - apply IH, hash_update_range.
Qed.

Lemma rolling_hash_single_change v p c1 c2 q :
  in_int64 v -> in_char c1 -> in_char c2 -> c1 <> c2 ->
  rolling_hash v (p ++ c1 :: q) <> rolling_hash v (p ++ c2 :: q).
Proof.
  intros Hv H1 H2 Hne Heq.
  rewrite !rolling_hash_app in Heq. simpl in Heq.
  apply rolling_hash_inj in Heq; try apply hash_update_range.
  apply hash_update_inj_char in Heq; auto.
Qed.

Lemma to_char_eq z : to_char z = (z + 128) mod 256 - 128.
Proof. reflexivity. Qed.

Lemma to_char_range z : in_char (to_char z).
Proof.
  unfold in_char. rewrite to_char_eq.
  pose proof (Z.mod_pos_bound (z + 128) 256). lia.
Qed.

Lemma char_of_ascii_range a : in_char (char_of_ascii a).
Proof. apply to_char_range. Qed.

Lemma char_of_ascii_inj a b : char_of_ascii a = char_of_ascii b -> a = b.
Proof.
  unfold char_of_ascii. rewrite !to_char_eq. intros H.
  pose proof (N_ascii_bounded a) as Ha. pose proof (N_ascii_bounded b) as Hb.
  assert (Hn : N_of_ascii a = N_of_ascii b).
  { apply N2Z.inj. revert H. Z.div_mod_to_equations. lia. }
  rewrite <- (ascii_N_embedding a), <- (ascii_N_embedding b). now rewrite Hn.
Qed.

Lemma list_ascii_of_string_app p q :
  list_ascii_of_string (p ++ q)
  = list_ascii_of_string p ++ list_ascii_of_string q.
Proof. induction p as [| c p IH]; simpl; [reflexivity | now rewrite IH]. Qed.

Lemma length_append_cons p c q :
  String.length (p ++ String c q) = S (String.length p + String.length q).
Proof. induction p as [| x p IH]; simpl; [reflexivity | rewrite IH; lia]. Qed.

(** The feed of a name in which the byte after the prefix [p] is [c]. *)
Lemma string_feed_byte p c q :
  string_feed (p ++ String c q)
  = (to_char (Z.of_nat (S (String.length p + String.length q)))
       :: map char_of_ascii (list_ascii_of_string p))
    ++ char_of_ascii c :: map char_of_ascii (list_ascii_of_string q).
Proof.
  unfold string_feed.
  rewrite length_append_cons, list_ascii_of_string_app, map_app. reflexivity.
Qed.

(** Two names that differ in exactly one byte never share a hash. *)
Lemma hash_string_update_one_byte v p c1 c2 q :
  in_int64 v -> c1 <> c2 ->
  hash_string_update v (p ++ String c1 q) <> hash_string_update v (p ++ String c2 q).
Proof.
  intros Hv Hne. rewrite !hash_string_update_feed, !string_feed_byte.
  apply rolling_hash_single_change; auto using char_of_ascii_range.
  intros H. apply Hne, char_of_ascii_inj, H.
Qed.

(** ** The name of a struct or enum does not steer its parse *)

Lemma same_outcome_bind {A} (m : M A) (f1 f2 : A -> M lcm_struct_t) s :
  (forall a s', m s = Ok a s' -> same_outcome (f1 a s') (f2 a s')) ->
  same_outcome (bind m f1 s) (bind m f2 s).
Proof.
  unfold bind. destruct (m s) as [a s' | d s' |]; intros H; simpl; auto.
Qed.

Lemma same_outcome_bind_eq {A} (m1 m2 : M A) (f1 f2 : A -> M lcm_struct_t) s :
  m1 s = m2 s ->
  (forall a s', same_outcome (f1 a s') (f2 a s')) ->
  same_outcome (bind m1 f1 s) (bind m2 f2 s).
Proof.
  unfold bind. intros <-. destruct (m1 s) as [a s' | d s' |]; intros H; simpl; auto.
Qed.

Lemma same_outcome_bind_struct (m1 m2 : M lcm_struct_t)
    (f1 f2 : lcm_struct_t -> M lcm_struct_t) s :
  same_outcome (m1 s) (m2 s) ->
  (forall a b s', members a = members b -> same_outcome (f1 a s') (f2 b s')) ->
  same_outcome (bind m1 f1 s) (bind m2 f2 s).
Proof.
  unfold bind. destruct (m1 s), (m2 s); simpl; try tauto.
  intros [Hm <-] Hf. apply Hf, Hm.
Qed.

Lemma same_outcome_ret a b s : members a = members b -> same_outcome (ret a s) (ret b s).
Proof. simpl. auto. Qed.

Lemma parse_dimension_members lr lr' s :
  members lr = members lr' -> parse_dimension lr s = parse_dimension lr' s.
Proof. intros Hm. unfold parse_dimension. rewrite Hm. reflexivity. Qed.

Lemma parse_dimensions_loop_members lmi fuel : forall lr lr' s,
  members lr = members lr' ->
  same_outcome (parse_dimensions_loop lmi fuel lr s) (parse_dimensions_loop lmi fuel lr' s).
Proof.
  induction fuel as [| fuel IH]; intros lr lr' s Hm; [exact I |].
  cbn [parse_dimensions_loop].
  apply same_outcome_bind. intros more s1 _.
  destruct more; [| apply same_outcome_ret, Hm].
  apply same_outcome_bind. intros _ s2 _.
  apply same_outcome_bind_eq; [apply parse_dimension_members, Hm |].
  intros dim s3.
  apply same_outcome_bind. intros _ s4 _.
  apply IH. simpl. rewrite Hm. reflexivity.
Qed.

Lemma parse_member_names_loop_members lt fuel : forall lr lr' s,
  members lr = members lr' ->
  same_outcome (parse_member_names_loop lt fuel lr s)
               (parse_member_names_loop lt fuel lr' s).
Proof.
  induction fuel as [| fuel IH]; intros lr lr' s Hm; [exact I |].
  cbn [parse_member_names_loop].
  apply same_outcome_bind. intros _ s1 _.
  apply same_outcome_bind. intros tkn s2 _.
  apply same_outcome_bind. intros _ s3 _.
  unfold lcm_find_member. rewrite Hm.
  apply same_outcome_bind. intros _ s4 _.
  apply same_outcome_bind_struct.
  - unfold with_fuel. apply parse_dimensions_loop_members. reflexivity.
  - intros a b s5 Hab.
    apply same_outcome_bind. intros more s6 _.
    destruct more; [apply IH, Hab | apply same_outcome_ret, Hab].
Qed.

Lemma parse_member_members lr lr' s :
  members lr = members lr' -> same_outcome (parse_member lr s) (parse_member lr' s).
Proof.
  intros Hm. unfold parse_member.
  apply same_outcome_bind. intros _ s1 _.
  apply same_outcome_bind. intros _ s2 _.
  apply same_outcome_bind. intros tkn s3 _.
  apply same_outcome_bind. intros _ s4 _.
  apply same_outcome_bind_struct.
  - unfold with_fuel. apply parse_member_names_loop_members, Hm.
  - intros a b s5 Hab.
    apply same_outcome_bind. intros _ s6 _.
    apply same_outcome_ret, Hab.
Qed.

Lemma parse_struct_body_loop_members fuel : forall lr lr' s,
  members lr = members lr' ->
  same_outcome (parse_struct_body_loop fuel lr s) (parse_struct_body_loop fuel lr' s).
Proof.
  induction fuel as [| fuel IH]; intros lr lr' s Hm; [exact I |].
  cbn [parse_struct_body_loop].
  apply same_outcome_bind. intros closed s1 _.
  destruct closed; [apply same_outcome_ret, Hm |].
  apply same_outcome_bind_struct.
  - apply parse_member_members, Hm.
  - intros a b s2 Hab. apply IH, Hab.
Qed.

(** Renaming a struct in the source, and nothing else, leaves its parse
    and its hash as they were. *)
Lemma parse_struct_renamed lcmfile g tk name name' body lr s' :
  parse_struct lcmfile (state_of g tk (name :: body)) = Ok lr s' ->
  exists lr',
    parse_struct lcmfile (state_of g tk (name' :: body)) = Ok lr' s'
    /\ members lr' = members lr
    /\ struct_hash lr' = struct_hash lr.
Proof.
  unfold parse_struct. intros H.
  unfold bind at 1 in H. unfold bind at 1.
  unfold require_next, bind, next, tokenize_next, cur_token in H |- *.
  cbn [state_of tok pending lcmgen token] in H |- *.
  simpl in H |- *.
  unfold parse_require, bind, next, tokenize_next, cur_token in H |- *.
  cbn [tok pending lcmgen token] in H |- *.
  destruct body as [| x rest]; [discriminate |].
  cbn [tok pending lcmgen token] in H |- *.
  destruct (String.eqb x "{"); simpl in H |- *; [| discriminate].
  unfold with_fuel in H |- *.
  set (st := {| lcmgen := g; tok := {| token := x; pending := rest |} |}) in *.
  set (fuel := S (remaining st)) in *.
  pose proof (parse_struct_body_loop_members fuel
                (lcm_struct_create lcmfile name) (lcm_struct_create lcmfile name')
                st eq_refl) as Hsame.
  destruct (parse_struct_body_loop fuel (lcm_struct_create lcmfile name) st)
    as [a sa | |]; try discriminate.
  destruct (parse_struct_body_loop fuel (lcm_struct_create lcmfile name') st)
    as [b sb | |]; simpl in Hsame; try tauto.
  destruct Hsame as [Hm <-]. unfold ret in H |- *. injection H as <- <-.
  eexists. split; [reflexivity |].
  cbn [members struct_hash set_struct_hash]. split; [auto |].
  rewrite !lcm_struct_hash_feed. now rewrite Hm.
Qed.

Lemma typename_lcm_typename_create name : typename (lcm_typename_create name) = name.
Proof.
  unfold lcm_typename_create. destruct (split_last_dot name) as [[p sh] |]; reflexivity.
Qed.

Lemma parse_enum_value_enumname le s le' s' :
  parse_enum_value le s = Ok le' s' -> enumname le' = enumname le.
Proof.
  unfold parse_enum_value. intros H.
  apply bind_Ok in H as (? & ? & _ & H).
  apply bind_Ok in H as (? & ? & _ & H).
  apply bind_Ok in H as (? & ? & _ & H).
  apply bind_Ok in H as (? & ? & _ & H).
  apply bind_Ok in H as (? & ? & _ & H).
  unfold ret in H. injection H as <- _. reflexivity.
Qed.

Lemma parse_enum_body_loop_enumname fuel : forall le s le' s',
  parse_enum_body_loop fuel le s = Ok le' s' -> enumname le' = enumname le.
Proof.
  induction fuel as [| fuel IH]; intros le s le' s' H; [discriminate |].
  cbn [parse_enum_body_loop] in H.
  apply bind_Ok in H as (closed & s1 & _ & H).
  destruct closed.
  - unfold ret in H. injection H as <- _. reflexivity.
  - apply bind_Ok in H as (le1 & s2 & Hv & H).
    apply bind_Ok in H as (? & ? & _ & H).
    apply bind_Ok in H as (? & ? & _ & H).
    apply IH in H. rewrite H. exact (parse_enum_value_enumname _ _ _ _ Hv).
Qed.

(** The qualified name of a parsed enum is the token that follows [enum]. *)
Lemma parse_enum_name lcmfile s le s' :
  parse_enum lcmfile s = Ok le s' ->
  exists rest, pending (tok s) = typename (enumname le) :: rest.
Proof.
  unfold parse_enum. intros H.
  apply bind_Ok in H as (? & s1 & Hnext & H).
  apply bind_Ok in H as (name & s2 & Hname & H).
  apply bind_Ok in H as (? & s3 & _ & H).
  apply bind_Ok in H as (le0 & s4 & Hloop & H).
  unfold ret in H. injection H as <- _.
  apply parse_enum_body_loop_enumname in Hloop.
  cbn [enumname set_enum_hash]. rewrite Hloop. cbn [enumname lcm_enum_create].
  rewrite typename_lcm_typename_create.
  unfold require_next, bind, next, tokenize_next in Hnext.
  destruct (pending (tok s)) as [| first rest]; [discriminate |].
  simpl in Hnext. injection Hnext as Hs1.
  unfold cur_token in Hname. injection Hname as <- _.
  subst s1. exists rest. reflexivity.
Qed.

(** ** The stored fingerprints *)

Ltac bind_inv H :=
  let a := fresh "a" in
  let s := fresh "s" in
  let E := fresh "E" in
  apply bind_Ok in H; destruct H as (a & s & E & H).

Lemma ret_Ok {A} (a b : A) s s' : ret a s = Ok b s' -> a = b /\ s = s'.
Proof. unfold ret. intros H. injection H as -> ->. auto. Qed.

Lemma parse_struct_stores_hash lcmfile s lr s' :
  parse_struct lcmfile s = Ok lr s' -> struct_hash lr = lcm_struct_hash lr.
Proof.
  unfold parse_struct. intros H.
  do 4 bind_inv H. apply ret_Ok in H as [<- _]. reflexivity.
Qed.

Lemma parse_enum_stores_hash lcmfile s le s' :
  parse_enum lcmfile s = Ok le s' -> enum_hash le = lcm_enum_hash le.
Proof.
  unfold parse_enum. intros H.
  do 4 bind_inv H. apply ret_Ok in H as [<- _]. reflexivity.
Qed.

(** ** The feed of claim C1, written out *)

Lemma string_chars_feed s : string_chars s = string_feed s.
Proof. reflexivity. Qed.

Lemma string_in_array_existsb t ts :
  string_in_array t ts = existsb (fun p => String.eqb p t) ts.
Proof.
  induction ts as [| x ts IH]; simpl.
  - reflexivity.
  - rewrite IH. destruct (String.eqb x t); reflexivity.
Qed.

Lemma builtin_primitive_eq t : builtin_primitive t = lcm_is_primitive_type t.
Proof. unfold lcm_is_primitive_type. rewrite string_in_array_existsb. reflexivity. Qed.

Lemma member_chars_feed m : member_chars count_as_char m = member_feed m.
Proof.
  unfold member_chars, member_feed, count_as_char.
  rewrite builtin_primitive_eq, !string_chars_feed. reflexivity.
Qed.

Lemma struct_chars_feed ms : struct_chars count_as_char ms = struct_feed ms.
Proof.
  unfold struct_chars, struct_feed.
  induction ms as [| m ms IH]; cbn [flat_map].
  - reflexivity.
  - rewrite member_chars_feed, IH. reflexivity.
Qed.

Lemma count_as_stated_small n : (n < 128)%nat -> count_as_stated n = count_as_char n.
Proof.
  unfold count_as_stated, count_as_char, char_residue. intros H.
  rewrite Z.mod_small by lia. lia.
Qed.

Lemma struct_chars_few_dimensions ms :
  Forall (fun m => (List.length (dimensions m) < 128)%nat) ms ->
  struct_chars count_as_stated ms = struct_chars count_as_char ms.
Proof.
  unfold struct_chars. induction 1 as [| m ms Hm _ IH]; cbn [flat_map].
  - reflexivity.
  - rewrite IH. unfold member_chars. rewrite (count_as_stated_small _ Hm). reflexivity.
Qed.

(** C1 (as amended): the hash stored in a completed struct is the rolling
    hash that starts at 0x12345678 and is fed, for each member in
    declaration order, the member name (string update), the type name
    (string update) if and only if it is one of the nine built-in primitive
    types, the number of dimensions converted to a [char] (its residue
    modulo 256 in -128..127, one character) and, for each dimension in
    order, its mode ordinal (one character) and its size token (string
    update).  Where every member has fewer than 128 dimensions the
    conversion changes nothing and the number itself is fed.  The struct's
    own name is not fed: any struct with the same members has the same
    hash, and the same source under another struct name parses to the same
    hash. *)
Theorem C1_struct_hash_feeds_members lcmfile s lr s' :
  parse_struct lcmfile s = Ok lr s' ->
  struct_hash lr = rolling_hash 305419896 (struct_chars count_as_char (members lr))
  /\ (Forall (fun m => (List.length (dimensions m) < 128)%nat) (members lr) ->
      struct_hash lr
      = rolling_hash 305419896 (struct_chars count_as_stated (members lr)))
  /\ (forall other, members other = members lr -> lcm_struct_hash other = struct_hash lr)
  /\ (forall g tk name name' body,
        s = state_of g tk (name :: body) ->
        exists lr',
          parse_struct lcmfile (state_of g tk (name' :: body)) = Ok lr' s'
          /\ struct_hash lr' = struct_hash lr).
Proof.
  intros H. pose proof (parse_struct_stores_hash _ _ _ _ H) as Hh.
  split; [| split; [| split]].
  - rewrite Hh, struct_chars_feed. apply lcm_struct_hash_feed.
  - intros Hfew. rewrite (struct_chars_few_dimensions _ Hfew), Hh, struct_chars_feed.
    apply lcm_struct_hash_feed.
  - intros other Hm. rewrite Hh, !lcm_struct_hash_feed, Hm. reflexivity.
  - intros g tk name name' body ->.
    destruct (parse_struct_renamed _ _ _ _ name' _ _ _ H) as (lr' & Hp & _ & Hhash).
    exists lr'. auto.
Qed.

Lemma C1_struct_hash_feeds_members_witness :
  parse_struct "a.lcm" (after "struct" struct_a_tokens) = Ok struct_a (after "}" [])
  /\ struct_hash struct_a
     = rolling_hash 305419896 (struct_chars count_as_char (members struct_a))
  /\ struct_hash struct_a
     = rolling_hash 305419896 (struct_chars count_as_stated (members struct_a)).
Proof.
  assert (H : parse_struct "a.lcm" (after "struct" struct_a_tokens)
              = Ok struct_a (after "}" []))
    by (vm_compute; reflexivity).
  split; [exact H | split].
  - exact (proj1 (C1_struct_hash_feeds_members _ _ _ _ H)).
  - apply (proj1 (proj2 (C1_struct_hash_feeds_members _ _ _ _ H))).
    repeat constructor; simpl; lia.
Defined.

(** C1 (as stated) fails for a member with 128 dimensions or more:
    [struct s { float f[1]...[1]; }] with 200 dimensions stores the hash
    fed with the character -56, not the hash fed with 200. *)
Lemma C1_counterexample :
  parse_struct "s.lcm" (after "struct" many_dimensions_tokens)
  = Ok many_dimensions_struct (after "}" [])
  /\ struct_hash many_dimensions_struct = 5335903157021138478
  /\ count_as_char 200 = -56
  /\ rolling_hash 305419896 (struct_chars count_as_stated (members many_dimensions_struct))
     = 4653067360504598835
  /\ struct_hash many_dimensions_struct
     <> rolling_hash 305419896
          (struct_chars count_as_stated (members many_dimensions_struct)).
Proof.
  split; [vm_compute; reflexivity |].
  split; [reflexivity |].
  split; [reflexivity |].
  split; [vm_compute; reflexivity |].
  vm_compute. discriminate.
Qed.

(** C3 (as amended): the hash stored in a completed enum is the rolling
    hash seeded with 0x87654321 and string-updated with the enum's
    qualified name only; two enums with the same qualified name have the
    same hash whatever their values are; two enums whose qualified names
    differ in exactly one byte have different hashes (names that differ in
    more bytes can collide).  The qualified name is the token that follows
    [enum] in the source. *)
Theorem C3_enum_hash_feeds_name_only f1 s1 le1 s1' f2 s2 le2 s2' :
  parse_enum f1 s1 = Ok le1 s1' ->
  parse_enum f2 s2 = Ok le2 s2' ->
  enum_hash le1 = rolling_hash 2271560481 (string_feed (typename (enumname le1)))
  /\ (typename (enumname le1) = typename (enumname le2) -> enum_hash le1 = enum_hash le2)
  /\ (forall p c1 c2 q,
        typename (enumname le1) = (p ++ String c1 q)%string ->
        typename (enumname le2) = (p ++ String c2 q)%string ->
        c1 <> c2 -> enum_hash le1 <> enum_hash le2)
  /\ (exists rest, pending (tok s1) = typename (enumname le1) :: rest).
Proof.
  intros H1 H2.
  pose proof (parse_enum_name _ _ _ _ H1) as Hname.
  apply parse_enum_stores_hash in H1, H2. rewrite H1, H2. unfold lcm_enum_hash.
  cbv zeta. split; [| split; [| split]].
  - apply hash_string_update_feed.
  - intros ->. reflexivity.
  - intros p c1 c2 q -> -> Hne.
    apply hash_string_update_one_byte; [unfold in_int64; lia | exact Hne].
  - exact Hname.
Qed.

Lemma C3_enum_hash_feeds_name_only_witness :
  parse_enum "e.lcm" (after "enum" ["mode_type"; "{"; "}"]) = Ok enum_mode_type (after "}" [])
  /\ enum_hash enum_mode_type
     = rolling_hash 2271560481 (string_feed (typename (enumname enum_mode_type))).
Proof.
  assert (H : parse_enum "e.lcm" (after "enum" ["mode_type"; "{"; "}"])
              = Ok enum_mode_type (after "}" []))
    by (vm_compute; reflexivity).
  split; [exact H |].
  exact (proj1 (C3_enum_hash_feeds_name_only _ _ _ _ _ _ _ _ H H)).
Defined.

(** C3 (as stated) fails: [enum mode_type] and [enum node_typc] have
    different qualified names and the same hash. *)
Lemma C3_counterexample :
  parse_enum "e.lcm" (after "enum" ["mode_type"; "{"; "}"]) = Ok enum_mode_type (after "}" [])
  /\ parse_enum "e.lcm" (after "enum" ["node_typc"; "{"; "}"]) = Ok enum_node_typc (after "}" [])
  /\ typename (enumname enum_mode_type) <> typename (enumname enum_node_typc)
  /\ enum_hash enum_mode_type = enum_hash enum_node_typc.
Proof.
  repeat split; try (vm_compute; reflexivity).
  simpl. discriminate.
Qed.

(** ** Renaming members and types *)

Lemma struct_feed_member pre m post :
  struct_feed (pre ++ m :: post) = struct_feed pre ++ member_feed m ++ struct_feed post.
Proof. unfold struct_feed. rewrite flat_map_app. reflexivity. Qed.

Lemma map_char_of_ascii_inj l1 : forall l2,
  map char_of_ascii l1 = map char_of_ascii l2 -> l1 = l2.
Proof.
  induction l1 as [| a l1 IH]; intros [| b l2] H; simpl in H; try discriminate.
  - reflexivity.
  - injection H as Hab Hl. f_equal; [apply char_of_ascii_inj, Hab | apply IH, Hl].
Qed.

Lemma string_feed_inj s1 s2 : string_feed s1 = string_feed s2 -> s1 = s2.
Proof.
  unfold string_feed. intros H. injection H as _ H.
  apply map_char_of_ascii_inj in H.
  rewrite <- (string_of_list_ascii_of_string s1), <- (string_of_list_ascii_of_string s2).
  now rewrite H.
Qed.

(** C4 (as amended): what the hash leaves out for a member of compound
    type is the name of its type, not the name of the member.  Changing
    only the type name of a compound-typed member to another compound name
    does not change the struct's hash.  The member name is fed whatever
    the type is: changing one byte of the name of any member changes the
    hash (names that differ in more bytes can collide).  The type name of
    a member of primitive type is string-updated into the hash right after
    the member's name: changing it to another primitive type changes the
    characters fed, and it leaves the struct's hash unchanged exactly when
    the two type names take the hash state reached after the member's name
    to the same state. *)
Theorem C4_member_names_are_hashed lr pre m post :
  members lr = pre ++ m :: post ->
  (forall t',
      lcm_is_primitive_type (typename (type m)) = false ->
      lcm_is_primitive_type (typename t') = false ->
      lcm_struct_hash (set_members lr (pre ++ retype_member m t' :: post))
      = lcm_struct_hash lr)
  /\ (forall p c1 c2 q,
        membername m = (p ++ String c1 q)%string -> c1 <> c2 ->
        lcm_struct_hash
          (set_members lr (pre ++ rename_member m (p ++ String c2 q)%string :: post))
        <> lcm_struct_hash lr)
  /\ (forall t',
        lcm_is_primitive_type (typename (type m)) = true ->
        lcm_is_primitive_type (typename t') = true ->
        let h0 :=
          hash_string_update (lcm_struct_hash (set_members lr pre)) (membername m) in
        lcm_struct_hash (set_members lr (pre ++ retype_member m t' :: post))
        = lcm_struct_hash lr
        <-> hash_string_update h0 (typename t')
            = hash_string_update h0 (typename (type m)))
  /\ (forall t',
        lcm_is_primitive_type (typename (type m)) = true ->
        lcm_is_primitive_type (typename t') = true ->
        typename t' <> typename (type m) ->
        struct_feed (pre ++ retype_member m t' :: post) <> struct_feed (members lr)).
Proof.
  intros Hm. split; [| split; [| split]].
  - intros t' Hc Hc'. rewrite !lcm_struct_hash_feed. cbn [members set_members].
    rewrite Hm, !struct_feed_member. unfold member_feed.
    cbn [retype_member type membername dimensions].
    rewrite Hc, Hc'. reflexivity.
  - intros p c1 c2 q Hname Hne. rewrite !lcm_struct_hash_feed.
    cbn [members set_members].
    rewrite Hm, !struct_feed_member. unfold member_feed.
    cbn [rename_member type membername dimensions]. rewrite Hname.
    rewrite !string_feed_byte, <- !app_assoc, !app_assoc with (l := struct_feed pre).
    cbn [app]. intros Heq. symmetry in Heq. revert Heq.
    apply rolling_hash_single_change; auto using char_of_ascii_range.
    + unfold in_int64. lia.
    + intros H. apply Hne, char_of_ascii_inj, H.
  - intros t' Hp Hp' h0. subst h0.
    rewrite !hash_string_update_feed, !lcm_struct_hash_feed.
    cbn [members set_members].
    rewrite Hm, !struct_feed_member. unfold member_feed.
    cbn [retype_member type membername dimensions].
    rewrite Hp, Hp'. rewrite !rolling_hash_app.
    set (h0 := rolling_hash (rolling_hash 305419896 (struct_feed pre))
                 (string_feed (membername m))).
    assert (Hh0 : in_int64 h0).
    { unfold h0. apply rolling_hash_range, rolling_hash_range. unfold in_int64. lia. }
    split.
    + intros Heq.
      apply rolling_hash_inj in Heq; try (apply rolling_hash_range); auto;
        try (apply rolling_hash_range; auto).
      apply rolling_hash_inj in Heq; auto; apply rolling_hash_range; auto.
    + intros ->. reflexivity.
  - intros t' Hp Hp' Hne Heq. rewrite Hm, !struct_feed_member in Heq.
    apply app_inv_head, app_inv_tail in Heq. unfold member_feed in Heq.
    cbn [retype_member type membername dimensions] in Heq.
    rewrite Hp, Hp' in Heq.
    apply app_inv_head, app_inv_tail, string_feed_inj in Heq. auto.
Qed.

Lemma C4_member_names_are_hashed_witness :
  (members (one_member_struct "foo_t" "a" 5124095565979904)
   = [] ++ {| type := plain_type "foo_t"; membername := "a"; dimensions := [] |} :: []
   /\ lcm_struct_hash
        (set_members (one_member_struct "foo_t" "a" 5124095565979904)
           ([] ++ retype_member
                    {| type := plain_type "foo_t"; membername := "a"; dimensions := [] |}
                    (plain_type "bar_t") :: []))
      = lcm_struct_hash (one_member_struct "foo_t" "a" 5124095565979904))
  /\ (members (one_member_struct "int32_t" "x" (7607385575789847566))
      = [] ++ {| type := plain_type "int32_t"; membername := "x"; dimensions := [] |} :: []
      /\ lcm_struct_hash
           (set_members (one_member_struct "int32_t" "x" (7607385575789847566))
              ([] ++ retype_member
                       {| type := plain_type "int32_t"; membername := "x";
                          dimensions := [] |}
                       (plain_type "int64_t") :: []))
         <> lcm_struct_hash (one_member_struct "int32_t" "x" (7607385575789847566))).
Proof.
  assert (H : members (one_member_struct "foo_t" "a" 5124095565979904)
              = [] ++ {| type := plain_type "foo_t"; membername := "a";
                         dimensions := [] |} :: [])
    by reflexivity.
  assert (H' : members (one_member_struct "int32_t" "x" (7607385575789847566))
               = [] ++ {| type := plain_type "int32_t"; membername := "x";
                          dimensions := [] |} :: [])
    by reflexivity.
  split; split; [exact H | | exact H' |].
  - apply (proj1 (C4_member_names_are_hashed _ _ _ _ H)); reflexivity.
  - intros Heq.
    apply (proj1 (proj2 (proj2 (C4_member_names_are_hashed _ _ _ _ H')))
             (plain_type "int64_t") eq_refl eq_refl) in Heq.
    vm_compute in Heq. discriminate Heq.
Defined.

(** C4 (as stated) fails three times: renaming the member of compound
    type [foo_t] from [a] to [b] changes the hash of its struct; renaming
    the member of primitive type [int32_t] from [timestamp] to
    [simestamr] does not; and changing the primitive type of the member
    [xslrrqMkj1oA53fmNB] from [byte] to [int8_t] does not either. *)
Lemma C4_counterexample :
  (parse_struct "s.lcm" (after "struct" (one_member_tokens "foo_t" "a"))
   = Ok (one_member_struct "foo_t" "a" 5124095565979904) (after "}" [])
   /\ parse_struct "s.lcm" (after "struct" (one_member_tokens "foo_t" "b"))
      = Ok (one_member_struct "foo_t" "b" 5124095565980160) (after "}" [])
   /\ lcm_is_primitive_type "foo_t" = false
   /\ struct_hash (one_member_struct "foo_t" "a" 5124095565979904)
      <> struct_hash (one_member_struct "foo_t" "b" 5124095565980160))
  /\ (parse_struct "s.lcm" (after "struct" (one_member_tokens "int32_t" "timestamp"))
      = Ok (one_member_struct "int32_t" "timestamp" (-4935458042811564620)) (after "}" [])
      /\ parse_struct "s.lcm" (after "struct" (one_member_tokens "int32_t" "simestamr"))
         = Ok (one_member_struct "int32_t" "simestamr" (-4935458042811564620)) (after "}" [])
      /\ lcm_is_primitive_type "int32_t" = true
      /\ struct_hash (one_member_struct "int32_t" "timestamp" (-4935458042811564620))
         = struct_hash (one_member_struct "int32_t" "simestamr" (-4935458042811564620)))
  /\ (parse_struct "s.lcm"
        (after "struct" (one_member_tokens "byte" "xslrrqMkj1oA53fmNB"))
      = Ok (one_member_struct "byte" "xslrrqMkj1oA53fmNB" (-7533794877390627558))
           (after "}" [])
      /\ parse_struct "s.lcm"
           (after "struct" (one_member_tokens "int8_t" "xslrrqMkj1oA53fmNB"))
         = Ok (one_member_struct "int8_t" "xslrrqMkj1oA53fmNB" (-7533794877390627558))
              (after "}" [])
      /\ lcm_is_primitive_type "byte" = true
      /\ lcm_is_primitive_type "int8_t" = true
      /\ struct_hash (one_member_struct "byte" "xslrrqMkj1oA53fmNB" (-7533794877390627558))
         = struct_hash
             (one_member_struct "int8_t" "xslrrqMkj1oA53fmNB" (-7533794877390627558))).
Proof. repeat split; try (vm_compute; reflexivity). vm_compute. discriminate. Qed.

(** ** What the token primitives do *)

Lemma require_next_cons description s x rest :
  pending (tok s) = x :: rest -> require_next description s = Ok tt (at_token s x rest).
Proof.
  intros E. unfold require_next, bind, next, tokenize_next. rewrite E. reflexivity.
Qed.

Lemma parse_try_consume_match tk s rest :
  pending (tok s) = tk :: rest -> parse_try_consume tk s = Ok true (at_token s tk rest).
Proof.
  intros E. unfold parse_try_consume, bind, peek, next, cur_token, tokenize_peek,
    tokenize_next. rewrite E. simpl. rewrite String.eqb_refl. reflexivity.
Qed.

Lemma parse_try_consume_other tk s x rest :
  pending (tok s) = x :: rest -> x <> tk ->
  parse_try_consume tk s = Ok false (at_token s x (x :: rest)).
Proof.
  intros E Hne. unfold parse_try_consume, bind, peek, next, cur_token, tokenize_peek,
    tokenize_next. rewrite E. simpl.
  apply String.eqb_neq in Hne. rewrite Hne. reflexivity.
Qed.

Lemma cur_token_at s tk toks : cur_token (at_token s tk toks) = Ok tk (at_token s tk toks).
Proof. reflexivity. Qed.

(** ** Enum values *)

Lemma fold_right_max_acc l : forall a x,
  fold_right Z.max (Z.max a x) l = Z.max x (fold_right Z.max a l).
Proof. induction l as [| y l IH]; intros a x; simpl; [lia | rewrite IH; lia]. Qed.

Lemma enum_max_running_max vs : enum_max vs = running_max vs.
Proof.
  unfold enum_max, running_max. generalize 0 as a.
  induction vs as [| tmp vs IH]; intros a; simpl.
  - reflexivity.
  - rewrite IH. destruct (Z.gtb_spec (value tmp) a).
    + rewrite <- fold_right_max_acc. f_equal. lia.
    + rewrite <- fold_right_max_acc. f_equal. lia.
Qed.

Lemma running_max_spec vs :
  0 <= running_max vs
  /\ (forall tmp, In tmp vs -> value tmp <= running_max vs)
  /\ (running_max vs = 0 \/ exists tmp, In tmp vs /\ value tmp = running_max vs).
Proof.
  unfold running_max. induction vs as [| x vs (IH0 & IHle & IHin)]; simpl.
  - repeat split; [lia | tauto | auto].
  - repeat split.
    + lia.
    + intros tmp [<- | Hin]; [lia | specialize (IHle tmp Hin); lia].
    + destruct (Z.max_spec (value x) (fold_right Z.max 0 (map value vs)))
        as [[_ ->] | [_ ->]].
      * destruct IHin as [-> | (tmp & Hin & Hv)]; [auto |].
        right. exists tmp. auto.
      * right. exists x. auto.
Qed.

Lemma check_enum_duplicates_fresh vs lev s :
  (forall tmp, In tmp vs -> value tmp <> value lev /\ valuename tmp <> valuename lev) ->
  check_enum_duplicates vs lev s = Ok tt s.
Proof.
  induction vs as [| tmp vs IH]; intros Hfresh; simpl.
  - reflexivity.
  - destruct (Hfresh tmp (or_introl eq_refl)) as [Hv Hn].
    apply Z.eqb_neq in Hv. apply String.eqb_neq in Hn.
    unfold bind. rewrite Hv, Hn. simpl. apply IH.
    intros tmp' Hin. apply Hfresh. right. exact Hin.
Qed.

(** The value declaration [name] with no literal after it. *)
Lemma parse_enum_value_auto le s name nxt rest :
  pending (tok s) = name :: nxt :: rest -> nxt <> "=" ->
  let lev := {| valuename := name; value := to_int32 (enum_max (values le) + 1) |} in
  parse_enum_value le s
  = (check_enum_duplicates (values le) lev ;;
     ret (set_values le (values le ++ [lev]))) (at_token s nxt (nxt :: rest)).
Proof.
  intros E Hne lev. unfold parse_enum_value.
  rewrite (bind_of_Ok _ _ _ _ _ (require_next_cons _ _ _ _ E)).
  rewrite (bind_of_Ok _ _ _ _ _ (cur_token_at _ _ _)).
  rewrite (bind_of_Ok _ _ _ _ _
             (parse_try_consume_other "=" (at_token s name (nxt :: rest)) nxt rest
                eq_refl Hne)).
  reflexivity.
Qed.

(** The value declaration [name = lit]. *)
Lemma parse_enum_value_literal le s name lit rest :
  pending (tok s) = name :: "=" :: lit :: rest ->
  let lev := {| valuename := name; value := to_int32 (strtol lit) |} in
  parse_enum_value le s
  = (check_enum_duplicates (values le) lev ;;
     ret (set_values le (values le ++ [lev]))) (at_token s lit rest).
Proof.
  intros E lev. unfold parse_enum_value.
  rewrite (bind_of_Ok _ _ _ _ _ (require_next_cons _ _ _ _ E)).
  rewrite (bind_of_Ok _ _ _ _ _ (cur_token_at _ _ _)).
  rewrite (bind_of_Ok _ _ _ _ _
             (parse_try_consume_match "=" (at_token s name ("=" :: lit :: rest))
                (lit :: rest) eq_refl)).
  reflexivity.
Qed.

(** The scenario of the specification: RED=1, GREEN=5, BLUE=6. *)
Lemma enum_Color_scenario :
  parse_enum "e.lcm" (after "enum" enum_Color_tokens)
  = Ok (enum_of "Color"
          [ {| valuename := "RED"; value := 1 |};
            {| valuename := "GREEN"; value := 5 |};
            {| valuename := "BLUE"; value := 6 |} ]
          4837153261963018919)
       (after "}" []).
Proof. vm_compute. reflexivity. Qed.

(** C5 (as amended): an enum value declared without an explicit '='
    literal gets one more than the running maximum, in 32-bit arithmetic,
    where the running maximum is the largest of 0 and all the values
    parsed so far in that enum: it is never below 0, it is 0 when no value
    has been parsed yet, and it is not the value of the declaration just
    before. *)
Theorem C5_auto_value_is_running_max_plus_one le s name nxt rest le' s' :
  pending (tok s) = name :: nxt :: rest -> nxt <> "=" ->
  parse_enum_value le s = Ok le' s' ->
  values le'
  = values le
    ++ [ {| valuename := name; value := to_int32 (running_max (values le) + 1) |} ]
  /\ 0 <= running_max (values le)
  /\ (forall tmp, In tmp (values le) -> value tmp <= running_max (values le))
  /\ (running_max (values le) = 0
      \/ exists tmp, In tmp (values le) /\ value tmp = running_max (values le)).
Proof.
  intros E Hne H. split; [| apply running_max_spec].
  rewrite (parse_enum_value_auto le s name nxt rest E Hne) in H.
  bind_inv H. apply ret_Ok in H as [<- _].
  rewrite enum_max_running_max. reflexivity.
Qed.

Lemma C5_auto_value_is_running_max_plus_one_witness :
  values (enum_of "Color"
            [ {| valuename := "RED"; value := 1 |};
              {| valuename := "GREEN"; value := 5 |};
              {| valuename := "BLUE"; value := 6 |} ] 0)
  = [ {| valuename := "RED"; value := 1 |}; {| valuename := "GREEN"; value := 5 |} ]
    ++ [ {| valuename := "BLUE";
            value := to_int32
                       (running_max [ {| valuename := "RED"; value := 1 |};
                                      {| valuename := "GREEN"; value := 5 |} ] + 1) |} ].
Proof.
  refine (proj1 (C5_auto_value_is_running_max_plus_one
                   (enum_of "Color"
                      [ {| valuename := "RED"; value := 1 |};
                        {| valuename := "GREEN"; value := 5 |} ] 0)
                   (after "," ["BLUE"; "}"]) "BLUE" "}" []
                   _ (after "}" ["}"]) _ _ _)).
  - reflexivity.
  - discriminate.
  - vm_compute. reflexivity.
Defined.

(** C5 (as stated) fails when every earlier value is negative: in
    [enum E { A=-5, B }] the maximum among the values parsed before B is
    -5, and B gets 1, not -4; likewise after [A=0xFFFFFFFF], which is
    stored as -1. *)
Lemma C5_counterexample :
  parse_enum "e.lcm" (after "enum" enum_negative_tokens)
  = Ok (enum_of "E" [ {| valuename := "A"; value := -5 |};
                      {| valuename := "B"; value := 1 |} ] 148868987683141)
       (after "}" [])
  /\ max_of_values [ {| valuename := "A"; value := -5 |} ] + 1 = -4
  /\ 1 <> max_of_values [ {| valuename := "A"; value := -5 |} ] + 1
  /\ parse_enum "e.lcm" (after "enum" enum_wrapped_tokens)
     = Ok (enum_of "E" [ {| valuename := "A"; value := -1 |};
                         {| valuename := "B"; value := 1 |} ] 148868987683141)
          (after "}" [])
  /\ max_of_values [ {| valuename := "A"; value := -1 |} ] + 1 = 0.
Proof. repeat split; try (vm_compute; reflexivity). vm_compute. discriminate. Qed.

(** ** Entities and files *)

Lemma next_Ok s : exists res s1,
  next s = Ok res s1 /\ lcmgen s1 = lcmgen s
  /\ (res = EOF /\ (remaining s1 <= remaining s)%nat
      \/ res <> EOF /\ (remaining s1 < remaining s)%nat).
Proof.
  unfold next, tokenize_next, remaining.
  destruct (pending (tok s)) as [| x rest] eqn:E; simpl.
  - eexists _, _. repeat split. left. simpl. rewrite E. auto.
  - eexists _, _. repeat split. right. simpl. split; [discriminate | lia].
Qed.

(** What one call of [parse_entity] can do: stop at the end of input,
    append one completed struct, append one completed enum, or exit with
    the registry as it was. *)
Lemma parse_entity_cases path s :
  match parse_entity path s with
  | Ok r s1 =>
      (r = EOF /\ lcmgen s1 = lcmgen s)
      \/ (r <> EOF /\ (remaining s1 < remaining s)%nat
          /\ ((exists lr sa sb,
                  parse_struct path sa = Ok lr sb
                  /\ structs (lcmgen s1) = g_ptr_array_add (structs (lcmgen s)) lr
                  /\ enums (lcmgen s1) = enums (lcmgen s))
              \/ (exists le sa sb,
                     parse_enum path sa = Ok le sb
                     /\ enums (lcmgen s1) = g_ptr_array_add (enums (lcmgen s)) le
                     /\ structs (lcmgen s1) = structs (lcmgen s))))
  | Exit _ s1 => lcmgen s1 = lcmgen s
  | OutOfFuel => False
  end.
Proof.
  unfold parse_entity.
  destruct (next_Ok s) as (res & s1 & Enext & Hreg & Hres).
  rewrite (bind_of_Ok _ _ _ _ _ Enext).
  destruct Hres as [[-> _] | [Hne Hrem]].
  - simpl. left. auto.
  - apply Z.eqb_neq in Hne. rewrite Hne.
    unfold bind at 1, cur_token.
    destruct (String.eqb (token (tok s1)) "struct").
    { pose proof (keeps_parse_struct path s1) as Hk. unfold keeps in Hk.
      unfold bind at 1. destruct (parse_struct path s1) as [lr s2 | d s2 |] eqn:E.
      - destruct Hk as [Hreg2 Hrem2]. simpl. right.
        split; [discriminate | split; [unfold remaining in *; simpl; lia |]].
        left. exists lr, s1, s2. simpl. rewrite Hreg2, Hreg. auto.
      - congruence.
      - exact Hk. }
    destruct (String.eqb (token (tok s1)) "enum").
    { pose proof (keeps_parse_enum path s1) as Hk. unfold keeps in Hk.
      unfold bind at 1. destruct (parse_enum path s1) as [le s2 | d s2 |] eqn:E.
      - destruct Hk as [Hreg2 Hrem2]. simpl. right.
        split; [discriminate | split; [unfold remaining in *; simpl; lia |]].
        right. exists le, s1, s2. simpl. rewrite Hreg2, Hreg. auto.
      - congruence.
      - exact Hk. }
    destruct (String.eqb (token (tok s1)) "union"); simpl; exact Hreg.
Qed.

Lemma handle_file_loop_Exit path fuel : forall s d s',
  handle_file_loop path fuel s = Exit d s' ->
  exists s0, entities_parsed path s s0 /\ parse_entity path s0 = Exit d s'.
Proof.
  induction fuel as [| fuel IH]; intros s d s' H; simpl in H; [discriminate |].
  apply bind_Exit in H as [H | (r & s1 & E & H)].
  - exists s. split; [constructor | exact H].
  - destruct (Z.eqb_spec r EOF) as [| Hne]; simpl in H; [discriminate |].
    apply IH in H as (s0 & Hparsed & Hexit).
    exists s0. split; [| exact Hexit].
    eapply parsed_more; eauto.
Qed.

Lemma dump_tokens_loop_no_Exit fuel : forall s d s',
  dump_tokens_loop fuel s <> Exit d s'.
Proof.
  induction fuel as [| fuel IH]; intros s d s' H; simpl in H; [discriminate |].
  destruct (next_Ok s) as (res & s1 & Enext & _).
  rewrite (bind_of_Ok _ _ _ _ _ Enext) in H.
  destruct (negb (res =? EOF)); [exact (IH _ _ _ H) | discriminate].
Qed.

Lemma handle_file_loop_total path fuel : forall s,
  (remaining s < fuel)%nat -> handle_file_loop path fuel s <> OutOfFuel.
Proof.
  induction fuel as [| fuel IH]; intros s Hfuel; [lia |].
  simpl. unfold bind.
  pose proof (parse_entity_cases path s) as Hc.
  destruct (parse_entity path s) as [r s1 | d s1 |]; [| discriminate | exact (False_ind _ Hc)].
  destruct Hc as [[-> _] | (Hne & Hrem & _)].
  - simpl. discriminate.
  - apply Z.eqb_neq in Hne. rewrite Hne. simpl. apply IH. lia.
Qed.

Lemma dump_tokens_loop_total fuel : forall s,
  (remaining s < fuel)%nat -> dump_tokens_loop fuel s <> OutOfFuel.
Proof.
  induction fuel as [| fuel IH]; intros s Hfuel; [lia |].
  simpl. destruct (next_Ok s) as (res & s1 & Enext & _ & Hres).
  rewrite (bind_of_Ok _ _ _ _ _ Enext).
  destruct Hres as [[-> _] | [Hne Hrem]].
  - simpl. discriminate.
  - apply Z.eqb_neq in Hne. rewrite Hne. simpl. apply IH. lia.
Qed.

(** The fuel that [with_fuel] hands to the loops is always enough: a run of
    [lcmgen_handle_file] returns or exits with a diagnostic. *)
Theorem lcmgen_handle_file_terminates g path file :
  lcmgen_handle_file g path file <> OutOfFuel.
Proof.
  unfold lcmgen_handle_file. destruct file as [toks |]; [| discriminate].
  set (s := {| lcmgen := g; tok := tokenize_create toks |}).
  destruct (gopt g "tokenize"); unfold bind, with_fuel.
  - pose proof (dump_tokens_loop_total (S (remaining s)) s ltac:(lia)) as Ht.
    destruct (dump_tokens_loop (S (remaining s)) s);
      [unfold ret; discriminate | discriminate | congruence].
  - pose proof (handle_file_loop_total path (S (remaining s)) s ltac:(lia)) as Ht.
    destruct (handle_file_loop path (S (remaining s)) s);
      [unfold ret; discriminate | discriminate | congruence].
Qed.

(** C6 (as amended): in the top-level entity loop only the absence of a
    token (end of input) ends the file as a normal termination; a token
    that is none of 'struct', 'enum' or 'union' is a fatal parse error
    ("Missing struct/enum/union token."), and 'union' always fails with
    the fatal "unions not implemented" diagnostic, whereas 'struct' and
    'enum' can succeed. *)
Theorem C6_only_end_of_input_ends_the_file
    (g : lcmgen_t) (path tk0 tkn : string) (rest : list string) :
  gopt g "tokenize" = false ->
  tkn <> "struct" -> tkn <> "enum" -> tkn <> "union" ->
  parse_entity path (state_of g tk0 []) = Ok EOF (state_of g tk0 [])
  /\ lcmgen_handle_file g path (Some []) = Ok 0 (state_of g "" [])
  /\ parse_entity path (state_of g tk0 (tkn :: rest))
     = Exit (ParseError "Missing struct/enum/union token." []) (state_of g tkn rest)
  /\ lcmgen_handle_file g path (Some (tkn :: rest))
     = Exit (ParseError "Missing struct/enum/union token." []) (state_of g tkn rest)
  /\ parse_entity path (state_of g tk0 ("union" :: rest))
     = Exit (ParseError ("unions not implemented" ++ newline) []) (state_of g "union" rest)
  /\ (exists s', parse_entity path (state_of g tk0 ["struct"; "s"; "{"; "}"]) = Ok 0 s')
  /\ (exists s', parse_entity path (state_of g tk0 ["enum"; "e"; "{"; "}"]) = Ok 0 s').
Proof.
  intros Hopt Hs He Hu.
  apply String.eqb_neq in Hs, He, Hu.
  assert (Hother : forall tk,
            parse_entity path (state_of g tk (tkn :: rest))
            = Exit (ParseError "Missing struct/enum/union token." []) (state_of g tkn rest)).
  { intros tk. unfold parse_entity, bind, next, cur_token. simpl.
    rewrite Hs, He, Hu. reflexivity. }
  repeat split.
  - unfold lcmgen_handle_file. rewrite Hopt. reflexivity.
  - apply Hother.
  - unfold lcmgen_handle_file. rewrite Hopt.
    unfold bind at 1, with_fuel. cbn [handle_file_loop].
    unfold bind at 1. unfold tokenize_create. fold (state_of g "" (tkn :: rest)).
    rewrite Hother. reflexivity.
  - eexists. reflexivity.
  - eexists. reflexivity.
Qed.

Lemma C6_only_end_of_input_ends_the_file_witness :
  lcmgen_handle_file lcmgen_create "f.lcm" (Some []) = Ok 0 (state_of lcmgen_create "" [])
  /\ lcmgen_handle_file lcmgen_create "f.lcm" (Some ["}"; "struct"])
     = Exit (ParseError "Missing struct/enum/union token." [])
            (state_of lcmgen_create "}" ["struct"]).
Proof.
  assert (H := C6_only_end_of_input_ends_the_file lcmgen_create "f.lcm" "" "}" ["struct"]
                 eq_refl
                 ltac:(discriminate) ltac:(discriminate) ltac:(discriminate)).
  split; [exact (proj1 (proj2 H)) | exact (proj1 (proj2 (proj2 (proj2 H))))].
Defined.

(** C6 (as stated) fails: a file that holds the one token [foo], which is
    none of 'struct', 'enum' and 'union', does not end normally but with a
    fatal parse error. *)
Lemma C6_counterexample :
  lcmgen_handle_file lcmgen_create "f.lcm" (Some ["foo"])
  = Exit (ParseError "Missing struct/enum/union token." []) (after "foo" []).
Proof. vm_compute. reflexivity. Qed.

(** C9: when a run of [lcmgen_handle_file] ends in a fatal diagnostic, it
    ends inside one call of [parse_entity], reached by parsing whole
    entities, in the state of that exit, and the registry is then exactly
    what it was when the failing entity began.  A call of [parse_entity]
    that returns has added nothing, or one struct, or one enum, for which
    [parse_struct] or [parse_enum] had returned. *)
Theorem C9_fatal_exit_keeps_registry g path toks d s' :
  lcmgen_handle_file g path (Some toks) = Exit d s' ->
  (exists s0,
      entities_parsed path {| lcmgen := g; tok := tokenize_create toks |} s0
      /\ parse_entity path s0 = Exit d s'
      /\ lcmgen s' = lcmgen s0)
  /\ (forall s r s1,
        parse_entity path s = Ok r s1 ->
        lcmgen s1 = lcmgen s
        \/ (exists lr sa sb,
               parse_struct path sa = Ok lr sb
               /\ structs (lcmgen s1) = g_ptr_array_add (structs (lcmgen s)) lr
               /\ enums (lcmgen s1) = enums (lcmgen s))
        \/ (exists le sa sb,
               parse_enum path sa = Ok le sb
               /\ enums (lcmgen s1) = g_ptr_array_add (enums (lcmgen s)) le
               /\ structs (lcmgen s1) = structs (lcmgen s))).
Proof.
  intros H. split.
  - unfold lcmgen_handle_file in H.
    destruct (gopt g "tokenize").
    + apply bind_Exit in H as [H | (a & s1 & _ & H)]; [| discriminate].
      exfalso. exact (dump_tokens_loop_no_Exit _ _ _ _ H).
    + apply bind_Exit in H as [H | (a & s1 & _ & H)]; [| discriminate].
      apply handle_file_loop_Exit in H as (s0 & Hparsed & Hexit).
      exists s0. repeat split; auto.
      pose proof (parse_entity_cases path s0) as Hc. rewrite Hexit in Hc. exact Hc.
  - intros s r s1 E.
    pose proof (parse_entity_cases path s) as Hc. rewrite E in Hc.
    destruct Hc as [[_ Hreg] | (_ & _ & Hadd)]; auto.
Qed.

Lemma C9_fatal_exit_keeps_registry_witness :
  lcmgen_handle_file lcmgen_create "a.lcm"
    (Some ("struct" :: struct_a_tokens ++ "struct" :: struct_b_tokens))
  = Exit (SemanticError "Constant array size must be > 0" [])
         (state_of {| gopt := fun _ => false; structs := [struct_a]; enums := [] |}
                   "0" ["]"; ";"; "}"])
  /\ exists s0,
       entities_parsed "a.lcm"
         {| lcmgen := lcmgen_create;
            tok := tokenize_create
                     ("struct" :: struct_a_tokens ++ "struct" :: struct_b_tokens) |} s0
       /\ structs (lcmgen s0) = [struct_a].
Proof.
  assert (H : lcmgen_handle_file lcmgen_create "a.lcm"
                (Some ("struct" :: struct_a_tokens ++ "struct" :: struct_b_tokens))
              = Exit (SemanticError "Constant array size must be > 0" [])
                  (state_of {| gopt := fun _ => false; structs := [struct_a]; enums := [] |}
                     "0" ["]"; ";"; "}"]))
    by (vm_compute; reflexivity).
  split; [exact H |].
  destruct (proj1 (C9_fatal_exit_keeps_registry _ _ _ _ _ H)) as (s0 & Hp & _ & Hreg).
  exists s0. split; [exact Hp |]. rewrite <- Hreg. reflexivity.
Defined.

(** ** Array dimensions *)

Lemma struct_c_scenario :
  parse_struct "c.lcm" (after "struct" struct_c_tokens)
  = Ok {| structname := plain_type "c";
          members :=
            [ {| type := plain_type "float"; membername := "f";
                 dimensions := [ {| mode := LCM_CONST; size := "2" |};
                                 {| mode := LCM_CONST; size := "3" |} ] |} ];
          struct_lcmfile := "c.lcm";
          struct_hash := 7207109655609126934 |}
       (after "}" []).
Proof. vm_compute. reflexivity. Qed.

Lemma parse_dimension_constant_eq lr s :
  isdigit (first_char (token (tok s))) = true ->
  parse_dimension lr s
  = if to_int32 (strtol (token (tok s))) <=? 0
    then Exit (SemanticError "Constant array size must be > 0" []) s
    else Ok {| mode := LCM_CONST; size := token (tok s) |} s.
Proof.
  intros Hdigit. unfold parse_dimension, bind, cur_token. rewrite Hdigit.
  destruct (to_int32 (strtol (token (tok s))) <=? 0); reflexivity.
Qed.

(** One turn of the loop over the dimensions of a member, on [ [tkn] ]
    with a numeric [tkn]. *)
Lemma parse_dimensions_loop_constant lmi fuel lr s tkn rest :
  pending (tok s) = "[" :: tkn :: "]" :: rest ->
  isdigit (first_char tkn) = true ->
  parse_dimensions_loop lmi (S fuel) lr s
  = if to_int32 (strtol tkn) <=? 0
    then Exit (SemanticError "Constant array size must be > 0" [])
           (at_token s tkn ("]" :: rest))
    else parse_dimensions_loop lmi fuel
           (set_members lr
              (add_dimension_at (members lr) lmi {| mode := LCM_CONST; size := tkn |}))
           (at_token s "]" rest).
Proof.
  intros E Hdigit. cbn [parse_dimensions_loop].
  rewrite (bind_of_Ok _ _ _ _ _ (parse_try_consume_match "[" s _ E)).
  rewrite (bind_of_Ok _ _ _ _ _
             (require_next_cons "array size" (at_token s "[" (tkn :: "]" :: rest))
                tkn ("]" :: rest) eq_refl)).
  unfold bind at 1.
  rewrite (parse_dimension_constant_eq lr
             (at_token (at_token s "[" (tkn :: "]" :: rest)) tkn ("]" :: rest)) Hdigit).
  cbn [at_token tok token lcmgen].
  destruct (to_int32 (strtol tkn) <=? 0); reflexivity.
Qed.

(** C8 (code bug): for an array dimension whose size token starts with a
    digit, the code reads the token with [strtol (token, NULL, 0)] and
    stores the [long] in an [int]; the dimension is accepted, with mode
    Constant and the literal text as its size, if and only if that [int] is
    strictly positive, and otherwise the run ends in the fatal semantic
    error "Constant array size must be > 0", as for
    [struct b { int32_t n[0]; }].  While the integer that was read fits an
    [int], the dimension is accepted if and only if the integer is strictly
    positive, as the claim says.  A larger integer is narrowed:
    [struct b { int32_t n[4294967296]; }] is refused with "Constant array
    size must be > 0", although 4294967296 is strictly positive. *)
Theorem C8_constant_size_must_be_positive lr s :
  isdigit (first_char (token (tok s))) = true ->
  (0 < to_int32 (strtol (token (tok s))) ->
   parse_dimension lr s = Ok {| mode := LCM_CONST; size := token (tok s) |} s)
  /\ (to_int32 (strtol (token (tok s))) <= 0 ->
      parse_dimension lr s = Exit (SemanticError "Constant array size must be > 0" []) s)
  /\ ((exists dim s', parse_dimension lr s = Ok dim s')
      <-> 0 < to_int32 (strtol (token (tok s))))
  /\ (forall lmi fuel s0 rest,
        pending (tok s0) = "[" :: token (tok s) :: "]" :: rest ->
        parse_dimensions_loop lmi (S fuel) lr s0
        = if to_int32 (strtol (token (tok s))) <=? 0
          then Exit (SemanticError "Constant array size must be > 0" [])
                 (at_token s0 (token (tok s)) ("]" :: rest))
          else parse_dimensions_loop lmi fuel
                 (set_members lr
                    (add_dimension_at (members lr) lmi
                       {| mode := LCM_CONST; size := token (tok s) |}))
                 (at_token s0 "]" rest))
  /\ lcmgen_handle_file lcmgen_create "b.lcm" (Some ("struct" :: struct_b_tokens))
     = Exit (SemanticError "Constant array size must be > 0" [])
            (after "0" ["]"; ";"; "}"])
  /\ (in_int32 (strtol (token (tok s))) ->
      (exists dim s', parse_dimension lr s = Ok dim s') <-> 0 < strtol (token (tok s)))
  /\ (isdigit (first_char "4294967296") = true
      /\ strtol "4294967296" = 4294967296
      /\ to_int32 (strtol "4294967296") = 0
      /\ lcmgen_handle_file lcmgen_create "b.lcm"
           (Some ("struct" :: sized_array_tokens "4294967296"))
         = Exit (SemanticError "Constant array size must be > 0" [])
                (after "4294967296" ["]"; ";"; "}"])).
Proof.
  intros Hdigit.
  pose proof (parse_dimension_constant_eq lr s Hdigit) as Heq.
  assert (Hiff : (exists dim s', parse_dimension lr s = Ok dim s')
                 <-> 0 < to_int32 (strtol (token (tok s)))).
  { rewrite Heq.
    destruct (Z.leb_spec (to_int32 (strtol (token (tok s)))) 0) as [Hle | Hgt].
    - split; [intros (dim & s' & E); discriminate | lia].
    - split; [intros _; exact Hgt | intros _; eauto]. }
  split; [| split; [| split; [| split; [| split; [| split]]]]].
  - intros Hsz. apply Z.leb_gt in Hsz. rewrite Hsz in Heq. exact Heq.
  - intros Hsz. apply Z.leb_le in Hsz. rewrite Hsz in Heq. exact Heq.
  - exact Hiff.
  - intros lmi fuel s0 rest E.
    apply parse_dimensions_loop_constant; assumption.
  - vm_compute. reflexivity.
  - intros Hfit. rewrite (to_int32_small _ Hfit) in Hiff. exact Hiff.
  - repeat split; vm_compute; reflexivity.
Qed.

Lemma C8_constant_size_must_be_positive_witness :
  isdigit (first_char "3") = true
  /\ 0 < to_int32 (strtol "3")
  /\ parse_dimension struct_a (after "3" ["]"; ";"; "}"])
     = Ok {| mode := LCM_CONST; size := "3" |} (after "3" ["]"; ";"; "}"]).
Proof.
  assert (Hd : isdigit (first_char "3") = true) by reflexivity.
  assert (Hp : 0 < to_int32 (strtol "3")) by reflexivity.
  split; [exact Hd | split; [exact Hp |]].
  exact (proj1 (C8_constant_size_must_be_positive struct_a
                  (after "3" ["]"; ";"; "}"]) Hd) Hp).
Defined.

Lemma find_array_index_find ms tkn s :
  find_array_index ms tkn s
  = match find (fun lm => String.eqb (membername lm) tkn) ms with
    | None => Ok false s
    | Some m =>
        if negb (g_ptr_array_size (dimensions m) =? 0)%nat then
          Exit (SemanticError "Array dimension '%s' must be not be an array type."
                  [FStr tkn]) s
        else if negb (lcm_is_array_dimension_type (typename (type m))) then
          Exit (SemanticError "Array dimension '%s' must be an integer type."
                  [FStr tkn]) s
        else Ok true s
    end.
Proof.
  induction ms as [| thislm ms IH]; simpl.
  - reflexivity.
  - destruct (String.eqb (membername thislm) tkn); [| exact IH].
    unfold bind, when.
    destruct (negb (g_ptr_array_size (dimensions thislm) =? 0)%nat); [reflexivity |].
    simpl.
    destruct (negb (lcm_is_array_dimension_type (typename (type thislm))));
      reflexivity.
Qed.

Lemma parse_dimension_variable_eq lr s :
  isdigit (first_char (token (tok s))) = false ->
  parse_dimension lr s
  = let tkn := token (tok s) in
    if Ascii.eqb (first_char tkn) "]" then
      Exit (SemanticError
              "Array sizes must be declared either as a constant or variable." []) s
    else if negb (lcm_is_legal_member_name tkn) then
      Exit (SemanticError
              "Invalid array size variable name: must start with [a-zA-Z_]." []) s
    else
      match lcm_find_member lr tkn with
      | None =>
          Exit (SemanticError
                  "Unknown variable array index '%s'. Index variables must be declared before the array."
                  [FStr tkn]) s
      | Some m =>
          if negb (g_ptr_array_size (dimensions m) =? 0)%nat then
            Exit (SemanticError "Array dimension '%s' must be not be an array type."
                    [FStr tkn]) s
          else if negb (lcm_is_array_dimension_type (typename (type m))) then
            Exit (SemanticError "Array dimension '%s' must be an integer type."
                    [FStr tkn]) s
          else Ok {| mode := LCM_VAR; size := tkn |} s
      end.
Proof.
  intros Hdigit. unfold parse_dimension, lcm_find_member.
  unfold bind at 1. unfold cur_token. rewrite Hdigit. cbv zeta.
  unfold bind at 1.
  destruct (Ascii.eqb (first_char (token (tok s))) "]"); [reflexivity |].
  simpl. unfold bind at 1.
  destruct (negb (lcm_is_legal_member_name (token (tok s)))); [reflexivity |].
  simpl. unfold bind at 1. rewrite find_array_index_find.
  destruct (find (fun lm => String.eqb (membername lm) (token (tok s))) (members lr))
    as [m |]; [| reflexivity].
  destruct (negb (g_ptr_array_size (dimensions m) =? 0)%nat); [reflexivity |].
  destruct (negb (lcm_is_array_dimension_type (typename (type m)))); reflexivity.
Qed.

Lemma legal_name_not_bracket tkn :
  lcm_is_legal_member_name tkn = true -> Ascii.eqb (first_char tkn) "]" = false.
Proof.
  unfold lcm_is_legal_member_name.
  destruct (Ascii.eqb_spec (first_char tkn) "]") as [-> |]; [discriminate | reflexivity].
Qed.

(** A size token that is not numeric is accepted exactly when it is a
    legal name and the first member of that name in the struct, as built so
    far, has no dimension and an integer type; every refusal is a fatal
    semantic error.  The struct built so far holds the member under
    declaration too. *)
Lemma parse_dimension_variable lr s :
  isdigit (first_char (token (tok s))) = false ->
  (parse_dimension lr s = Ok {| mode := LCM_VAR; size := token (tok s) |} s
   <-> lcm_is_legal_member_name (token (tok s)) = true
       /\ exists m, lcm_find_member lr (token (tok s)) = Some m
                    /\ dimensions m = []
                    /\ lcm_is_array_dimension_type (typename (type m)) = true)
  /\ (forall dim s', parse_dimension lr s = Ok dim s' ->
        dim = {| mode := LCM_VAR; size := token (tok s) |} /\ s' = s)
  /\ (forall d s', parse_dimension lr s = Exit d s' ->
        s' = s /\ exists fmt args, d = SemanticError fmt args).
Proof.
  intros Hdigit. rewrite (parse_dimension_variable_eq lr s Hdigit). cbv zeta.
  unfold g_ptr_array_size.
  split; [split |].
  - destruct (Ascii.eqb (first_char (token (tok s))) "]"); [discriminate |].
    destruct (lcm_is_legal_member_name (token (tok s))); [| discriminate].
    destruct (lcm_find_member lr (token (tok s))) as [m |]; [| discriminate].
    destruct (dimensions m) eqn:Hd; [| discriminate].
    destruct (lcm_is_array_dimension_type (typename (type m))) eqn:Ht; [| discriminate].
    intros _. split; [reflexivity |]. exists m. auto.
  - intros (Hlegal & m & Hfind & Hd & Ht).
    rewrite (legal_name_not_bracket _ Hlegal), Hlegal, Hfind, Hd, Ht. reflexivity.
  - destruct (Ascii.eqb (first_char (token (tok s))) "]");
      [split; intros ? ? H; inversion H; eauto |].
    destruct (negb (lcm_is_legal_member_name (token (tok s))));
      [split; intros ? ? H; inversion H; eauto |].
    destruct (lcm_find_member lr (token (tok s))) as [m |];
      [| split; intros ? ? H; inversion H; eauto].
    destruct (negb (List.length (dimensions m) =? 0)%nat);
      [split; intros ? ? H; inversion H; eauto |].
    destruct (negb (lcm_is_array_dimension_type (typename (type m))));
      split; intros ? ? H; inversion H; eauto.
Qed.

(** C7 (what the code does): [struct s { int32_t n[n]; }] is accepted.  The
    member [n] is in the struct before its dimensions are read, and has no
    dimension yet, so it sizes its own first dimension although it is not
    declared earlier. *)
Theorem C7_dimension_sized_by_its_own_member :
  lcmgen_handle_file lcmgen_create "s.lcm" (Some ("struct" :: struct_self_sized_tokens))
  = Ok 0 (state_of {| gopt := fun _ => false;
                      structs := [struct_self_sized];
                      enums := [] |} "}" []).
Proof. vm_compute. reflexivity. Qed.

Lemma later_member_scenario :
  lcmgen_handle_file lcmgen_create "s.lcm"
    (Some [ "struct"; "s"; "{"; "int32_t"; "data"; "["; "x"; "]"; ";";
            "int32_t"; "x"; ";"; "}" ])
  = Exit (SemanticError
            "Unknown variable array index '%s'. Index variables must be declared before the array."
            [FStr "x"])
         (after "x" ["]"; ";"; "int32_t"; "x"; ";"; "}"]).
Proof. vm_compute. reflexivity. Qed.

(** ** Names *)

Lemma illegal_name_not_keyword name kw :
  lcm_is_legal_member_name kw = true ->
  lcm_is_legal_member_name name = false -> name <> kw.
Proof. intros Hkw Hname ->. congruence. Qed.

Lemma parse_member_illegal_type lr s name follow :
  pending (tok s) = name :: follow ->
  lcm_is_legal_member_name name = false ->
  parse_member lr s = Exit (ParseError "invalid type name" []) (at_token s name follow).
Proof.
  intros E Hill. unfold parse_member.
  assert (Hs : name <> "struct") by (apply illegal_name_not_keyword; auto).
  assert (He : name <> "enum") by (apply illegal_name_not_keyword; auto).
  assert (Hu : name <> "union") by (apply illegal_name_not_keyword; auto).
  unfold bind at 1. unfold bind at 1.
  rewrite (parse_try_consume_other "struct" s name follow E Hs).
  unfold bind at 1.
  rewrite (parse_try_consume_other "enum" (at_token s name (name :: follow))
             name follow eq_refl He).
  unfold bind at 1.
  rewrite (parse_try_consume_other "union"
             (at_token (at_token s name (name :: follow)) name (name :: follow))
             name follow eq_refl Hu).
  simpl. unfold bind at 1.
  rewrite (require_next_cons "type identifier"
             (at_token (at_token (at_token s name (name :: follow)) name (name :: follow))
                name (name :: follow))
             name follow eq_refl).
  unfold bind at 1. simpl.
  unfold lcm_is_legal_member_name in Hill. apply Bool.orb_false_elim in Hill as [Ha Hb].
  unfold bind at 1. simpl. rewrite Ha, Hb. reflexivity.
Qed.

Lemma parse_member_names_illegal lt fuel lr s name follow :
  pending (tok s) = name :: follow ->
  lcm_is_legal_member_name name = false ->
  parse_member_names_loop lt (S fuel) lr s
  = Exit (ParseError "Invalid member name: must start with [a-zA-Z_]." [])
         (at_token s name follow).
Proof.
  intros E Hill. cbn [parse_member_names_loop].
  rewrite (bind_of_Ok _ _ _ _ _ (require_next_cons _ _ _ _ E)).
  rewrite (bind_of_Ok _ _ _ _ _ (cur_token_at _ _ _)).
  rewrite Hill. reflexivity.
Qed.

(** C10: [parse_enum_value] takes whatever token comes as the name of the
    value and never checks that it starts with a letter or an underscore:
    with or without an '=' literal the declaration is accepted as soon as
    no earlier value of the enum has the same name or number.  The same
    illegal token is refused as a type name and as a member name (fatal
    parse errors) and as the name of an array size (fatal semantic
    error). *)
Theorem C10_enum_value_names_not_validated le s name follow :
  pending (tok s) = name :: follow ->
  (forall nxt rest,
      follow = nxt :: rest -> nxt <> "=" ->
      let lev := {| valuename := name; value := to_int32 (enum_max (values le) + 1) |} in
      fresh_enum_value le lev ->
      parse_enum_value le s
      = Ok (set_values le (values le ++ [lev])) (at_token s nxt (nxt :: rest)))
  /\ (forall lit rest,
        follow = "=" :: lit :: rest ->
        let lev := {| valuename := name; value := to_int32 (strtol lit) |} in
        fresh_enum_value le lev ->
        parse_enum_value le s
        = Ok (set_values le (values le ++ [lev])) (at_token s lit rest))
  /\ (lcm_is_legal_member_name name = false ->
      (forall lr,
          parse_member lr s
          = Exit (ParseError "invalid type name" []) (at_token s name follow))
      /\ (forall lt fuel lr,
            parse_member_names_loop lt (S fuel) lr s
            = Exit (ParseError "Invalid member name: must start with [a-zA-Z_]." [])
                   (at_token s name follow))
      /\ (isdigit (first_char name) = false ->
          forall lr, exists fmt,
            parse_dimension lr (at_token s name follow)
            = Exit (SemanticError fmt []) (at_token s name follow))).
Proof.
  intros E. split; [| split].
  - intros nxt rest -> Hne lev Hfresh.
    rewrite (parse_enum_value_auto le s name nxt rest E Hne).
    unfold bind. fold lev.
    rewrite (check_enum_duplicates_fresh _ _ _ Hfresh). reflexivity.
  - intros lit rest -> lev Hfresh.
    rewrite (parse_enum_value_literal le s name lit rest E).
    unfold bind. fold lev.
    rewrite (check_enum_duplicates_fresh _ _ _ Hfresh). reflexivity.
  - intros Hill. split; [| split].
    + intros lr. apply parse_member_illegal_type; assumption.
    + intros lt fuel lr. apply parse_member_names_illegal; assumption.
    + intros Hdigit lr.
      rewrite (parse_dimension_variable_eq lr (at_token s name follow) Hdigit).
      cbn [at_token tok token]. cbv zeta.
      destruct (Ascii.eqb (first_char name) "]"); [eexists; reflexivity |].
      rewrite Hill. simpl. eexists; reflexivity.
Qed.

Lemma C10_enum_value_names_not_validated_witness :
  lcm_is_legal_member_name "9lives" = false
  /\ parse_enum_value (enum_of "E" [] 0) (after "{" ["9lives"; "}"])
     = Ok (enum_of "E" [ {| valuename := "9lives"; value := 1 |} ] 0)
          (after "}" ["}"]).
Proof.
  split; [reflexivity |].
  refine (proj1 (C10_enum_value_names_not_validated (enum_of "E" [] 0)
                   (after "{" ["9lives"; "}"]) "9lives" ["}"] eq_refl)
            "}" [] eq_refl _ _).
  - discriminate.
  - intros tmp [].
Defined.

(** * Further properties of the code *)

(** ** Type names *)

Lemma split_last_dot_None s : split_last_dot s = None -> has_dot s = false.
Proof.
  induction s as [| c s IH]; simpl; [reflexivity |].
  destruct (split_last_dot s) as [[p sh] |]; [discriminate |].
  destruct (Ascii.eqb c "."); [discriminate |].
  intros _. simpl. apply IH. reflexivity.
Qed.

Lemma split_last_dot_Some s : forall p sh,
  split_last_dot s = Some (p, sh) ->
  s = (p ++ String "." sh)%string /\ has_dot sh = false.
Proof.
  induction s as [| c s IH]; simpl; intros p sh H; [discriminate |].
  destruct (split_last_dot s) as [[p' sh'] |] eqn:E.
  - injection H as <- <-. destruct (IH p' sh' eq_refl) as [-> Hsh].
    split; [reflexivity | exact Hsh].
  - destruct (Ascii.eqb_spec c ".") as [-> |]; [| discriminate].
    injection H as <- <-. split; [reflexivity |].
    apply split_last_dot_None, E.
Qed.

(** X1: [lcm_typename_create] keeps the name as it is given and splits it
    at its last '.': the short name never holds a '.'; a name without '.'
    has the empty package and is its own short name; any other name is
    its package, a '.', and its short name. *)
Theorem X1_typename_splits_at_last_dot (name : string) :
  let lt := lcm_typename_create name in
  typename lt = name
  /\ has_dot (shortname lt) = false
  /\ (if has_dot name
      then name = (package lt ++ String "." (shortname lt))%string
      else package lt = "" /\ shortname lt = name).
Proof.
  unfold lcm_typename_create.
  destruct (split_last_dot name) as [[p sh] |] eqn:E; cbn [typename package shortname].
  - destruct (split_last_dot_Some _ _ _ E) as [Hname Hsh].
    split; [reflexivity | split; [exact Hsh |]].
    assert (Hdot : has_dot name = true).
    { rewrite Hname. clear. induction p as [| c p IH]; simpl.
      - reflexivity.
      - rewrite IH. apply Bool.orb_true_r. }
    rewrite Hdot. exact Hname.
  - pose proof (split_last_dot_None _ E) as Hdot.
    split; [reflexivity | split; [exact Hdot |]].
    rewrite Hdot. auto.
Qed.

(** ** Well-formed structs *)

Lemma when_parse_error_Ok c fmt args s u s' :
  when c (parse_error fmt args) s = Ok u s' -> c = false /\ s' = s.
Proof. destruct c; simpl; [discriminate |]. intros H. apply ret_Ok in H as [_ <-]. auto. Qed.

Lemma when_semantic_error_Ok c fmt args s u s' :
  when c (semantic_error fmt args) s = Ok u s' -> c = false /\ s' = s.
Proof. destruct c; simpl; [discriminate |]. intros H. apply ret_Ok in H as [_ <-]. auto. Qed.

Lemma members_ok_app ms : forall pre m,
  members_ok pre (ms ++ [m]) <-> members_ok pre ms /\ member_ok (pre ++ ms) m.
Proof.
  induction ms as [| x ms IH]; intros pre m; simpl.
  - rewrite app_nil_r. tauto.
  - rewrite IH, <- app_assoc. simpl. tauto.
Qed.

Lemma members_ok_split pre0 ms : forall pre m post,
  members_ok pre0 ms -> ms = pre ++ m :: post -> member_ok (pre0 ++ pre) m.
Proof.
  revert pre0. induction ms as [| x ms IH]; intros pre0 pre m post Hok E.
  - destruct pre; discriminate.
  - destruct Hok as [Hx Hrest]. destruct pre as [| y pre]; simpl in E.
    + injection E as <- _. rewrite app_nil_r. exact Hx.
    + injection E as <- E.
      specialize (IH _ _ _ _ Hrest E). rewrite <- app_assoc in IH. exact IH.
Qed.

Lemma add_dimension_at_last ms0 m dim :
  add_dimension_at (ms0 ++ [m]) (List.length ms0) dim
  = ms0 ++ [ {| type := type m; membername := membername m;
                dimensions := dimensions m ++ [dim] |} ].
Proof. induction ms0 as [| x ms0 IH]; simpl; [reflexivity | now rewrite IH]. Qed.

Lemma find_app_last {A} (f : A -> bool) ms0 m x :
  find f (ms0 ++ [m]) = Some x -> f x = true /\ (In x ms0 \/ x = m).
Proof.
  intros H. apply find_some in H as [Hin Hf]. split; [exact Hf |].
  apply in_app_or in Hin as [Hin | [<- | []]]; auto.
Qed.

Lemma dimension_ok_same_member pre m m' first d :
  membername m' = membername m -> type m' = type m ->
  dimension_ok pre m first d -> dimension_ok pre m' first d.
Proof. unfold dimension_ok. intros -> ->. auto. Qed.

(** What [parse_dimension] has checked when it returns. *)
Lemma parse_dimension_Ok lr s d s' :
  parse_dimension lr s = Ok d s' ->
  s' = s /\ size d = token (tok s)
  /\ ((mode d = LCM_CONST /\ isdigit (first_char (size d)) = true
       /\ 0 < to_int32 (strtol (size d)))
      \/ (mode d = LCM_VAR /\ lcm_is_legal_member_name (size d) = true
          /\ exists m, lcm_find_member lr (size d) = Some m /\ dimensions m = []
                       /\ lcm_is_array_dimension_type (typename (type m)) = true)).
Proof.
  intros H. destruct (isdigit (first_char (token (tok s)))) eqn:Hdigit.
  - rewrite (parse_dimension_constant_eq lr s Hdigit) in H.
    destruct (Z.leb_spec (to_int32 (strtol (token (tok s)))) 0); [discriminate |].
    injection H as <- <-. simpl. split; [| split; [| left]]; auto.
  - destruct (parse_dimension_variable lr s Hdigit) as (Hiff & Hok & _).
    destruct (Hok _ _ H) as [-> ->]. simpl.
    apply Hiff in H as [Hlegal Hfind]. split; [| split; [| right]]; auto.
Qed.

Lemma parse_dimensions_loop_ok ms0 fuel : forall lr s lr' s' m,
  parse_dimensions_loop (List.length ms0) fuel lr s = Ok lr' s' ->
  members lr = ms0 ++ [m] -> member_ok ms0 m ->
  structname lr' = structname lr /\ struct_lcmfile lr' = struct_lcmfile lr
  /\ exists m', members lr' = ms0 ++ [m'] /\ member_ok ms0 m'
                /\ membername m' = membername m /\ type m' = type m.
Proof.
  induction fuel as [| fuel IH]; intros lr s lr' s' m H Hms Hm; [discriminate |].
  cbn [parse_dimensions_loop] in H.
  apply bind_Ok in H as (more & s1 & _ & H). destruct more.
  2:{ apply ret_Ok in H as [<- _]. repeat split. exists m. auto. }
  apply bind_Ok in H as (? & s2 & _ & H).
  apply bind_Ok in H as (dim & s3 & Hdim & H).
  apply bind_Ok in H as (? & s4 & _ & H).
  rewrite Hms, add_dimension_at_last in H.
  set (m1 := {| type := type m; membername := membername m;
                dimensions := dimensions m ++ [dim] |}) in H.
  assert (Hm1 : member_ok ms0 m1).
  { destruct Hm as (Hname & Htype & Hfresh & Hdims).
    repeat split; try assumption. cbn [dimensions m1].
    apply parse_dimension_Ok in Hdim as (_ & _ & Hdim).
    assert (Hnew : dimension_ok ms0 m1 (match dimensions m with [] => true | _ => false end)
                     dim).
    { unfold dimension_ok. destruct Hdim as [(-> & Hd & Hp) | (-> & Hl & mf & Hf & Hz & Ht)].
      - auto.
      - split; [exact Hl |]. unfold lcm_find_member in Hf. rewrite Hms in Hf.
        apply find_app_last in Hf as [Heq [Hin | ->]]; apply String.eqb_eq in Heq.
        + left. exists mf. auto.
        + right. rewrite Hz. auto. }
    destruct (dimensions m) as [| d0 ds]; simpl.
    - split; [exact Hnew | constructor].
    - destruct Hdims as [Hd0 Hds]. split.
      + exact (dimension_ok_same_member ms0 m m1 true d0 eq_refl eq_refl Hd0).
      + apply Forall_app. split.
        * eapply Forall_impl; [| exact Hds]. intros d Hd.
          exact (dimension_ok_same_member ms0 m m1 false d eq_refl eq_refl Hd).
        * constructor; [exact Hnew | constructor]. }
  destruct (IH _ _ _ _ m1 H eq_refl Hm1) as (Hsn & Hlf & m' & Hms' & Hm' & Hn & Ht).
  repeat split; try assumption. exists m'. auto.
Qed.

Lemma lcm_find_member_None lr name :
  lcm_find_member lr name = None -> ~ In name (map membername (members lr)).
Proof.
  unfold lcm_find_member. intros Hnone Hin.
  apply in_map_iff in Hin as (m & Hname & Hin).
  pose proof (find_none _ _ Hnone m Hin) as Hf. simpl in Hf.
  rewrite Hname, String.eqb_refl in Hf. discriminate.
Qed.

Lemma parse_member_names_loop_ok lt fuel : forall lr s lr' s',
  parse_member_names_loop lt fuel lr s = Ok lr' s' ->
  lcm_is_legal_member_name (typename lt) = true ->
  members_ok [] (members lr) ->
  structname lr' = structname lr /\ struct_lcmfile lr' = struct_lcmfile lr
  /\ members_ok [] (members lr')
  /\ exists added, added <> [] /\ members lr' = members lr ++ added
                   /\ Forall (fun m => type m = lt) added.
Proof.
  induction fuel as [| fuel IH]; intros lr s lr' s' H Hlt Hok; [discriminate |].
  cbn [parse_member_names_loop] in H.
  apply bind_Ok in H as (? & s1 & _ & H).
  apply bind_Ok in H as (tkn & s2 & _ & H).
  apply bind_Ok in H as (? & s3 & Hlegal & H).
  apply when_parse_error_Ok in Hlegal as [Hlegal _].
  apply Bool.negb_false_iff in Hlegal.
  apply bind_Ok in H as (? & s4 & Hdup & H).
  apply when_semantic_error_Ok in Hdup as [Hdup _].
  destruct (lcm_find_member lr tkn) eqn:Hfind; [discriminate |].
  apply lcm_find_member_None in Hfind.
  apply bind_Ok in H as (lr1 & s5 & Hdims & H).
  unfold with_fuel, g_ptr_array_size, g_ptr_array_add in Hdims.
  set (lm := {| type := lt; membername := tkn;
                dimensions := dimensions lcm_member_create |}) in Hdims.
  assert (Hlm : member_ok (members lr) lm).
  { repeat split; auto. }
  destruct (parse_dimensions_loop_ok (members lr) _ _ _ _ _ lm Hdims eq_refl Hlm)
    as (Hsn & Hlf & m' & Hms' & Hm' & Hn & Ht).
  cbn [structname struct_lcmfile set_members] in Hsn, Hlf.
  assert (Hok1 : members_ok [] (members lr1)).
  { rewrite Hms'. apply members_ok_app. auto. }
  apply bind_Ok in H as (more & s6 & _ & H). destruct more.
  - destruct (IH _ _ _ _ H Hlt Hok1) as (Hsn2 & Hlf2 & Hok2 & added & _ & Hadd & Hty).
    split; [congruence | split; [congruence | split; [exact Hok2 |]]].
    exists (m' :: added). split; [discriminate |].
    split; [rewrite Hadd, Hms', <- app_assoc; reflexivity |].
    constructor; assumption.
  - apply ret_Ok in H as [<- _].
    split; [exact Hsn | split; [exact Hlf | split; [exact Hok1 |]]].
    exists [m']. split; [discriminate |]. split; [exact Hms' |].
    constructor; [exact Ht | constructor].
Qed.

(** A member declaration adds one member for each of its names, all of the
    declared type, after the members there were, which it leaves as they
    are. *)
Lemma parse_member_ok lr s lr' s' :
  parse_member lr s = Ok lr' s' ->
  members_ok [] (members lr) ->
  structname lr' = structname lr /\ struct_lcmfile lr' = struct_lcmfile lr
  /\ members_ok [] (members lr')
  /\ exists lt added, added <> [] /\ members lr' = members lr ++ added
                      /\ Forall (fun m => type m = lt) added.
Proof.
  unfold parse_member. intros H Hok.
  apply bind_Ok in H as (? & s1 & _ & H).
  apply bind_Ok in H as (? & s2 & _ & H).
  apply bind_Ok in H as (tkn & s3 & _ & H).
  apply bind_Ok in H as (? & s4 & Hlegal & H).
  apply when_parse_error_Ok in Hlegal as [Hlegal _].
  apply bind_Ok in H as (lr1 & s5 & Hloop & H).
  apply bind_Ok in H as (? & s6 & _ & H).
  apply ret_Ok in H as [<- _].
  unfold with_fuel in Hloop.
  assert (Hlt : lcm_is_legal_member_name (typename (lcm_typename_create tkn)) = true).
  { rewrite typename_lcm_typename_create. unfold lcm_is_legal_member_name.
    destruct (isalpha (first_char tkn)), (Ascii.eqb (first_char tkn) "_");
      simpl in *; congruence. }
  destruct (parse_member_names_loop_ok _ _ _ _ _ _ Hloop Hlt Hok)
    as (Hsn & Hlf & Hok1 & added & Hne & Hadd & Hty).
  repeat split; try assumption. exists (lcm_typename_create tkn), added. auto.
Qed.

Lemma parse_try_consume_true tk s s' :
  parse_try_consume tk s = Ok true s' -> token (tok s') = tk.
Proof.
  unfold parse_try_consume, bind, peek, next, cur_token, tokenize_peek, tokenize_next.
  destruct (pending (tok s)) as [| x rest]; simpl; [discriminate |].
  destruct (String.eqb_spec x tk) as [-> |]; simpl; [| discriminate].
  intros H. injection H as <-. reflexivity.
Qed.

Lemma parse_struct_body_loop_ok fuel : forall lr s lr' s',
  parse_struct_body_loop fuel lr s = Ok lr' s' ->
  members_ok [] (members lr) ->
  structname lr' = structname lr /\ struct_lcmfile lr' = struct_lcmfile lr
  /\ members_ok [] (members lr') /\ token (tok s') = "}".
Proof.
  induction fuel as [| fuel IH]; intros lr s lr' s' H Hok; [discriminate |].
  cbn [parse_struct_body_loop] in H.
  apply bind_Ok in H as (closed & s1 & Hclosed & H). destruct closed.
  - apply ret_Ok in H as [<- <-]. repeat split; auto.
    exact (parse_try_consume_true _ _ _ Hclosed).
  - apply bind_Ok in H as (lr1 & s2 & Hmember & H).
    destruct (parse_member_ok _ _ _ _ Hmember Hok) as (Hsn & Hlf & Hok1 & _).
    destruct (IH _ _ _ _ H Hok1) as (Hsn2 & Hlf2 & Hok2 & Htok).
    repeat split; congruence || assumption.
Qed.

(** Everything [parse_struct] has established when it returns. *)
Lemma parse_struct_well_formed lcmfile s lr s' :
  parse_struct lcmfile s = Ok lr s' ->
  members_ok [] (members lr)
  /\ struct_lcmfile lr = lcmfile
  /\ token (tok s') = "}"
  /\ exists body, pending (tok s) = typename (structname lr) :: "{" :: body.
Proof.
  unfold parse_struct. intros H.
  apply bind_Ok in H as (? & s1 & Hnext & H).
  apply bind_Ok in H as (name & s2 & Hname & H).
  apply bind_Ok in H as (? & s3 & Hbrace & H).
  apply bind_Ok in H as (lr0 & s4 & Hloop & H).
  apply ret_Ok in H as [<- <-].
  unfold with_fuel in Hloop.
  destruct (parse_struct_body_loop_ok _ _ _ _ _ Hloop I) as (Hsn & Hlf & Hok & Htok).
  cbn [members struct_lcmfile structname set_struct_hash].
  rewrite Hsn, Hlf. cbn [structname struct_lcmfile lcm_struct_create].
  rewrite typename_lcm_typename_create.
  repeat split; try assumption.
  unfold require_next, bind, next, tokenize_next in Hnext.
  destruct (pending (tok s)) as [| first rest]; [discriminate |].
  simpl in Hnext. injection Hnext as Hs1.
  unfold cur_token in Hname. injection Hname as <- <-. subst s1.
  unfold parse_require, bind, next, cur_token, tokenize_next in Hbrace.
  cbn [tok pending] in Hbrace.
  destruct rest as [| brace body]; [discriminate |]. simpl in Hbrace.
  destruct (String.eqb_spec brace "{") as [-> |]; [| discriminate].
  exists body. reflexivity.
Qed.

Lemma NoDup_snoc {A} (l : list A) x : NoDup l -> ~ In x l -> NoDup (l ++ [x]).
Proof.
  induction l as [| y l IH]; simpl; intros Hnd Hnin.
  - constructor; [tauto | constructor].
  - inversion Hnd as [| ? ? Hy Hl]; subst. constructor.
    + intros Hin. apply in_app_or in Hin as [Hin | [-> | []]]; tauto.
    + apply IH; tauto.
Qed.

Lemma members_ok_NoDup ms : forall pre,
  members_ok pre ms -> NoDup (map membername pre) ->
  NoDup (map membername (pre ++ ms)).
Proof.
  induction ms as [| m ms IH]; intros pre Hok Hnd.
  - rewrite app_nil_r. exact Hnd.
  - destruct Hok as [(_ & _ & Hfresh & _) Hrest].
    replace (pre ++ m :: ms) with ((pre ++ [m]) ++ ms) by (rewrite <- app_assoc; reflexivity).
    apply IH; [exact Hrest |].
    rewrite map_app. simpl. apply NoDup_snoc; assumption.
Qed.

Lemma members_ok_Forall ms : forall pre,
  members_ok pre ms ->
  Forall (fun m => lcm_is_legal_member_name (membername m) = true
                   /\ lcm_is_legal_member_name (typename (type m)) = true) ms.
Proof.
  induction ms as [| m ms IH]; intros pre Hok; constructor.
  - destruct Hok as [(Hn & Ht & _) _]. auto.
  - destruct Hok as [_ Hrest]. exact (IH _ Hrest).
Qed.

Lemma find_by_unique_name (ms : list lcm_member_t) : forall m,
  NoDup (map membername ms) -> In m ms ->
  find (fun lm => String.eqb (membername lm) (membername m)) ms = Some m.
Proof.
  induction ms as [| x ms IH]; intros m Hnd Hin; [destruct Hin |].
  inversion Hnd as [| ? ? Hx Hms]; subst. simpl.
  destruct (String.eqb_spec (membername x) (membername m)) as [Heq | Hne].
  - destruct Hin as [-> | Hin]; [reflexivity |].
    exfalso. apply Hx. rewrite Heq. apply in_map, Hin.
  - destruct Hin as [-> | Hin]; [congruence |]. apply IH; assumption.
Qed.

(** X2: the members of a parsed struct have pairwise different names, and
    [lcm_find_member] called with the name of a member returns that very
    member. *)
Theorem X2_member_names_unique lcmfile s lr s' :
  parse_struct lcmfile s = Ok lr s' ->
  NoDup (map membername (members lr))
  /\ forall m, In m (members lr) -> lcm_find_member lr (membername m) = Some m.
Proof.
  intros H. apply parse_struct_well_formed in H as (Hok & _).
  assert (Hnd : NoDup (map membername (members lr))).
  { apply (members_ok_NoDup (members lr) [] Hok). constructor. }
  split; [exact Hnd |].
  intros m Hin. apply find_by_unique_name; assumption.
Qed.

Lemma X2_member_names_unique_witness :
  NoDup (map membername (members struct_a))
  /\ lcm_find_member struct_a "data"
     = Some {| type := plain_type "int32_t"; membername := "data";
               dimensions := [ {| mode := LCM_VAR; size := "x" |} ] |}.
Proof.
  assert (H : parse_struct "a.lcm" (after "struct" struct_a_tokens)
              = Ok struct_a (after "}" []))
    by (vm_compute; reflexivity).
  destruct (X2_member_names_unique _ _ _ _ H) as [Hnd Hfind].
  split; [exact Hnd |].
  apply (Hfind {| type := plain_type "int32_t"; membername := "data";
                  dimensions := [ {| mode := LCM_VAR; size := "x" |} ] |}).
  simpl. auto.
Defined.

(** X3: in a parsed struct every member name and every member's type name
    starts with a letter or an underscore. *)
Theorem X3_member_and_type_names_legal lcmfile s lr s' :
  parse_struct lcmfile s = Ok lr s' ->
  Forall (fun m => lcm_is_legal_member_name (membername m) = true
                   /\ lcm_is_legal_member_name (typename (type m)) = true)
    (members lr).
Proof.
  intros H. apply parse_struct_well_formed in H as (Hok & _).
  exact (members_ok_Forall _ _ Hok).
Qed.

Lemma X3_member_and_type_names_legal_witness :
  Forall (fun m => lcm_is_legal_member_name (membername m) = true
                   /\ lcm_is_legal_member_name (typename (type m)) = true)
    (members struct_a).
Proof.
  apply (X3_member_and_type_names_legal "a.lcm" (after "struct" struct_a_tokens)
           struct_a (after "}" [])).
  vm_compute. reflexivity.
Defined.

(** X4: in a parsed struct every dimension of every member is either
    Constant, with a size token that starts with a digit and reads as a
    strictly positive [int], or Variable, with a size token that is a
    legal name and names a member declared before this one that has no
    dimension and an integer type; only the first dimension of a member
    can, instead, name the member itself, which then has an integer
    type. *)
Theorem X4_dimensions_checked lcmfile s lr s' pre m post :
  parse_struct lcmfile s = Ok lr s' ->
  members lr = pre ++ m :: post ->
  dimensions_ok pre m (dimensions m).
Proof.
  intros H Hsplit. apply parse_struct_well_formed in H as (Hok & _).
  destruct (members_ok_split [] _ _ _ _ Hok Hsplit) as (_ & _ & _ & Hdims).
  exact Hdims.
Qed.

Lemma X4_dimensions_checked_witness :
  dimensions_ok
    [ {| type := plain_type "int32_t"; membername := "x"; dimensions := [] |} ]
    {| type := plain_type "int32_t"; membername := "data";
       dimensions := [ {| mode := LCM_VAR; size := "x" |} ] |}
    [ {| mode := LCM_VAR; size := "x" |} ].
Proof.
  apply (X4_dimensions_checked "a.lcm" (after "struct" struct_a_tokens)
           struct_a (after "}" [])
           [ {| type := plain_type "int32_t"; membername := "x"; dimensions := [] |} ]
           {| type := plain_type "int32_t"; membername := "data";
              dimensions := [ {| mode := LCM_VAR; size := "x" |} ] |}
           []).
  - vm_compute. reflexivity.
  - reflexivity.
Defined.

(** X5: [parse_struct] returns only for a source of the form
    [name { ... }]: the struct carries that name and the file it was
    given, and the last token read is the closing brace. *)
Theorem X5_struct_name_and_braces lcmfile s lr s' :
  parse_struct lcmfile s = Ok lr s' ->
  struct_lcmfile lr = lcmfile
  /\ token (tok s') = "}"
  /\ exists body, pending (tok s) = typename (structname lr) :: "{" :: body.
Proof. intros H. apply parse_struct_well_formed in H as (_ & H). exact H. Qed.

Lemma X5_struct_name_and_braces_witness :
  struct_lcmfile struct_a = "a.lcm"
  /\ token (tok (after "}" [])) = "}"
  /\ exists body,
       pending (tok (after "struct" struct_a_tokens))
       = typename (structname struct_a) :: "{" :: body.
Proof.
  apply (X5_struct_name_and_braces "a.lcm" (after "struct" struct_a_tokens)
           struct_a (after "}" [])).
  vm_compute. reflexivity.
Defined.

(** X6: a member declaration that returns has added at least one member,
    every added member has the one declared type, the members there were
    stay as they are in front of the added ones, the struct keeps its name
    and file, and it stays well formed. *)
Theorem X6_member_declaration_appends lr s lr' s' :
  members_ok [] (members lr) ->
  parse_member lr s = Ok lr' s' ->
  structname lr' = structname lr /\ struct_lcmfile lr' = struct_lcmfile lr
  /\ members_ok [] (members lr')
  /\ exists lt added, added <> [] /\ members lr' = members lr ++ added
                      /\ Forall (fun m => type m = lt) added.
Proof. intros Hok H. exact (parse_member_ok _ _ _ _ H Hok). Qed.

Lemma X6_member_declaration_appends_witness :
  exists lt added,
    added <> []
    /\ members (set_members (lcm_struct_create "f.lcm" "s")
                  [ {| type := plain_type "int8_t"; membername := "a"; dimensions := [] |};
                    {| type := plain_type "int8_t"; membername := "b";
                       dimensions := [ {| mode := LCM_CONST; size := "2" |} ] |} ])
       = members (lcm_struct_create "f.lcm" "s") ++ added
    /\ Forall (fun m => type m = lt) added.
Proof.
  refine (proj2 (proj2 (proj2
            (X6_member_declaration_appends (lcm_struct_create "f.lcm" "s")
               (after "{" ["int8_t"; "a"; ","; "b"; "["; "2"; "]"; ";"; "}"])
               _ (after ";" ["}"]) I _)))).
  vm_compute. reflexivity.
Defined.

(** ** Arrays of constant size *)

Lemma legal_name_not_digit t :
  lcm_is_legal_member_name t = true -> isdigit (first_char t) = false.
Proof.
  unfold lcm_is_legal_member_name.
  destruct (first_char t) as [[] [] [] [] [] [] [] []]; vm_compute; congruence.
Qed.

Lemma constant_size_loop_spec dims :
  constant_size_loop dims = 1 /\ Forall (fun d => mode d = LCM_CONST) dims
  \/ constant_size_loop dims = 0 /\ Exists (fun d => mode d = LCM_VAR) dims.
Proof.
  induction dims as [| d dims IH]; simpl.
  - left. auto.
  - destruct (mode d) eqn:Hmode.
    + destruct IH as [[-> Hall] | [-> Hex]]; [left | right]; auto.
    + right. auto.
Qed.

Lemma dimension_ok_digit pre m first d :
  dimension_ok pre m first d ->
  (mode d = LCM_CONST <-> isdigit (first_char (size d)) = true).
Proof.
  unfold dimension_ok. destruct (mode d).
  - intros [Hd _]. tauto.
  - intros [Hl _]. apply legal_name_not_digit in Hl. rewrite Hl.
    split; discriminate.
Qed.

Lemma dimensions_ok_digit pre m ds :
  dimensions_ok pre m ds ->
  Forall (fun d => mode d = LCM_CONST <-> isdigit (first_char (size d)) = true) ds.
Proof.
  destruct ds as [| d ds]; simpl; [constructor |].
  intros [Hd Hds]. constructor.
  - exact (dimension_ok_digit _ _ _ _ Hd).
  - eapply Forall_impl; [| exact Hds]. intros d'. apply dimension_ok_digit.
Qed.

(** X7: [lcm_is_constant_size_array] returns 0 or 1; for a member of a
    parsed struct it returns 1 exactly when every size token of the member
    starts with a digit, and so it returns 1, not zero, for a member that
    is not an array. *)
Theorem X7_constant_size_array lcmfile s lr s' m :
  parse_struct lcmfile s = Ok lr s' ->
  In m (members lr) ->
  (lcm_is_constant_size_array m = 0 \/ lcm_is_constant_size_array m = 1)
  /\ (lcm_is_constant_size_array m = 1
      <-> Forall (fun d => isdigit (first_char (size d)) = true) (dimensions m))
  /\ (dimensions m = [] -> lcm_is_constant_size_array m = 1).
Proof.
  intros H Hin. apply in_split in Hin as (pre & post & Hsplit).
  apply parse_struct_well_formed in H as (Hok & _).
  destruct (members_ok_split [] _ _ _ _ Hok Hsplit) as (_ & _ & _ & Hdims).
  apply dimensions_ok_digit in Hdims.
  assert (Heq : lcm_is_constant_size_array m = constant_size_loop (dimensions m)).
  { unfold lcm_is_constant_size_array, g_ptr_array_size.
    destruct (dimensions m); reflexivity. }
  rewrite Heq. split; [| split].
  - destruct (constant_size_loop_spec (dimensions m)) as [[-> _] | [-> _]]; auto.
  - destruct (constant_size_loop_spec (dimensions m)) as [[-> Hall] | [-> Hex]].
    + split; [intros _ | reflexivity].
      rewrite Forall_forall in *. intros d Hd. apply (Hdims d Hd), Hall, Hd.
    + split; [discriminate |]. intros Hall. exfalso.
      apply Exists_exists in Hex as (d & Hd & Hvar).
      rewrite Forall_forall in *.
      pose proof (proj2 (Hdims d Hd) (Hall d Hd)). congruence.
  - intros ->. reflexivity.
Qed.

Lemma X7_constant_size_array_witness :
  lcm_is_constant_size_array
    {| type := plain_type "int32_t"; membername := "x"; dimensions := [] |} = 1.
Proof.
  refine (proj2 (proj2
            (X7_constant_size_array "a.lcm" (after "struct" struct_a_tokens)
               struct_a (after "}" [])
               {| type := plain_type "int32_t"; membername := "x"; dimensions := [] |}
               _ _)) eq_refl).
  - vm_compute. reflexivity.
  - simpl. auto.
Defined.

(** ** Well-formed enums *)

Lemma check_enum_duplicates_Ok vs lev s u s' :
  check_enum_duplicates vs lev s = Ok u s' ->
  s' = s
  /\ forall tmp, In tmp vs -> value tmp <> value lev /\ valuename tmp <> valuename lev.
Proof.
  induction vs as [| tmp vs IH]; simpl.
  - intros H. apply ret_Ok in H as [_ <-]. split; [reflexivity | tauto].
  - unfold bind, when.
    destruct (Z.eqb_spec (value tmp) (value lev)) as [| Hv]; [discriminate |].
    destruct (String.eqb_spec (valuename tmp) (valuename lev)) as [| Hn];
      [discriminate |].
    simpl. intros H. apply IH in H as [-> Hfresh]. split; [reflexivity |].
    intros tmp' [<- | Hin]; auto.
Qed.

(** What [parse_enum_value] has established when it returns. *)
Lemma parse_enum_value_Ok le s le' s' :
  parse_enum_value le s = Ok le' s' ->
  enumname le' = enumname le /\ enum_lcmfile le' = enum_lcmfile le
  /\ exists lev, values le' = values le ++ [lev]
                 /\ fresh_enum_value le lev /\ in_int32 (value lev).
Proof.
  unfold parse_enum_value. intros H.
  apply bind_Ok in H as (? & s1 & _ & H).
  apply bind_Ok in H as (tkn & s2 & _ & H).
  apply bind_Ok in H as (has_literal & s3 & _ & H).
  apply bind_Ok in H as (v & s4 & Hv & H).
  apply bind_Ok in H as (? & s5 & Hcheck & H).
  apply ret_Ok in H as [<- _].
  apply check_enum_duplicates_Ok in Hcheck as [_ Hfresh].
  repeat split. eexists. split; [reflexivity |]. split; [exact Hfresh |].
  cbn [value]. destruct has_literal.
  - apply bind_Ok in Hv as (? & ? & _ & Hv).
    apply bind_Ok in Hv as (lit & ? & _ & Hv).
    apply ret_Ok in Hv as [<- _]. apply to_int32_range.
  - apply ret_Ok in Hv as [<- _]. apply to_int32_range.
Qed.

Lemma parse_enum_body_loop_ok fuel : forall le s le' s',
  parse_enum_body_loop fuel le s = Ok le' s' ->
  NoDup (map valuename (values le)) -> NoDup (map value (values le)) ->
  Forall (fun lev => in_int32 (value lev)) (values le) ->
  enumname le' = enumname le /\ enum_lcmfile le' = enum_lcmfile le
  /\ NoDup (map valuename (values le')) /\ NoDup (map value (values le'))
  /\ Forall (fun lev => in_int32 (value lev)) (values le')
  /\ (exists added, values le' = values le ++ added)
  /\ token (tok s') = "}".
Proof.
  induction fuel as [| fuel IH]; intros le s le' s' H Hn Hv Hr; [discriminate |].
  cbn [parse_enum_body_loop] in H.
  apply bind_Ok in H as (closed & s1 & Hclosed & H). destruct closed.
  - apply ret_Ok in H as [<- <-]. repeat split; auto.
    + exists []. now rewrite app_nil_r.
    + exact (parse_try_consume_true _ _ _ Hclosed).
  - apply bind_Ok in H as (le1 & s2 & Hvalue & H).
    apply bind_Ok in H as (? & s3 & _ & H).
    apply bind_Ok in H as (? & s4 & _ & H).
    apply parse_enum_value_Ok in Hvalue as (Hen & Hlf & lev & Hvals & Hfresh & Hrange).
    assert (Hn1 : NoDup (map valuename (values le1))).
    { rewrite Hvals, map_app. simpl. apply NoDup_snoc; [exact Hn |].
      intros Hin. apply in_map_iff in Hin as (tmp & Heq & Hin).
      exact (proj2 (Hfresh tmp Hin) Heq). }
    assert (Hv1 : NoDup (map value (values le1))).
    { rewrite Hvals, map_app. simpl. apply NoDup_snoc; [exact Hv |].
      intros Hin. apply in_map_iff in Hin as (tmp & Heq & Hin).
      exact (proj1 (Hfresh tmp Hin) Heq). }
    assert (Hr1 : Forall (fun lev => in_int32 (value lev)) (values le1)).
    { rewrite Hvals. apply Forall_app. split; [exact Hr |].
      constructor; [exact Hrange | constructor]. }
    destruct (IH _ _ _ _ H Hn1 Hv1 Hr1)
      as (Hen2 & Hlf2 & Hn2 & Hv2 & Hr2 & (added & Hadd) & Htok).
    repeat split; try congruence; try assumption.
    exists (lev :: added). rewrite Hadd, Hvals, <- app_assoc. reflexivity.
Qed.

(** Everything [parse_enum] has established when it returns. *)
Lemma parse_enum_well_formed lcmfile s le s' :
  parse_enum lcmfile s = Ok le s' ->
  NoDup (map valuename (values le))
  /\ NoDup (map value (values le))
  /\ Forall (fun lev => in_int32 (value lev)) (values le)
  /\ enum_lcmfile le = lcmfile
  /\ token (tok s') = "}"
  /\ exists body, pending (tok s) = typename (enumname le) :: "{" :: body.
Proof.
  unfold parse_enum. intros H.
  apply bind_Ok in H as (? & s1 & Hnext & H).
  apply bind_Ok in H as (name & s2 & Hname & H).
  apply bind_Ok in H as (? & s3 & Hbrace & H).
  apply bind_Ok in H as (le0 & s4 & Hloop & H).
  apply ret_Ok in H as [<- <-].
  unfold with_fuel in Hloop.
  destruct (parse_enum_body_loop_ok _ _ _ _ _ Hloop
              ltac:(constructor) ltac:(constructor) ltac:(constructor))
    as (Hen & Hlf & Hn & Hv & Hr & _ & Htok).
  cbn [values enum_lcmfile enumname set_enum_hash].
  rewrite Hen, Hlf. cbn [enumname enum_lcmfile lcm_enum_create].
  rewrite typename_lcm_typename_create.
  repeat split; try assumption.
  unfold require_next, bind, next, tokenize_next in Hnext.
  destruct (pending (tok s)) as [| first rest]; [discriminate |].
  simpl in Hnext. injection Hnext as Hs1.
  unfold cur_token in Hname. injection Hname as <- <-. subst s1.
  unfold parse_require, bind, next, cur_token, tokenize_next in Hbrace.
  cbn [tok pending] in Hbrace.
  destruct rest as [| brace body]; [discriminate |]. simpl in Hbrace.
  destruct (String.eqb_spec brace "{") as [-> |]; [| discriminate].
  exists body. reflexivity.
Qed.

(** X8: in a parsed enum the value names are pairwise different, the
    numbers are pairwise different and every number is a signed 32-bit
    integer; the enum carries the name that follows [enum] and the file it
    was given, and the last token read is the closing brace. *)
Theorem X8_enum_values_unique lcmfile s le s' :
  parse_enum lcmfile s = Ok le s' ->
  NoDup (map valuename (values le))
  /\ NoDup (map value (values le))
  /\ Forall (fun lev => in_int32 (value lev)) (values le)
  /\ enum_lcmfile le = lcmfile
  /\ token (tok s') = "}"
  /\ exists body, pending (tok s) = typename (enumname le) :: "{" :: body.
Proof. apply parse_enum_well_formed. Qed.

Lemma X8_enum_values_unique_witness :
  NoDup (map valuename
           [ {| valuename := "RED"; value := 1 |};
             {| valuename := "GREEN"; value := 5 |};
             {| valuename := "BLUE"; value := 6 |} ])
  /\ NoDup (map value
              [ {| valuename := "RED"; value := 1 |};
                {| valuename := "GREEN"; value := 5 |};
                {| valuename := "BLUE"; value := 6 |} ]).
Proof.
  assert (H : parse_enum "e.lcm" (after "enum" enum_Color_tokens)
              = Ok (enum_of "Color"
                      [ {| valuename := "RED"; value := 1 |};
                        {| valuename := "GREEN"; value := 5 |};
                        {| valuename := "BLUE"; value := 6 |} ]
                      4837153261963018919)
                   (after "}" []))
    by (vm_compute; reflexivity).
  destruct (X8_enum_values_unique _ _ _ _ H) as (Hn & Hv & _).
  split; [exact Hn | exact Hv].
Defined.

Lemma check_enum_duplicates_by_name vs lev s :
  (forall tmp, In tmp vs -> value tmp <> value lev) ->
  check_enum_duplicates vs lev s
  = if existsb (fun tmp => String.eqb (valuename tmp) (valuename lev)) vs
    then Exit (SemanticError "Enum value %s declared twice!" [FStr (valuename lev)]) s
    else Ok tt s.
Proof.
  induction vs as [| tmp vs IH]; intros Hv; simpl; [reflexivity |].
  unfold bind, when.
  pose proof (Hv tmp (or_introl eq_refl)) as Hne. apply Z.eqb_neq in Hne.
  rewrite Hne. simpl.
  destruct (String.eqb_spec (valuename tmp) (valuename lev)) as [-> | _]; simpl.
  - reflexivity.
  - apply IH. intros tmp' Hin. apply Hv. right. exact Hin.
Qed.

(** X9: while every earlier number of the enum is below the largest
    32-bit integer, a value declared without a literal gets a number that
    is at least 1 and above every earlier number, so it can never collide
    by number: the declaration is refused exactly when its name is already
    taken, with "Enum value %s declared twice!". *)
Theorem X9_auto_value_never_collides le s name nxt rest :
  pending (tok s) = name :: nxt :: rest -> nxt <> "=" ->
  (forall tmp, In tmp (values le) -> value tmp < 2 ^ 31 - 1) ->
  1 <= running_max (values le) + 1
  /\ (forall tmp, In tmp (values le) -> value tmp < running_max (values le) + 1)
  /\ parse_enum_value le s
     = if existsb (fun tmp => String.eqb (valuename tmp) name) (values le)
       then Exit (SemanticError "Enum value %s declared twice!" [FStr name])
              (at_token s nxt (nxt :: rest))
       else Ok (set_values le
                  (values le
                   ++ [ {| valuename := name; value := running_max (values le) + 1 |} ]))
              (at_token s nxt (nxt :: rest)).
Proof.
  intros E Hne Hbelow.
  destruct (running_max_spec (values le)) as (H0 & Hle & Hmax).
  assert (Hlt : running_max (values le) < 2 ^ 31 - 1).
  { destruct Hmax as [-> | (tmp & Hin & <-)]; [reflexivity | auto]. }
  assert (Hup : forall tmp, In tmp (values le) -> value tmp < running_max (values le) + 1).
  { intros tmp Hin. specialize (Hle tmp Hin). lia. }
  split; [lia | split; [exact Hup |]].
  rewrite (parse_enum_value_auto le s name nxt rest E Hne). cbv zeta.
  rewrite enum_max_running_max, to_int32_small by (unfold in_int32; lia).
  unfold bind. rewrite check_enum_duplicates_by_name.
  - cbn [valuename].
    destruct (existsb (fun tmp => String.eqb (valuename tmp) name) (values le));
      reflexivity.
  - cbn [value]. intros tmp Hin. specialize (Hup tmp Hin). lia.
Qed.

Lemma X9_auto_value_never_collides_witness :
  parse_enum_value
    (enum_of "Color" [ {| valuename := "RED"; value := 1 |};
                       {| valuename := "GREEN"; value := 5 |} ] 0)
    (after "," ["RED"; "}"])
  = Exit (SemanticError "Enum value %s declared twice!" [FStr "RED"]) (after "}" ["}"]).
Proof.
  refine (proj2 (proj2
            (X9_auto_value_never_collides
               (enum_of "Color" [ {| valuename := "RED"; value := 1 |};
                                  {| valuename := "GREEN"; value := 5 |} ] 0)
               (after "," ["RED"; "}"]) "RED" "}" [] eq_refl _ _))).
  - discriminate.
  - simpl. intros tmp [<- | [<- | []]]; reflexivity.
Defined.

(** ** Member declarations that declare a type *)

(** X10: a member declaration that begins with [struct], [enum] or [union]
    always ends the run with the fatal parse error "recursive ...s not
    implemented.", whatever follows the keyword. *)
Theorem X10_inline_declarations_refused lr s kw rest :
  pending (tok s) = kw :: rest ->
  kw = "struct" \/ kw = "enum" \/ kw = "union" ->
  parse_member lr s
  = Exit (ParseError ("recursive " ++ kw ++ "s not implemented.")%string [])
         (at_token s kw rest).
Proof.
  intros E Hkw. unfold parse_member. unfold bind at 1. unfold bind at 1.
  destruct Hkw as [-> | [-> | ->]].
  - rewrite (parse_try_consume_match "struct" s rest E). reflexivity.
  - rewrite (parse_try_consume_other "struct" s "enum" rest E ltac:(discriminate)).
    unfold bind at 1.
    rewrite (parse_try_consume_match "enum" (at_token s "enum" ("enum" :: rest)) rest
               eq_refl).
    reflexivity.
  - rewrite (parse_try_consume_other "struct" s "union" rest E ltac:(discriminate)).
    unfold bind at 1.
    rewrite (parse_try_consume_other "enum" (at_token s "union" ("union" :: rest))
               "union" rest eq_refl ltac:(discriminate)).
    unfold bind at 1.
    rewrite (parse_try_consume_match "union"
               (at_token (at_token s "union" ("union" :: rest)) "union" ("union" :: rest))
               rest eq_refl).
    reflexivity.
Qed.

Lemma X10_inline_declarations_refused_witness :
  parse_member (lcm_struct_create "f.lcm" "s")
    (after "{" ["enum"; "e"; "{"; "A"; "}"; "x"; ";"; "}"])
  = Exit (ParseError "recursive enums not implemented." [])
         (after "enum" ["e"; "{"; "A"; "}"; "x"; ";"; "}"]).
Proof.
  exact (X10_inline_declarations_refused (lcm_struct_create "f.lcm" "s")
           (after "{" ["enum"; "e"; "{"; "A"; "}"; "x"; ";"; "}"])
           "enum" ["e"; "{"; "A"; "}"; "x"; ";"; "}"] eq_refl
           (or_intror (or_introl eq_refl))).
Defined.

(** ** Whole runs *)

Lemma last_cons_default {A} (l : list A) x d : last (x :: l) d = last l x.
Proof.
  revert x d. induction l as [| y l IH]; intros x d; [reflexivity |].
  change (last (x :: y :: l) d) with (last (y :: l) d).
  rewrite (IH y d). symmetry. apply (IH y x).
Qed.

Lemma dump_tokens_loop_all fuel : forall g tk toks,
  (List.length toks < fuel)%nat ->
  dump_tokens_loop fuel (state_of g tk toks) = Ok tt (state_of g (last toks tk) []).
Proof.
  induction fuel as [| fuel IH]; intros g tk toks Hfuel; [lia |].
  destruct toks as [| x rest].
  - reflexivity.
  - rewrite last_cons_default.
    cbn [dump_tokens_loop]. unfold bind, next. simpl.
    change {| lcmgen := g; tok := {| token := x; pending := rest |} |}
      with (state_of g x rest).
    rewrite IH by (simpl in Hfuel; lia).
    reflexivity.
Qed.

(** X11: with the option [tokenize] set, [lcmgen_handle_file] reads every
    token of the file, whatever the tokens are, returns 0 and leaves the
    registry as it was: the grammar is not applied. *)
Theorem X11_tokenize_mode_reads_everything g path toks :
  gopt g "tokenize" = true ->
  lcmgen_handle_file g path (Some toks) = Ok 0 (state_of g (last toks "") []).
Proof.
  intros Hopt. unfold lcmgen_handle_file. rewrite Hopt.
  unfold bind, with_fuel, tokenize_create.
  change {| lcmgen := g; tok := {| token := ""; pending := toks |} |}
    with (state_of g "" toks).
  rewrite dump_tokens_loop_all by (unfold remaining; simpl; lia).
  reflexivity.
Qed.

Lemma X11_tokenize_mode_reads_everything_witness :
  lcmgen_handle_file
    {| gopt := fun name => String.eqb name "tokenize"; structs := []; enums := [] |}
    "f.lcm" (Some ["struct"; "}"; "union"])
  = Ok 0 (state_of {| gopt := fun name => String.eqb name "tokenize";
                      structs := []; enums := [] |} "union" []).
Proof.
  exact (X11_tokenize_mode_reads_everything
           {| gopt := fun name => String.eqb name "tokenize"; structs := []; enums := [] |}
           "f.lcm" ["struct"; "}"; "union"] eq_refl).
Defined.

Lemma registry_grows_refl path g : registry_grows path g g.
Proof.
  split; [reflexivity |]. exists [], []. rewrite !app_nil_r. auto.
Qed.

Lemma registry_grows_trans path g1 g2 g3 :
  registry_grows path g1 g2 -> registry_grows path g2 g3 -> registry_grows path g1 g3.
Proof.
  intros (Ho1 & ss1 & es1 & Hs1 & He1 & Fs1 & Fe1) (Ho2 & ss2 & es2 & Hs2 & He2 & Fs2 & Fe2).
  split; [congruence |]. exists (ss1 ++ ss2), (es1 ++ es2).
  rewrite Hs2, Hs1, He2, He1, <- !app_assoc.
  repeat split; apply Forall_app; auto.
Qed.

(** What one call of [parse_entity] that returns has done. *)
Lemma parse_entity_Ok path s r s1 :
  parse_entity path s = Ok r s1 ->
  (r = EOF /\ pending (tok s) = [] /\ pending (tok s1) = [] /\ lcmgen s1 = lcmgen s)
  \/ (r = 0 /\ (remaining s1 < remaining s)%nat
      /\ registry_grows path (lcmgen s) (lcmgen s1)).
Proof.
  unfold parse_entity. unfold bind at 1, next, tokenize_next.
  destruct (pending (tok s)) as [| x rest] eqn:E.
  - simpl. intros H. apply ret_Ok in H as [<- <-]. left. simpl. auto.
  - cbn iota beta. change (0 =? EOF) with false. cbn iota.
    unfold bind at 1, cur_token. cbn [tok token].
    set (s0 := {| lcmgen := lcmgen s; tok := {| token := x; pending := rest |} |}).
    assert (Hrem0 : (remaining s0 < remaining s)%nat)
      by (unfold remaining; rewrite E; simpl; lia).
    destruct (String.eqb x "struct").
    { intros H. apply bind_Ok in H as (lr & s2 & Hparse & H).
      pose proof (keeps_parse_struct path s0) as Hk. unfold keeps in Hk.
      rewrite Hparse in Hk. destruct Hk as [Hreg Hrem].
      unfold bind, add_struct, ret in H. injection H as <- <-.
      right. split; [reflexivity |]. split; [unfold remaining in *; simpl; lia |].
      cbn [lcmgen]. rewrite Hreg. cbn [lcmgen s0].
      split; [reflexivity |]. exists [lr], []. cbn [structs enums].
      rewrite app_nil_r.
      pose proof (parse_struct_stores_hash _ _ _ _ Hparse) as Hhash.
      apply parse_struct_well_formed in Hparse as (Hok & Hfile & _).
      split; [reflexivity | split; [reflexivity |]].
      split; [| constructor]. constructor; [| constructor]. auto. }
    destruct (String.eqb x "enum").
    { intros H. apply bind_Ok in H as (le & s2 & Hparse & H).
      pose proof (keeps_parse_enum path s0) as Hk. unfold keeps in Hk.
      rewrite Hparse in Hk. destruct Hk as [Hreg Hrem].
      unfold bind, add_enum, ret in H. injection H as <- <-.
      right. split; [reflexivity |]. split; [unfold remaining in *; simpl; lia |].
      cbn [lcmgen]. rewrite Hreg. cbn [lcmgen s0].
      split; [reflexivity |]. exists [], [le]. cbn [structs enums].
      rewrite app_nil_r.
      pose proof (parse_enum_stores_hash _ _ _ _ Hparse) as Hhash.
      apply parse_enum_well_formed in Hparse as (_ & _ & _ & Hfile & _).
      split; [reflexivity | split; [reflexivity |]].
      split; [constructor |]. constructor; [| constructor]. auto. }
    destruct (String.eqb x "union"); discriminate.
Qed.

Lemma handle_file_loop_Ok path fuel : forall s u s',
  handle_file_loop path fuel s = Ok u s' ->
  pending (tok s') = [] /\ registry_grows path (lcmgen s) (lcmgen s').
Proof.
  induction fuel as [| fuel IH]; intros s u s' H; [discriminate |].
  cbn [handle_file_loop] in H.
  apply bind_Ok in H as (r & s1 & Hentity & H).
  apply parse_entity_Ok in Hentity as [(-> & _ & Hend & Hreg) | (-> & _ & Hgrow)].
  - simpl in H. apply ret_Ok in H as [_ <-].
    split; [exact Hend |]. rewrite Hreg. apply registry_grows_refl.
  - simpl in H. apply IH in H as [Hend Hgrow2].
    split; [exact Hend |]. exact (registry_grows_trans _ _ _ _ Hgrow Hgrow2).
Qed.

Lemma handle_file_loop_Exit_grows path fuel : forall s d s',
  handle_file_loop path fuel s = Exit d s' ->
  registry_grows path (lcmgen s) (lcmgen s').
Proof.
  induction fuel as [| fuel IH]; intros s d s' H; [discriminate |].
  cbn [handle_file_loop] in H.
  apply bind_Exit in H as [H | (r & s1 & Hentity & H)].
  - pose proof (parse_entity_cases path s) as Hc. rewrite H in Hc.
    rewrite Hc. apply registry_grows_refl.
  - apply parse_entity_Ok in Hentity as [(-> & _) | (-> & _ & Hgrow)].
    + discriminate.
    + simpl in H. apply IH in H.
      exact (registry_grows_trans _ _ _ _ Hgrow H).
Qed.

(** X12: a run of [lcmgen_handle_file] on a file that could be opened
    returns only 0, and only after it has read every token of the file. *)
Theorem X12_successful_run_reads_whole_file g path toks r s' :
  lcmgen_handle_file g path (Some toks) = Ok r s' ->
  r = 0 /\ pending (tok s') = [].
Proof.
  unfold lcmgen_handle_file. intros H.
  destruct (gopt g "tokenize").
  - apply bind_Ok in H as (u & s1 & Hloop & H). apply ret_Ok in H as [<- <-].
    split; [reflexivity |].
    unfold with_fuel, tokenize_create in Hloop.
    change {| lcmgen := g; tok := {| token := ""; pending := toks |} |}
      with (state_of g "" toks) in Hloop.
    rewrite dump_tokens_loop_all in Hloop by (unfold remaining; simpl; lia).
    injection Hloop as _ <-. reflexivity.
  - apply bind_Ok in H as (u & s1 & Hloop & H). apply ret_Ok in H as [<- <-].
    split; [reflexivity |].
    exact (proj1 (handle_file_loop_Ok _ _ _ _ _ Hloop)).
Qed.

Lemma X12_successful_run_reads_whole_file_witness :
  (0 = 0 /\ pending (tok (state_of {| gopt := fun _ => false;
                                      structs := [struct_a]; enums := [] |} "}" [])) = []).
Proof.
  apply (X12_successful_run_reads_whole_file lcmgen_create "a.lcm"
           ("struct" :: struct_a_tokens)).
  vm_compute. reflexivity.
Defined.

(** X13: whether a run of [lcmgen_handle_file] returns or ends in a fatal
    diagnostic, the registry it leaves is the one it was given with structs
    and enums appended: nothing that was registered is removed, changed or
    reordered, the options stay, and every appended entity is complete,
    with the file name, its hash and, for a struct, well-formed members. *)
Theorem X13_registry_only_grows g path toks :
  match lcmgen_handle_file g path (Some toks) with
  | Ok _ s' => registry_grows path g (lcmgen s')
  | Exit _ s' => registry_grows path g (lcmgen s')
  | OutOfFuel => False
  end.
Proof.
  pose proof (lcmgen_handle_file_terminates g path (Some toks)) as Hterm.
  destruct (lcmgen_handle_file g path (Some toks)) as [r s' | d s' |] eqn:H;
    [| | congruence].
  - unfold lcmgen_handle_file in H. destruct (gopt g "tokenize") eqn:Hopt.
    + apply bind_Ok in H as (u & s1 & Hloop & H). apply ret_Ok in H as [_ <-].
      unfold with_fuel, tokenize_create in Hloop.
      change {| lcmgen := g; tok := {| token := ""; pending := toks |} |}
        with (state_of g "" toks) in Hloop.
      rewrite dump_tokens_loop_all in Hloop by (unfold remaining; simpl; lia).
      injection Hloop as _ <-. apply registry_grows_refl.
    + apply bind_Ok in H as (u & s1 & Hloop & H). apply ret_Ok in H as [_ <-].
      exact (proj2 (handle_file_loop_Ok _ _ _ _ _ Hloop)).
  - unfold lcmgen_handle_file in H. destruct (gopt g "tokenize") eqn:Hopt.
    + apply bind_Exit in H as [H | (a & s1 & _ & H)]; [| discriminate].
      exfalso. exact (dump_tokens_loop_no_Exit _ _ _ _ H).
    + apply bind_Exit in H as [H | (a & s1 & _ & H)]; [| discriminate].
      exact (handle_file_loop_Exit_grows _ _ _ _ _ H).
Qed.

(** X14: every parser loop consumes at least one token in each turn, so a
    run of [lcmgen_handle_file] over any file always ends: it returns or it
    exits with a fatal diagnostic, and each entity that [parse_entity]
    registers has consumed at least one token. *)
Theorem X14_run_always_ends g path file :
  lcmgen_handle_file g path file <> OutOfFuel
  /\ forall s, match parse_entity path s with
               | Ok r s1 => r = EOF \/ (remaining s1 < remaining s)%nat
               | Exit _ _ => True
               | OutOfFuel => False
               end.
Proof.
  split; [apply lcmgen_handle_file_terminates |].
  intros s. pose proof (parse_entity_cases path s) as Hc.
  destruct (parse_entity path s); [| exact I | exact Hc].
  destruct Hc as [[-> _] | (_ & Hrem & _)]; auto.
Qed.

(** ** Hashes of extended structs *)

(** X15: the hash of a struct extended by further members is the rolling
    hash continued from the hash of the struct over the feed of the added
    members; so two structs extended by the same members have the same
    hash exactly when they had the same hash before. *)
Theorem X15_hash_of_extended_struct lr1 lr2 lr1' lr2' added :
  members lr1' = members lr1 ++ added ->
  members lr2' = members lr2 ++ added ->
  lcm_struct_hash lr1' = rolling_hash (lcm_struct_hash lr1) (struct_feed added)
  /\ (lcm_struct_hash lr1' = lcm_struct_hash lr2'
      <-> lcm_struct_hash lr1 = lcm_struct_hash lr2).
Proof.
  intros H1 H2.
  assert (Hext : forall lr lr', members lr' = members lr ++ added ->
            lcm_struct_hash lr' = rolling_hash (lcm_struct_hash lr) (struct_feed added)).
  { intros lr lr' H. rewrite !lcm_struct_hash_feed, H.
    unfold struct_feed. rewrite flat_map_app. apply rolling_hash_app. }
  split; [exact (Hext _ _ H1) |].
  rewrite (Hext _ _ H1), (Hext _ _ H2). split.
  - apply rolling_hash_inj; rewrite lcm_struct_hash_feed;
      apply rolling_hash_range; unfold in_int64; lia.
  - intros ->. reflexivity.
Qed.

Lemma X15_hash_of_extended_struct_witness :
  lcm_struct_hash struct_a
  = rolling_hash (lcm_struct_hash (one_member_struct "int32_t" "x" 0))
      (struct_feed [ {| type := plain_type "int32_t"; membername := "data";
                        dimensions := [ {| mode := LCM_VAR; size := "x" |} ] |} ]).
Proof.
  exact (proj1 (X15_hash_of_extended_struct
                  (one_member_struct "int32_t" "x" 0) (one_member_struct "int32_t" "x" 0)
                  struct_a struct_a
                  [ {| type := plain_type "int32_t"; membername := "data";
                       dimensions := [ {| mode := LCM_VAR; size := "x" |} ] |} ]
                  eq_refl eq_refl)).
Defined.

(** ** More input behind a well-formed file *)

Lemma carries_ret {A} (a : A) : carries (ret a) (ret a).
Proof. intros s b s' extra H. apply ret_Ok in H as [<- <-]. reflexivity. Qed.

Lemma carries_bind {A B} (m m' : M A) (f f' : A -> M B) :
  carries m m' -> (forall a, carries (f a) (f' a)) -> carries (bind m f) (bind m' f').
Proof.
  intros Hm Hf s b s' extra H.
  apply bind_Ok in H as (a & s1 & E & H).
  unfold bind. rewrite (Hm _ _ _ extra E). exact (Hf a _ _ _ extra H).
Qed.

Lemma carries_out_of_fuel {A} (m' : M A) : carries out_of_fuel m'.
Proof. intros s a s' extra H. discriminate. Qed.

Lemma carries_parse_error {A} fmt args (m' : M A) : carries (parse_error fmt args) m'.
Proof. intros s a s' extra H. discriminate. Qed.

Lemma carries_semantic_error {A} fmt args (m' : M A) :
  carries (semantic_error fmt args) m'.
Proof. intros s a s' extra H. discriminate. Qed.

Lemma carries_when c (m : M unit) : carries m m -> carries (when c m) (when c m).
Proof. destruct c; simpl; [auto | intros _; apply carries_ret]. Qed.

Lemma carries_cur_token : carries cur_token cur_token.
Proof. intros s a s' extra H. injection H as <- <-. reflexivity. Qed.

Lemma carries_require_next description :
  carries (require_next description) (require_next description).
Proof.
  intros s a s' extra. unfold require_next, bind, next, tokenize_next, extend.
  destruct (pending (tok s)) as [| x rest]; simpl; [discriminate |].
  intros H. injection H as <- <-. reflexivity.
Qed.

Lemma carries_parse_require tk : carries (parse_require tk) (parse_require tk).
Proof.
  intros s a s' extra. unfold parse_require, bind, next, cur_token, tokenize_next, extend.
  destruct (pending (tok s)) as [| x rest]; simpl; [discriminate |].
  destruct (String.eqb x tk); simpl; [| discriminate].
  intros H. injection H as <- <-. reflexivity.
Qed.

Lemma carries_parse_try_consume tk : carries (parse_try_consume tk) (parse_try_consume tk).
Proof.
  intros s a s' extra.
  unfold parse_try_consume, bind, peek, next, cur_token, tokenize_peek, tokenize_next,
    extend.
  destruct (pending (tok s)) as [| x rest]; simpl; [discriminate |].
  destruct (String.eqb x tk); simpl; intros H; injection H as <- <-; reflexivity.
Qed.

Lemma carries_with_fuel {A} (loop : nat -> M A) :
  (forall fuel fuel', (fuel <= fuel')%nat -> carries (loop fuel) (loop fuel')) ->
  carries (with_fuel loop) (with_fuel loop).
Proof.
  intros Hloop s a s' extra H. unfold with_fuel in *.
  apply (Hloop (S (remaining s))); [| exact H].
  unfold remaining, extend. simpl. rewrite length_app. lia.
Qed.

Lemma carries_find_array_index ms tkn :
  carries (find_array_index ms tkn) (find_array_index ms tkn).
Proof.
  intros s a s' extra. rewrite !find_array_index_find.
  destruct (find _ ms) as [m |].
  - destruct (negb _); [discriminate |]. destruct (negb _); [discriminate |].
    intros H. injection H as <- <-. reflexivity.
  - intros H. injection H as <- <-. reflexivity.
Qed.

Lemma carries_check_enum_duplicates vs lev :
  carries (check_enum_duplicates vs lev) (check_enum_duplicates vs lev).
Proof.
  intros s a s' extra H. destruct a.
  apply check_enum_duplicates_Ok in H as [-> Hfresh].
  apply check_enum_duplicates_fresh. exact Hfresh.
Qed.

Create HintDb carries.

#[local] Hint Resolve carries_ret carries_out_of_fuel carries_parse_error
  carries_semantic_error carries_cur_token carries_require_next carries_parse_require
  carries_parse_try_consume carries_find_array_index carries_check_enum_duplicates
  : carries.

Ltac carries_step :=
  lazymatch goal with
  | |- carries (bind _ _) (bind _ _) => apply carries_bind; [| intros ?]
  | |- carries (when _ _) (when _ _) => apply carries_when
  | |- carries (if ?c then _ else _) (if ?c then _ else _) => destruct c
  | |- carries (match ?c with Some _ => _ | None => _ end) _ => destruct c
  | |- carries _ _ => solve [auto with carries]
  end.

Lemma carries_parse_dimension lr : carries (parse_dimension lr) (parse_dimension lr).
Proof. unfold parse_dimension. repeat carries_step. Qed.

#[local] Hint Resolve carries_parse_dimension : carries.

Lemma carries_parse_dimensions_loop lmi fuel : forall fuel' lr,
  (fuel <= fuel')%nat ->
  carries (parse_dimensions_loop lmi fuel lr) (parse_dimensions_loop lmi fuel' lr).
Proof.
  induction fuel as [| fuel IH]; intros fuel' lr Hle; [apply carries_out_of_fuel |].
  destruct fuel' as [| fuel']; [lia |].
  cbn [parse_dimensions_loop]. repeat carries_step.
  apply IH. lia.
Qed.

Lemma carries_parse_member_names_loop lt fuel : forall fuel' lr,
  (fuel <= fuel')%nat ->
  carries (parse_member_names_loop lt fuel lr) (parse_member_names_loop lt fuel' lr).
Proof.
  induction fuel as [| fuel IH]; intros fuel' lr Hle; [apply carries_out_of_fuel |].
  destruct fuel' as [| fuel']; [lia |].
  cbn [parse_member_names_loop]. repeat carries_step.
  - apply carries_with_fuel. intros f f' Hf. apply carries_parse_dimensions_loop, Hf.
  - apply IH. lia.
Qed.

Lemma carries_parse_member lr : carries (parse_member lr) (parse_member lr).
Proof.
  unfold parse_member. repeat carries_step.
  apply carries_with_fuel. intros f f' Hf. apply carries_parse_member_names_loop, Hf.
Qed.

Lemma carries_parse_enum_value le : carries (parse_enum_value le) (parse_enum_value le).
Proof. unfold parse_enum_value. repeat carries_step. Qed.

Lemma carries_parse_struct_body_loop fuel : forall fuel' lr,
  (fuel <= fuel')%nat ->
  carries (parse_struct_body_loop fuel lr) (parse_struct_body_loop fuel' lr).
Proof.
  induction fuel as [| fuel IH]; intros fuel' lr Hle; [apply carries_out_of_fuel |].
  destruct fuel' as [| fuel']; [lia |].
  cbn [parse_struct_body_loop]. repeat carries_step.
  - apply carries_parse_member.
  - apply IH. lia.
Qed.

Lemma carries_parse_enum_body_loop fuel : forall fuel' le,
  (fuel <= fuel')%nat ->
  carries (parse_enum_body_loop fuel le) (parse_enum_body_loop fuel' le).
Proof.
  induction fuel as [| fuel IH]; intros fuel' le Hle; [apply carries_out_of_fuel |].
  destruct fuel' as [| fuel']; [lia |].
  cbn [parse_enum_body_loop]. repeat carries_step.
  - apply carries_parse_enum_value.
  - apply IH. lia.
Qed.

Lemma carries_parse_struct lcmfile : carries (parse_struct lcmfile) (parse_struct lcmfile).
Proof.
  unfold parse_struct. repeat carries_step.
  apply carries_with_fuel. intros f f' Hf. apply carries_parse_struct_body_loop, Hf.
Qed.

Lemma carries_parse_enum lcmfile : carries (parse_enum lcmfile) (parse_enum lcmfile).
Proof.
  unfold parse_enum. repeat carries_step.
  apply carries_with_fuel. intros f f' Hf. apply carries_parse_enum_body_loop, Hf.
Qed.

Lemma carries_add_struct lr : carries (add_struct lr) (add_struct lr).
Proof. intros s a s' extra H. injection H as <- <-. reflexivity. Qed.

Lemma carries_add_enum le : carries (add_enum le) (add_enum le).
Proof. intros s a s' extra H. injection H as <- <-. reflexivity. Qed.

(** An entity that was parsed is parsed alike with more tokens behind. *)
Lemma parse_entity_carries path s r s' extra :
  parse_entity path s = Ok r s' -> r <> EOF ->
  parse_entity path (extend s extra) = Ok r (extend s' extra).
Proof.
  intros H Hne.
  assert (Hc : carries
            (tkn <- cur_token ;;
             if String.eqb tkn "struct" then
               lr <- parse_struct path ;; add_struct lr ;; ret 0
             else if String.eqb tkn "enum" then
               le <- parse_enum path ;; add_enum le ;; ret 0
             else if String.eqb tkn "union" then
               parse_error (A := unit) ("unions not implemented" ++ newline)%string [] ;;
               ret 0
             else
               parse_error (A := unit) "Missing struct/enum/union token." [] ;;
               ret (-1))
            (tkn <- cur_token ;;
             if String.eqb tkn "struct" then
               lr <- parse_struct path ;; add_struct lr ;; ret 0
             else if String.eqb tkn "enum" then
               le <- parse_enum path ;; add_enum le ;; ret 0
             else if String.eqb tkn "union" then
               parse_error (A := unit) ("unions not implemented" ++ newline)%string [] ;;
               ret 0
             else
               parse_error (A := unit) "Missing struct/enum/union token." [] ;;
               ret (-1))).
  { repeat carries_step.
    - apply carries_parse_struct.
    - apply carries_add_struct.
    - apply carries_parse_enum.
    - apply carries_add_enum. }
  unfold parse_entity in *.
  apply bind_Ok in H as (res & s0 & Hnext & H).
  unfold next, tokenize_next in Hnext.
  destruct (pending (tok s)) as [| x rest] eqn:E; simpl in Hnext;
    injection Hnext as <- <-.
  - simpl in H. apply ret_Ok in H as [<- _]. congruence.
  - assert (Hnext : next (extend s extra)
                    = Ok 0 (extend {| lcmgen := lcmgen s;
                                      tok := {| token := x; pending := rest |} |} extra)).
    { unfold next, tokenize_next, extend. simpl. rewrite E. reflexivity. }
    rewrite (bind_of_Ok _ _ _ _ _ Hnext).
    exact (Hc _ _ _ extra H).
Qed.

Lemma handle_file_loop_fuel path f1 : forall f2 s,
  (remaining s < f1)%nat -> (remaining s < f2)%nat ->
  handle_file_loop path f1 s = handle_file_loop path f2 s.
Proof.
  induction f1 as [| f1 IH]; intros f2 s H1 H2; [lia |].
  destruct f2 as [| f2]; [lia |].
  cbn [handle_file_loop]. unfold bind.
  pose proof (parse_entity_cases path s) as Hc.
  destruct (parse_entity path s) as [r s1 | d s1 |]; [| reflexivity | reflexivity].
  destruct Hc as [[-> _] | (Hne & Hrem & _)].
  - reflexivity.
  - apply Z.eqb_neq in Hne. rewrite Hne. simpl. apply IH; lia.
Qed.

Lemma handle_file_loop_carries path fuel : forall s u s',
  handle_file_loop path fuel s = Ok u s' ->
  forall extra fuel',
    (remaining s + List.length extra < fuel')%nat ->
    exists fuel'',
      (List.length extra < fuel'')%nat
      /\ handle_file_loop path fuel' (extend s extra)
         = handle_file_loop path fuel'' (extend s' extra).
Proof.
  induction fuel as [| fuel IH]; intros s u s' H extra fuel' Hfuel; [discriminate |].
  cbn [handle_file_loop] in H.
  apply bind_Ok in H as (r & s1 & Hentity & H).
  pose proof (parse_entity_Ok _ _ _ _ Hentity) as [(-> & Hnil & _ & _) | (-> & Hrem & _)].
  - simpl in H. apply ret_Ok in H as [_ <-].
    unfold parse_entity, bind, next, tokenize_next in Hentity.
    rewrite Hnil in Hentity. simpl in Hentity. injection Hentity as <-.
    exists fuel'. split; [lia | reflexivity].
  - simpl in H.
    destruct fuel' as [| fuel']; [lia |].
    destruct (IH _ _ _ H extra fuel' ltac:(lia)) as (fuel'' & Hlt & Heq).
    exists fuel''. split; [exact Hlt |].
    cbn [handle_file_loop]. unfold bind at 1.
    rewrite (parse_entity_carries _ _ _ _ extra Hentity ltac:(discriminate)).
    simpl. exact Heq.
Qed.

Lemma handle_file_loop_token path fuel g tk1 tk2 toks :
  outcome (bind (handle_file_loop path (S fuel)) (fun _ => ret 0) (state_of g tk1 toks))
  = outcome (bind (handle_file_loop path (S fuel)) (fun _ => ret 0) (state_of g tk2 toks)).
Proof.
  destruct toks as [| x rest]; reflexivity.
Qed.

(** X16: when a file is parsed to its end without a fatal diagnostic, the
    same tokens followed by any further tokens give what the further
    tokens alone give with the registry that the file left: the same value
    returned or the same fatal diagnostic, and the same registry. *)
Theorem X16_more_input_behind_a_file g path toks1 toks2 r s1 :
  gopt g "tokenize" = false ->
  lcmgen_handle_file g path (Some toks1) = Ok r s1 ->
  outcome (lcmgen_handle_file g path (Some (toks1 ++ toks2)))
  = outcome (lcmgen_handle_file (lcmgen s1) path (Some toks2)).
Proof.
  intros Hopt H. unfold lcmgen_handle_file in *. rewrite Hopt in *.
  apply bind_Ok in H as (u & s0 & Hloop & H). apply ret_Ok in H as [_ <-].
  unfold with_fuel in Hloop.
  destruct (handle_file_loop_Ok _ _ _ _ _ Hloop) as [Hend (Hgopt & _)].
  cbn [lcmgen] in Hgopt. rewrite Hgopt, Hopt.
  set (st := {| lcmgen := g; tok := tokenize_create toks1 |}) in *.
  assert (Hst : {| lcmgen := g; tok := tokenize_create (toks1 ++ toks2) |}
                = extend st toks2) by reflexivity.
  rewrite Hst.
  unfold bind at 1, with_fuel.
  destruct (handle_file_loop_carries _ _ _ _ _ Hloop toks2
              (S (remaining (extend st toks2))))
    as (fuel'' & Hlt & Heq).
  { unfold remaining, extend, st. simpl. rewrite length_app. lia. }
  rewrite Heq.
  rewrite (handle_file_loop_fuel path fuel'' (S (List.length toks2)) (extend s0 toks2))
    by (unfold remaining, extend; simpl; rewrite Hend; simpl; lia).
  unfold extend. rewrite Hend. cbn [app].
  change {| lcmgen := lcmgen s0; tok := {| token := token (tok s0); pending := toks2 |} |}
    with (state_of (lcmgen s0) (token (tok s0)) toks2).
  pose proof (handle_file_loop_token path (List.length toks2) (lcmgen s0)
                (token (tok s0)) "" toks2) as Htok.
  unfold bind at 1 in Htok. rewrite Htok. reflexivity.
Qed.

Lemma X16_more_input_behind_a_file_witness :
  outcome (lcmgen_handle_file lcmgen_create "a.lcm"
             (Some (("struct" :: struct_a_tokens) ++ ("struct" :: struct_b_tokens))))
  = outcome (lcmgen_handle_file
               {| gopt := fun _ => false; structs := [struct_a]; enums := [] |}
               "a.lcm" (Some ("struct" :: struct_b_tokens))).
Proof.
  refine (X16_more_input_behind_a_file lcmgen_create "a.lcm"
            ("struct" :: struct_a_tokens) ("struct" :: struct_b_tokens) 0
            (state_of {| gopt := fun _ => false; structs := [struct_a]; enums := [] |}
               "}" [])
            eq_refl _).
  vm_compute. reflexivity.
Defined.

(** ** The registry is never consulted *)

Lemma blind_ret {A} (a : A) : blind (ret a).
Proof. intros s1 s2 H. simpl. auto. Qed.

Lemma blind_bind {A B} (m : M A) (f : A -> M B) :
  blind m -> (forall a, blind (f a)) -> blind (bind m f).
Proof.
  intros Hm Hf s1 s2 H. unfold bind. specialize (Hm s1 s2 H).
  destruct (m s1) as [a s1' | d1 s1' |], (m s2) as [b s2' | d2 s2' |]; try tauto.
  destruct Hm as [<- Htok]. exact (Hf a _ _ Htok).
Qed.

Lemma blind_out_of_fuel {A} : blind (@out_of_fuel A).
Proof. intros s1 s2 H. exact I. Qed.

Lemma blind_parse_error {A} fmt args : blind (@parse_error A fmt args).
Proof. intros s1 s2 H. simpl. auto. Qed.

Lemma blind_semantic_error {A} fmt args : blind (@semantic_error A fmt args).
Proof. intros s1 s2 H. simpl. auto. Qed.

Lemma blind_when c (m : M unit) : blind m -> blind (when c m).
Proof. destruct c; simpl; [auto | intros _; apply blind_ret]. Qed.

Lemma blind_cur_token : blind cur_token.
Proof. intros s1 s2 H. simpl. rewrite H. auto. Qed.

Lemma blind_next : blind next.
Proof.
  intros s1 s2 H. unfold next, tokenize_next. rewrite H.
  destruct (pending (tok s2)); simpl; auto.
Qed.

Lemma blind_peek : blind peek.
Proof.
  intros s1 s2 H. unfold peek, tokenize_peek. rewrite H.
  destruct (pending (tok s2)); simpl; auto.
Qed.

Lemma blind_with_fuel {A} (loop : nat -> M A) :
  (forall fuel, blind (loop fuel)) -> blind (with_fuel loop).
Proof.
  intros Hloop s1 s2 H. unfold with_fuel, remaining. rewrite H.
  exact (Hloop _ s1 s2 H).
Qed.

Create HintDb blind.

#[local] Hint Resolve blind_ret blind_out_of_fuel blind_parse_error blind_semantic_error
  blind_cur_token blind_next blind_peek : blind.

Ltac blind_step :=
  lazymatch goal with
  | |- blind (bind _ _) => apply blind_bind; [| intros ?]
  | |- blind (when _ _) => apply blind_when
  | |- blind (if ?c then _ else _) => destruct c
  | |- blind (match ?c with Some _ => _ | None => _ end) => destruct c
  | |- blind _ => solve [auto with blind]
  end.

Lemma blind_parse_try_consume tk : blind (parse_try_consume tk).
Proof. unfold parse_try_consume. repeat blind_step. Qed.

Lemma blind_parse_require tk : blind (parse_require tk).
Proof. unfold parse_require. repeat blind_step. Qed.

Lemma blind_require_next description : blind (require_next description).
Proof. unfold require_next. repeat blind_step. Qed.

#[local] Hint Resolve blind_parse_try_consume blind_parse_require blind_require_next
  : blind.

Lemma blind_find_array_index ms tkn : blind (find_array_index ms tkn).
Proof.
  induction ms as [| thislm ms IH]; simpl; [apply blind_ret |].
  destruct (String.eqb (membername thislm) tkn); [| exact IH].
  repeat blind_step.
Qed.

Lemma blind_check_enum_duplicates vs lev : blind (check_enum_duplicates vs lev).
Proof.
  induction vs as [| tmp vs IH]; simpl; [apply blind_ret |].
  repeat blind_step.
Qed.

#[local] Hint Resolve blind_find_array_index blind_check_enum_duplicates : blind.

Lemma blind_parse_dimension lr : blind (parse_dimension lr).
Proof. unfold parse_dimension. repeat blind_step. Qed.

#[local] Hint Resolve blind_parse_dimension : blind.

Lemma blind_parse_dimensions_loop lmi fuel : forall lr,
  blind (parse_dimensions_loop lmi fuel lr).
Proof.
  induction fuel as [| fuel IH]; intros lr; [apply blind_out_of_fuel |].
  cbn [parse_dimensions_loop]. repeat blind_step.
Qed.

Lemma blind_parse_member_names_loop lt fuel : forall lr,
  blind (parse_member_names_loop lt fuel lr).
Proof.
  induction fuel as [| fuel IH]; intros lr; [apply blind_out_of_fuel |].
  cbn [parse_member_names_loop]. repeat blind_step.
  apply blind_with_fuel. intros f. apply blind_parse_dimensions_loop.
Qed.

Lemma blind_parse_member lr : blind (parse_member lr).
Proof.
  unfold parse_member. repeat blind_step.
  apply blind_with_fuel. intros f. apply blind_parse_member_names_loop.
Qed.

Lemma blind_parse_enum_value le : blind (parse_enum_value le).
Proof. unfold parse_enum_value. repeat blind_step. Qed.

Lemma blind_parse_struct_body_loop fuel : forall lr, blind (parse_struct_body_loop fuel lr).
Proof.
  induction fuel as [| fuel IH]; intros lr; [apply blind_out_of_fuel |].
  cbn [parse_struct_body_loop]. repeat blind_step.
  apply blind_parse_member.
Qed.

Lemma blind_parse_enum_body_loop fuel : forall le, blind (parse_enum_body_loop fuel le).
Proof.
  induction fuel as [| fuel IH]; intros le; [apply blind_out_of_fuel |].
  cbn [parse_enum_body_loop]. repeat blind_step.
  apply blind_parse_enum_value.
Qed.

Lemma blind_parse_struct lcmfile : blind (parse_struct lcmfile).
Proof.
  unfold parse_struct. repeat blind_step.
  apply blind_with_fuel. intros f. apply blind_parse_struct_body_loop.
Qed.

Lemma blind_parse_enum lcmfile : blind (parse_enum lcmfile).
Proof.
  unfold parse_enum. repeat blind_step.
  apply blind_with_fuel. intros f. apply blind_parse_enum_body_loop.
Qed.

Lemma bind_of_Exit {A B} (m : M A) (f : A -> M B) s d s1 :
  m s = Exit d s1 -> bind m f s = Exit d s1.
Proof. unfold bind. intros ->. reflexivity. Qed.

Lemma same_growth_refl g1 g2 : same_growth g1 g1 g2 g2.
Proof.
  split; [reflexivity | split; [reflexivity |]].
  exists [], []. rewrite !app_nil_r. auto.
Qed.

Lemma same_growth_trans g1 g1' g1'' g2 g2' g2'' :
  same_growth g1 g1' g2 g2' -> same_growth g1' g1'' g2' g2'' ->
  same_growth g1 g1'' g2 g2''.
Proof.
  intros (Ha1 & Ha2 & ss & es & Hs1 & Hs2 & He1 & He2)
         (Hb1 & Hb2 & ss' & es' & Hs1' & Hs2' & He1' & He2').
  split; [congruence | split; [congruence |]].
  exists (ss ++ ss'), (es ++ es').
  rewrite Hs1', Hs1, Hs2', Hs2, He1', He1, He2', He2, <- !app_assoc. auto.
Qed.

Lemma parse_entity_blind path s1 s2 :
  tok s1 = tok s2 ->
  match parse_entity path s1, parse_entity path s2 with
  | Ok r1 s1', Ok r2 s2' =>
      r1 = r2 /\ tok s1' = tok s2'
      /\ same_growth (lcmgen s1) (lcmgen s1') (lcmgen s2) (lcmgen s2')
  | Exit d1 s1', Exit d2 s2' =>
      d1 = d2 /\ tok s1' = tok s2' /\ lcmgen s1' = lcmgen s1 /\ lcmgen s2' = lcmgen s2
  | OutOfFuel, OutOfFuel => True
  | _, _ => False
  end.
Proof.
  intros Htok. unfold parse_entity.
  destruct (pending (tok s2)) as [| x rest] eqn:E2.
  - assert (N1 : next s1 = Ok EOF {| lcmgen := lcmgen s1; tok := tok s1 |})
      by (unfold next, tokenize_next; rewrite Htok, E2; reflexivity).
    assert (N2 : next s2 = Ok EOF {| lcmgen := lcmgen s2; tok := tok s2 |})
      by (unfold next, tokenize_next; rewrite E2; reflexivity).
    rewrite (bind_of_Ok _ _ _ _ _ N1), (bind_of_Ok _ _ _ _ _ N2).
    simpl. split; [reflexivity | split; [exact Htok |]].
    apply same_growth_refl.
  - set (s1a := {| lcmgen := lcmgen s1; tok := {| token := x; pending := rest |} |}).
    set (s2a := {| lcmgen := lcmgen s2; tok := {| token := x; pending := rest |} |}).
    assert (N1 : next s1 = Ok 0 s1a)
      by (unfold next, tokenize_next; rewrite Htok, E2; reflexivity).
    assert (N2 : next s2 = Ok 0 s2a)
      by (unfold next, tokenize_next; rewrite E2; reflexivity).
    rewrite (bind_of_Ok _ _ _ _ _ N1), (bind_of_Ok _ _ _ _ _ N2).
    change (0 =? EOF) with false. cbn iota.
    rewrite (bind_of_Ok cur_token _ s1a x s1a eq_refl),
            (bind_of_Ok cur_token _ s2a x s2a eq_refl).
    destruct (String.eqb x "struct").
    { pose proof (blind_parse_struct path s1a s2a eq_refl) as Hb.
      pose proof (keeps_parse_struct path s1a) as Hk1.
      pose proof (keeps_parse_struct path s2a) as Hk2.
      unfold keeps in Hk1, Hk2.
      destruct (parse_struct path s1a) as [lr1 t1 | d1 t1 |] eqn:P1;
        destruct (parse_struct path s2a) as [lr2 t2 | d2 t2 |] eqn:P2; try tauto.
      - rewrite (bind_of_Ok _ _ _ _ _ P1), (bind_of_Ok _ _ _ _ _ P2).
        destruct Hb as [<- Ht]. destruct Hk1 as [Hr1 _]. destruct Hk2 as [Hr2 _].
        simpl. split; [reflexivity | split; [exact Ht |]].
        rewrite Hr1, Hr2. cbn [lcmgen s1a s2a].
        split; [reflexivity | split; [reflexivity |]].
        exists [lr1], []. cbn [structs enums]. rewrite !app_nil_r. auto.
      - rewrite (bind_of_Exit _ _ _ _ _ P1), (bind_of_Exit _ _ _ _ _ P2).
        destruct Hb as [<- Ht]. auto. }
    destruct (String.eqb x "enum").
    { pose proof (blind_parse_enum path s1a s2a eq_refl) as Hb.
      pose proof (keeps_parse_enum path s1a) as Hk1.
      pose proof (keeps_parse_enum path s2a) as Hk2.
      unfold keeps in Hk1, Hk2.
      destruct (parse_enum path s1a) as [le1 t1 | d1 t1 |] eqn:P1;
        destruct (parse_enum path s2a) as [le2 t2 | d2 t2 |] eqn:P2; try tauto.
      - rewrite (bind_of_Ok _ _ _ _ _ P1), (bind_of_Ok _ _ _ _ _ P2).
        destruct Hb as [<- Ht]. destruct Hk1 as [Hr1 _]. destruct Hk2 as [Hr2 _].
        simpl. split; [reflexivity | split; [exact Ht |]].
        rewrite Hr1, Hr2. cbn [lcmgen s1a s2a].
        split; [reflexivity | split; [reflexivity |]].
        exists [], [le1]. cbn [structs enums]. rewrite !app_nil_r. auto.
      - rewrite (bind_of_Exit _ _ _ _ _ P1), (bind_of_Exit _ _ _ _ _ P2).
        destruct Hb as [<- Ht]. auto. }
    destruct (String.eqb x "union"); simpl; auto.
Qed.

Lemma handle_file_loop_blind path fuel : forall s1 s2,
  tok s1 = tok s2 ->
  match handle_file_loop path fuel s1, handle_file_loop path fuel s2 with
  | Ok _ s1', Ok _ s2' =>
      tok s1' = tok s2' /\ same_growth (lcmgen s1) (lcmgen s1') (lcmgen s2) (lcmgen s2')
  | Exit d1 s1', Exit d2 s2' =>
      d1 = d2 /\ tok s1' = tok s2'
      /\ same_growth (lcmgen s1) (lcmgen s1') (lcmgen s2) (lcmgen s2')
  | OutOfFuel, OutOfFuel => True
  | _, _ => False
  end.
Proof.
  induction fuel as [| fuel IH]; intros s1 s2 Htok; [exact I |].
  cbn [handle_file_loop]. unfold bind.
  pose proof (parse_entity_blind path s1 s2 Htok) as Hb.
  destruct (parse_entity path s1) as [r1 t1 | d1 t1 |],
           (parse_entity path s2) as [r2 t2 | d2 t2 |]; try tauto.
  - destruct Hb as (<- & Ht & Hg).
    destruct (negb (r1 =? EOF)).
    + specialize (IH t1 t2 Ht).
      destruct (handle_file_loop path fuel t1) as [? u1 | e1 u1 |],
               (handle_file_loop path fuel t2) as [? u2 | e2 u2 |]; try tauto.
      * destruct IH as [Hu Hg2]. split; [exact Hu |].
        exact (same_growth_trans _ _ _ _ _ _ Hg Hg2).
      * destruct IH as (He & Hu & Hg2). split; [exact He | split; [exact Hu |]].
        exact (same_growth_trans _ _ _ _ _ _ Hg Hg2).
    + simpl. auto.
  - destruct Hb as (<- & Ht & Hr1 & Hr2). split; [reflexivity | split; [exact Ht |]].
    rewrite Hr1, Hr2. apply same_growth_refl.
Qed.

(** X17: the parser never looks at the registry.  Run on the same file
    with two registries (and the same [tokenize] option),
    [lcmgen_handle_file] returns the same value or ends in the same fatal
    diagnostic, at the same token, and appends the same structs and enums
    to both: nothing is checked against the entities registered before, so
    a type that is declared again is registered again. *)
Theorem X17_registry_never_consulted g1 g2 path toks :
  gopt g1 "tokenize" = gopt g2 "tokenize" ->
  match lcmgen_handle_file g1 path (Some toks), lcmgen_handle_file g2 path (Some toks) with
  | Ok r1 s1, Ok r2 s2 =>
      r1 = r2 /\ tok s1 = tok s2 /\ same_growth g1 (lcmgen s1) g2 (lcmgen s2)
  | Exit d1 s1, Exit d2 s2 =>
      d1 = d2 /\ tok s1 = tok s2 /\ same_growth g1 (lcmgen s1) g2 (lcmgen s2)
  | _, _ => False
  end.
Proof.
  intros Hopt. unfold lcmgen_handle_file. rewrite Hopt.
  destruct (gopt g2 "tokenize").
  - unfold bind, with_fuel, tokenize_create.
    change {| lcmgen := g1; tok := {| token := ""; pending := toks |} |}
      with (state_of g1 "" toks).
    change {| lcmgen := g2; tok := {| token := ""; pending := toks |} |}
      with (state_of g2 "" toks).
    rewrite !dump_tokens_loop_all by (unfold remaining; simpl; lia).
    simpl. split; [reflexivity | split; [reflexivity |]]. apply same_growth_refl.
  - set (s1 := {| lcmgen := g1; tok := tokenize_create toks |}).
    set (s2 := {| lcmgen := g2; tok := tokenize_create toks |}).
    unfold bind, with_fuel.
    assert (Hrem : remaining s1 = remaining s2) by reflexivity.
    rewrite Hrem.
    pose proof (handle_file_loop_blind path (S (remaining s2)) s1 s2 eq_refl) as Hb.
    pose proof (handle_file_loop_total path (S (remaining s2)) s1 ltac:(lia)) as Ht1.
    pose proof (handle_file_loop_total path (S (remaining s2)) s2 ltac:(lia)) as Ht2.
    destruct (handle_file_loop path (S (remaining s2)) s1) as [? t1 | d1 t1 |],
             (handle_file_loop path (S (remaining s2)) s2) as [? t2 | d2 t2 |];
      try tauto; try congruence.
    simpl. destruct Hb as [Ht Hg]. auto.
Qed.

Lemma X17_registry_never_consulted_witness :
  let g1 := lcmgen_create in
  let g2 := {| gopt := fun _ => false; structs := [struct_a]; enums := [] |} in
  let toks := "struct" :: struct_a_tokens in
  gopt g1 "tokenize" = gopt g2 "tokenize"
  /\ lcmgen_handle_file g2 "a.lcm" (Some toks)
     = Ok 0 (state_of {| gopt := fun _ => false; structs := [struct_a; struct_a];
                         enums := [] |} "}" [])
  /\ match lcmgen_handle_file g1 "a.lcm" (Some toks),
           lcmgen_handle_file g2 "a.lcm" (Some toks) with
     | Ok r1 s1, Ok r2 s2 =>
         r1 = r2 /\ tok s1 = tok s2 /\ same_growth g1 (lcmgen s1) g2 (lcmgen s2)
     | Exit d1 s1, Exit d2 s2 =>
         d1 = d2 /\ tok s1 = tok s2 /\ same_growth g1 (lcmgen s1) g2 (lcmgen s2)
     | _, _ => False
     end.
Proof.
  intros g1 g2 toks.
  split; [reflexivity | split; [vm_compute; reflexivity |]].
  apply (X17_registry_never_consulted g1 g2 "a.lcm" toks). reflexivity.
Defined.
